(** * Routing simulator on a Delaunay graph: the component GraphSimulator

    A shallow embedding of the functions of the React component
    [GraphSimulator]: [distance], [getNextNode], [simulateRoutingStep],
    [startRoutingSimulation] and [updateNodePosition], and the properties
    the specification states about them.

    Conventions of the embedding.
    - A JavaScript [number] is a binary64 number.  The functions whose
      result depends on how a number is rounded, [distance], the strategies
      of [getNextNode] and the statistics of a route, are written over the
      arithmetic they use (the classes [Arith], [Number] and [Atan2]) and
      read twice: in binary64 ([float]: every operation rounded to nearest,
      every comparison with NaN false, [Math.PI] the double nearest to pi,
      [Math.atan2] that of the engine), as JavaScript computes them, and in
      exact arithmetic ([R]).  The properties of the strategies are proved
      for every arithmetic whose comparisons obey [OrderLaws], which the two
      readings do.
    - For the strategies this form is the module [Machine].  The two loops
      of [firstLeft] are given a number of iterations there, and a call in
      which a loop has not ended by then has the outcome [Unfinished].
    - The runs, and the functions that act on the state, are stated in exact
      arithmetic: coordinates are real numbers, [Math.max] and [Math.min],
      which do not round, are the maximum and the minimum of the reals, and
      a hop selects the neighbor that [getNextNode] gives in exact
      arithmetic ([exact_getNextNode] relates it to the module [Machine]).
      Infinities and NaN are outside this part.
    - Node identifiers ([Date.now()]) are integers ([Z]); lengths of arrays
      are natural numbers.
    - [Math.floor(Math.random() * n)] is a drawn index, an input of the
      function that draws it.
    - The triangulation of d3-delaunay is a parameter of the development.
    - The React state of the component is a record; a state setter is a
      record update.  A function created in a render reads the state of that
      render (its closure, [Render.t]); a functional update
      ([setRouteEdges(prev => ...)]) acts on the live state.  The handler of
      a drag gesture is the one bound when the gesture began: the route that
      [updateNodePosition] tests is the route of that render.  When a drag
      resets the run, the circle of the packet leaves the document: the hop
      in progress still ends, the chain of calls stops after it, and the
      effect starts a new chain in the render of that moment. *)

From Stdlib Require Import String Floats Uint63 Reals Lra Lia ZArith Bool List.
From Stdlib Require Import Permutation.
Import ListNotations.

Open Scope R_scope.

(** ** The arithmetic of the statistics *)

Class Arith (num : Type) : Type := {
  ofZ : Z -> num;             (* an integer, as a number *)
  nadd : num -> num -> num;   (* [a + b] *)
  nsub : num -> num -> num;   (* [a - b] *)
  ndiv : num -> num -> num;   (* [a / b] *)
  nsquare : num -> num;       (* [Math.pow(a, 2)] *)
  nsqrt : num -> num          (* [Math.sqrt(a)] *)
}.

(** Exact arithmetic. *)
#[export] Instance exactArith : Arith R := {
  ofZ := IZR;
  nadd := Rplus;
  nsub := Rminus;
  ndiv := Rdiv;
  nsquare := fun a => a ^ 2;
  nsqrt := sqrt
}.

(** An integer as a binary64 number; exact below 2^53. *)
Definition floatOfZ (z : Z) : float :=
  match z with
  | Zneg p => PrimFloat.opp (PrimFloat.of_uint63 (Uint63.of_Z (Zpos p)))
  | _ => PrimFloat.of_uint63 (Uint63.of_Z z)
  end.

(** The arithmetic of JavaScript: IEEE 754 binary64, each operation rounded
    to nearest.  The square of a number is its product with itself, rounded
    once. *)
#[export] Instance binary64Arith : Arith float := {
  ofZ := floatOfZ;
  nadd := PrimFloat.add;
  nsub := PrimFloat.sub;
  ndiv := PrimFloat.div;
  nsquare := fun a => PrimFloat.mul a a;
  nsqrt := PrimFloat.sqrt
}.

(** ** The arithmetic of the strategies *)

(** What the strategies of [getNextNode] need besides: product, opposite,
    absolute value, the two comparisons and [Math.PI].  [a > b] is
    [nlt b a]. *)
Class Number (num : Type) : Type := {
  nmul : num -> num -> num;   (* [a * b] *)
  nneg : num -> num;          (* [-a] *)
  nabs : num -> num;          (* [Math.abs(a)] *)
  nlt : num -> num -> bool;   (* [a < b] *)
  nle : num -> num -> bool;   (* [a <= b] *)
  npi : num                   (* [Math.PI] *)
}.

(** [Math.atan2(y, x)].  The language leaves its value to the engine, up to
    an approximation. *)
Class Atan2 (num : Type) : Type := {
  natan2 : num -> num -> num
}.

(** Binary64: the comparisons are those of IEEE 754, false on NaN, and
    [Math.PI] is the double nearest to pi. *)
#[export] Instance binary64Number : Number float := {
  nmul := PrimFloat.mul;
  nneg := PrimFloat.opp;
  nabs := PrimFloat.abs;
  nlt := PrimFloat.ltb;
  nle := PrimFloat.leb;
  npi := 0x1.921fb54442d18p+1%float
}.

(** Binary64 with the [Math.atan2] of an engine. *)
Definition binary64Atan2 (engine : float -> float -> float) : Atan2 float :=
  {| natan2 := engine |}.

(** A number proper: NaN is the one value that is not [<=] itself. *)
Definition isNumber {num : Type} {number : Number num} (a : num) : bool :=
  nle a a.

(** The laws of [<] and [<=] that the reductions of [getNextNode] rest on.
    They hold of the reals and of binary64, where every comparison with NaN
    is false. *)
Class OrderLaws (num : Type) {number : Number num} : Prop := {
  nlt_irrefl : forall a : num, nlt a a = false;
  nlt_trans : forall a b c : num,
      nlt a b = true -> nlt b c = true -> nlt a c = true;
  nlt_numbers : forall a b : num,
      nlt a b = true -> isNumber a = true /\ isNumber b = true;
  nle_total : forall a b : num,
      isNumber a = true -> isNumber b = true -> nlt b a = false ->
      nle a b = true;
  nle_not_nlt : forall a b : num, nle a b = true -> nlt b a = false;
  nlt_nle_trans : forall a b c : num,
      nlt a b = true -> nle b c = true -> nlt a c = true
}.

(** ** Data model *)

(** A node, over the numbers [num] of its coordinates. *)
Module Node.
Record t (num : Type) : Type := mk { id : Z; x : num; y : num; color : string }.
Arguments mk {num}.
Arguments id {num}.
Arguments x {num}.
Arguments y {num}.
Arguments color {num}.
End Node.
Definition Node : Type := Node.t R.

Module Packet.
Record t : Type := mk { currentNode : Node; destination : Node }.
End Packet.
Definition Packet : Type := Packet.t.

Module RouteEdge.
Record t (num : Type) : Type := mk {
  x1 : num; y1 : num; x2 : num; y2 : num;
  startId : Z; endId : Z;
  color : string
}.
Arguments mk {num}.
Arguments x1 {num}.
Arguments y1 {num}.
Arguments x2 {num}.
Arguments y2 {num}.
Arguments startId {num}.
Arguments endId {num}.
Arguments color {num}.
End RouteEdge.
Definition RouteEdge : Type := RouteEdge.t R.

Module RouteStats.
Record t (num : Type) : Type := mk {
  numEdges : nat; totalLength : num; directDistance : num
}.
Arguments mk {num}.
Arguments numEdges {num}.
Arguments totalLength {num}.
Arguments directDistance {num}.
End RouteStats.
Definition RouteStats : Type := RouteStats.t R.

Inductive Strategy : Type :=
| closestToDestination
| angleClosest
| smallestJump
| firstLeft
| random.

Definition svgWidth : R := 600.
Definition svgHeight : R := 400.
Definition baseRadius : R := 5.

Definition inactiveColor : string := "grey"%string.
Definition activeColors : list string :=
  ["red"; "blue"; "green"; "orange"]%string.
Definition colors : list string := inactiveColor :: activeColors.

(** ** Numbers and arrays of JavaScript *)

(** [a < b], [a <= b] and [a > b] as tests. *)
Definition Rltb (a b : R) : bool := if Rlt_dec a b then true else false.
Definition Rleb (a b : R) : bool := if Rle_dec a b then true else false.
Definition Rgtb (a b : R) : bool := if Rgt_dec a b then true else false.

(** [Math.atan2(y, x)]: the angle of the vector [(x, y)], in [[-PI, PI]].
    Signed zeros are not modelled: a zero [y] counts as [+0]. *)
Definition atan2 (y x : R) : R :=
  if Rltb 0 x then atan (y / x)
  else if Rltb x 0 then
         if Rleb 0 y then atan (y / x) + PI else atan (y / x) - PI
  else if Rltb 0 y then PI / 2
  else if Rltb y 0 then - (PI / 2)
  else 0.

(** Exact arithmetic. *)
#[export] Instance exactNumber : Number R := {
  nmul := Rmult;
  nneg := Ropp;
  nabs := Rabs;
  nlt := Rltb;
  nle := Rleb;
  npi := PI
}.

#[export] Instance exactAtan2 : Atan2 R := {
  natan2 := atan2
}.

(** The value of a finite binary64 number, as a fraction: numerator and
    denominator. *)
Definition ratOf (f : float) : Z * Z :=
  match Prim2SF f with
  | S754_finite s m e =>
      let n := if s then Zneg m else Zpos m in
      if (0 <=? e)%Z then (n * 2 ^ e, 1)%Z else (n, 2 ^ (- e))%Z
  | _ => (0, 1)%Z
  end.

(** The real number that a finite binary64 number stands for. *)
Definition realOf (f : float) : R := IZR (fst (ratOf f)) / IZR (snd (ratOf f)).

(** A node with binary64 coordinates, at the same place in the real
    plane. *)
Definition realNode (n : Node.t float) : Node.t R :=
  Node.mk (Node.id n) (realOf (Node.x n)) (realOf (Node.y n)) (Node.color n).

(** [arr.findIndex(p)]: the index of the first element that satisfies [p],
    [-1] when there is none. *)
Fixpoint findIndexFrom {A : Type} (p : A -> bool) (l : list A) (i : Z) : Z :=
  match l with
  | [] => (-1)%Z
  | a :: l' => if p a then i else findIndexFrom p l' (i + 1)%Z
  end.
Definition findIndex {A : Type} (p : A -> bool) (l : list A) : Z :=
  findIndexFrom p l 0%Z.

(** [arr.some(p)] is [existsb p arr]; [arr.filter(p)] is [filter p arr];
    [arr.reduce(f, init)] is [fold_left f arr init].  [arr.reduce(f)] with no
    initial value starts from the first element; it throws on an empty array
    ([None] here). *)
Definition reduce1 {A : Type} (f : A -> A -> A) (l : list A) : option A :=
  match l with
  | [] => None
  | a :: l' => Some (fold_left f l' a)
  end.

(** [idx.map(i => arr[i])], for indices of [arr].  d3-delaunay only yields
    indices of the points it was given, so every [arr[i]] is defined; an index
    outside [arr] contributes no element here. *)
Definition lookupAll {A : Type} (arr : list A) (idx : list nat) : list A :=
  flat_map (fun i => match nth_error arr i with
                     | Some a => [a]
                     | None => []
                     end) idx.

(** ** Geometry, in exact arithmetic *)

Definition distance (a b : Node) : R :=
  let dx := Node.x a - Node.x b in
  let dy := Node.y a - Node.y b in
  sqrt (dx * dx + dy * dy).

(** The two [while] loops of [firstLeft] that bring an angle into
    [(-PI, PI]], each run for at most [fuel] iterations. *)
Fixpoint raiseAngle (fuel : nat) (relativeAngle : R) : R :=
  match fuel with
  | O => relativeAngle
  | S fuel' =>
      if Rleb relativeAngle (- PI)
      then raiseAngle fuel' (relativeAngle + 2 * PI)
      else relativeAngle
  end.

Fixpoint lowerAngle (fuel : nat) (relativeAngle : R) : R :=
  match fuel with
  | O => relativeAngle
  | S fuel' =>
      if Rgtb relativeAngle PI
      then lowerAngle fuel' (relativeAngle - 2 * PI)
      else relativeAngle
  end.

(** A number of iterations that is enough for both loops on [a]: more than
    [|a| / (2 PI)]. *)
Definition turns (a : R) : nat := Z.to_nat (up (Rabs a / (2 * PI))).

Definition normalizeAngle (a : R) : R :=
  lowerAngle (turns a) (raiseAngle (turns a) a).

(** ** Next-hop selection, in exact arithmetic *)

Module Angled.
Record t : Type := mk { candidate : Node; relativeAngle : R }.
End Angled.

(** The callback of the [reduce] of [closestToDestination], of
    [smallestJump] and of the [default] branch: keep the candidate whose
    [key] is strictly smaller than the best so far. *)
Definition keepSmaller (key : Node -> R) (best : option Node) (candidate : Node)
  : option Node :=
  match best with
  | None => Some candidate
  | Some b => if Rltb (key candidate) (key b) then Some candidate else Some b
  end.

(** The deviation of [angleClosest]: the absolute difference of two angles,
    taken as the shorter arc. *)
Definition angleDiff (angle baselineAngle : R) : R :=
  let diff := Rabs (angle - baselineAngle) in
  if Rgtb diff PI then 2 * PI - diff else diff.

Definition bearing (current n : Node) : R :=
  atan2 (Node.y n - Node.y current) (Node.x n - Node.x current).

Definition keepAngleCloser (current : Node) (baselineAngle : R)
    (best : option Node) (candidate : Node) : option Node :=
  let diff := angleDiff (bearing current candidate) baselineAngle in
  match best with
  | None => Some candidate
  | Some b =>
      let bestDiff := angleDiff (bearing current b) baselineAngle in
      if Rltb diff bestDiff then Some candidate else Some b
  end.

Definition withAngle (current : Node) (baselineAngle : R) (candidate : Node)
  : Angled.t :=
  Angled.mk candidate (normalizeAngle (bearing current candidate - baselineAngle)).

Definition smallerAngle (best currentItem : Angled.t) : Angled.t :=
  if Rltb (Angled.relativeAngle currentItem) (Angled.relativeAngle best)
  then currentItem else best.

Definition largerAngle (best currentItem : Angled.t) : Angled.t :=
  if Rgtb (Angled.relativeAngle currentItem) (Angled.relativeAngle best)
  then currentItem else best.

(** The test of the [random] strategy: the edge between [current] and
    [candidate] was taken before, in one direction or the other. *)
Definition edgeUsed (routeEdges : list RouteEdge) (current candidate : Node)
  : bool :=
  existsb (fun edge =>
             (Z.eqb (RouteEdge.startId edge) (Node.id current)
              && Z.eqb (RouteEdge.endId edge) (Node.id candidate))
             || (Z.eqb (RouteEdge.startId edge) (Node.id candidate)
                 && Z.eqb (RouteEdge.endId edge) (Node.id current)))
          routeEdges.

(** The [switch] of [getNextNode], on the candidates found.  [draw] is the
    index drawn by the [random] strategy.  The [default] branch, which does
    what [closestToDestination] does, is not reached: [Strategy] has these
    five values only. *)
Definition selectNextHop (strategy : Strategy) (routeEdges : list RouteEdge)
    (draw : nat) (current destination : Node) (candidates : list Node)
  : option Node :=
  match strategy with
  | closestToDestination =>
      fold_left (keepSmaller (fun n => distance n destination)) candidates None
  | smallestJump =>
      let validCandidates :=
        filter (fun candidate =>
                  Rltb (distance candidate destination)
                       (distance current destination)) candidates in
      if (0 <? length validCandidates)%nat
      then fold_left (keepSmaller (fun n => distance current n))
                     validCandidates None
      else None
  | angleClosest =>
      let baselineAngle := bearing current destination in
      fold_left (keepAngleCloser current baselineAngle) candidates None
  | firstLeft =>
      let baselineAngle := bearing current destination in
      let candidatesWithAngle := map (withAngle current baselineAngle) candidates in
      let leftCandidates :=
        filter (fun c => Rgtb (Angled.relativeAngle c) 0) candidatesWithAngle in
      if (0 <? length leftCandidates)%nat
      then option_map Angled.candidate (reduce1 smallerAngle leftCandidates)
      else option_map Angled.candidate (reduce1 largerAngle candidatesWithAngle)
  | random =>
      let validCandidates :=
        filter (fun candidate => negb (edgeUsed routeEdges current candidate))
               candidates in
      if (0 <? length validCandidates)%nat
      then nth_error validCandidates draw
      else None
  end.

Section Triangulation.

(** [Delaunay.from(points).neighbors(i)]: the indices of the points that
    share a triangulation edge with point [i]. *)
Variable delaunayNeighbors : list (R * R) -> Z -> list nat.

Definition neighborIndices (nodes : list Node) (current : Node) : list nat :=
  let points := map (fun n => (Node.x n, Node.y n)) nodes in
  let currentIndex :=
    findIndex (fun n => Z.eqb (Node.id n) (Node.id current)) nodes in
  delaunayNeighbors points currentIndex.

(** The candidates of [getNextNode]: the nodes at the neighbor indices. *)
Definition candidatesOf (nodes : list Node) (current : Node) : list Node :=
  lookupAll nodes (neighborIndices nodes current).

Definition getNextNode (nodes : list Node) (strategy : Strategy)
    (routeEdges : list RouteEdge) (draw : nat) (current destination : Node)
  : option Node :=
  if (length nodes <? 3)%nat then None
  else
    if (length (neighborIndices nodes current) =? 0)%nat then None
    else selectNextHop strategy routeEdges draw current destination
                       (candidatesOf nodes current).

End Triangulation.

(** ** Next-hop selection, in the arithmetic of the machine

    [distance] and [getNextNode], written over the arithmetic they use: read
    in binary64, they are the functions as JavaScript computes them, every
    operation rounded and every comparison made on the rounded values; read
    in exact arithmetic, they are the functions above.  [fuel] is the number
    of times each loop of [firstLeft] may test its condition: a call in
    which a loop has not ended by then is [Unfinished]. *)

Module Machine.

Section Strategies.

Context {num : Type} {arith : Arith num} {number : Number num}
        {trig : Atan2 num}.

Definition distance (a b : Node.t num) : num :=
  let dx := nsub (Node.x a) (Node.x b) in
  let dy := nsub (Node.y a) (Node.y b) in
  nsqrt (nadd (nmul dx dx) (nmul dy dy)).

(** [2 * Math.PI] *)
Definition twoPi : num := nmul (ofZ 2) npi.

(** [while (relativeAngle <= -Math.PI) relativeAngle += 2 * Math.PI] *)
Fixpoint raiseAngle (fuel : nat) (relativeAngle : num) : option num :=
  match fuel with
  | O => None
  | S fuel' =>
      if nle relativeAngle (nneg npi)
      then raiseAngle fuel' (nadd relativeAngle twoPi)
      else Some relativeAngle
  end.

(** [while (relativeAngle > Math.PI) relativeAngle -= 2 * Math.PI] *)
Fixpoint lowerAngle (fuel : nat) (relativeAngle : num) : option num :=
  match fuel with
  | O => None
  | S fuel' =>
      if nlt npi relativeAngle
      then lowerAngle fuel' (nsub relativeAngle twoPi)
      else Some relativeAngle
  end.

Definition normalizeAngle (fuel : nat) (a : num) : option num :=
  match raiseAngle fuel a with
  | Some relativeAngle => lowerAngle fuel relativeAngle
  | None => None
  end.

Record Angled : Type := mkAngled {
  candidate : Node.t num;
  relativeAngle : num
}.

Definition keepSmaller (key : Node.t num -> num) (best : option (Node.t num))
    (candidate : Node.t num) : option (Node.t num) :=
  match best with
  | None => Some candidate
  | Some b => if nlt (key candidate) (key b) then Some candidate else Some b
  end.

Definition angleDiff (angle baselineAngle : num) : num :=
  let diff := nabs (nsub angle baselineAngle) in
  if nlt npi diff then nsub twoPi diff else diff.

Definition bearing (current n : Node.t num) : num :=
  natan2 (nsub (Node.y n) (Node.y current)) (nsub (Node.x n) (Node.x current)).

Definition keepAngleCloser (current : Node.t num) (baselineAngle : num)
    (best : option (Node.t num)) (candidate : Node.t num)
  : option (Node.t num) :=
  let diff := angleDiff (bearing current candidate) baselineAngle in
  match best with
  | None => Some candidate
  | Some b =>
      let bestDiff := angleDiff (bearing current b) baselineAngle in
      if nlt diff bestDiff then Some candidate else Some b
  end.

Definition withAngle (fuel : nat) (current : Node.t num) (baselineAngle : num)
    (candidate : Node.t num) : option Angled :=
  option_map (mkAngled candidate)
    (normalizeAngle fuel (nsub (bearing current candidate) baselineAngle)).

(** [candidates.map(...)] of [firstLeft]: the candidates with their
    relative angles, when every loop has ended. *)
Fixpoint withAngles (fuel : nat) (current : Node.t num) (baselineAngle : num)
    (candidates : list (Node.t num)) : option (list Angled) :=
  match candidates with
  | [] => Some []
  | c :: rest =>
      match withAngle fuel current baselineAngle c with
      | None => None
      | Some item =>
          option_map (cons item) (withAngles fuel current baselineAngle rest)
      end
  end.

Definition smallerAngle (best currentItem : Angled) : Angled :=
  if nlt (relativeAngle currentItem) (relativeAngle best)
  then currentItem else best.

Definition largerAngle (best currentItem : Angled) : Angled :=
  if nlt (relativeAngle best) (relativeAngle currentItem)
  then currentItem else best.

Definition edgeUsed (routeEdges : list (RouteEdge.t num))
    (current candidate : Node.t num) : bool :=
  existsb (fun edge =>
             (Z.eqb (RouteEdge.startId edge) (Node.id current)
              && Z.eqb (RouteEdge.endId edge) (Node.id candidate))
             || (Z.eqb (RouteEdge.startId edge) (Node.id candidate)
                 && Z.eqb (RouteEdge.endId edge) (Node.id current)))
          routeEdges.

(** What a call of [getNextNode] gives: a node, [null], or no result within
    the fuel. *)
Inductive Outcome : Type :=
| Next (n : Node.t num)
| NoNext
| Unfinished.

Definition outcomeOf (bestNeighbor : option (Node.t num)) : Outcome :=
  match bestNeighbor with
  | Some n => Next n
  | None => NoNext
  end.

Definition selectNextHop (fuel : nat) (strategy : Strategy)
    (routeEdges : list (RouteEdge.t num)) (draw : nat)
    (current destination : Node.t num) (candidates : list (Node.t num))
  : Outcome :=
  match strategy with
  | closestToDestination =>
      outcomeOf
        (fold_left (keepSmaller (fun n => distance n destination))
                   candidates None)
  | smallestJump =>
      let validCandidates :=
        filter (fun candidate =>
                  nlt (distance candidate destination)
                      (distance current destination)) candidates in
      if (0 <? length validCandidates)%nat
      then outcomeOf
             (fold_left (keepSmaller (fun n => distance current n))
                        validCandidates None)
      else NoNext
  | angleClosest =>
      let baselineAngle := bearing current destination in
      outcomeOf
        (fold_left (keepAngleCloser current baselineAngle) candidates None)
  | firstLeft =>
      let baselineAngle := bearing current destination in
      match withAngles fuel current baselineAngle candidates with
      | None => Unfinished
      | Some candidatesWithAngle =>
          let leftCandidates :=
            filter (fun c => nlt (ofZ 0) (relativeAngle c))
                   candidatesWithAngle in
          if (0 <? length leftCandidates)%nat
          then outcomeOf
                 (option_map candidate (reduce1 smallerAngle leftCandidates))
          else outcomeOf
                 (option_map candidate
                    (reduce1 largerAngle candidatesWithAngle))
      end
  | random =>
      let validCandidates :=
        filter (fun candidate => negb (edgeUsed routeEdges current candidate))
               candidates in
      if (0 <? length validCandidates)%nat
      then outcomeOf (nth_error validCandidates draw)
      else NoNext
  end.

(** [Delaunay.from(points).neighbors(i)] *)
Variable delaunayNeighbors : list (num * num) -> Z -> list nat.

Definition neighborIndices (nodes : list (Node.t num)) (current : Node.t num)
  : list nat :=
  let points := map (fun n => (Node.x n, Node.y n)) nodes in
  let currentIndex :=
    findIndex (fun n => Z.eqb (Node.id n) (Node.id current)) nodes in
  delaunayNeighbors points currentIndex.

Definition candidatesOf (nodes : list (Node.t num)) (current : Node.t num)
  : list (Node.t num) :=
  lookupAll nodes (neighborIndices nodes current).

Definition getNextNode (fuel : nat) (nodes : list (Node.t num))
    (strategy : Strategy) (routeEdges : list (RouteEdge.t num)) (draw : nat)
    (current destination : Node.t num) : Outcome :=
  if (length nodes <? 3)%nat then NoNext
  else
    if (length (neighborIndices nodes current) =? 0)%nat then NoNext
    else selectNextHop fuel strategy routeEdges draw current destination
                       (candidatesOf nodes current).

(** The relative angle that [firstLeft] computes for a neighbor. *)
Definition relativeAngleOf (fuel : nat) (current destination c : Node.t num)
  : option num :=
  normalizeAngle fuel (nsub (bearing current c) (bearing current destination)).

(** The deviation that [angleClosest] computes for a neighbor. *)
Definition deviationOf (current destination c : Node.t num) : num :=
  angleDiff (bearing current c) (bearing current destination).

End Strategies.

End Machine.

(** ** The state of the component *)

Module State.
Record t : Type := mk {
  nodes : list Node;
  packet : option Packet;
  routeEdges : list RouteEdge;
  lastRouteStats : option RouteStats;
  finalMessage : option string;
  strategy : Strategy;
  simulationStarted : bool   (* the ref [simulationStarted.current] *)
}.

Definition setNodes (v : list Node) (s : t) : t :=
  mk v (packet s) (routeEdges s) (lastRouteStats s) (finalMessage s)
     (strategy s) (simulationStarted s).
Definition setPacket (v : option Packet) (s : t) : t :=
  mk (nodes s) v (routeEdges s) (lastRouteStats s) (finalMessage s)
     (strategy s) (simulationStarted s).
Definition setRouteEdges (v : list RouteEdge) (s : t) : t :=
  mk (nodes s) (packet s) v (lastRouteStats s) (finalMessage s)
     (strategy s) (simulationStarted s).
Definition setLastRouteStats (v : option RouteStats) (s : t) : t :=
  mk (nodes s) (packet s) (routeEdges s) v (finalMessage s)
     (strategy s) (simulationStarted s).
Definition setFinalMessage (v : option string) (s : t) : t :=
  mk (nodes s) (packet s) (routeEdges s) (lastRouteStats s) v
     (strategy s) (simulationStarted s).
Definition setSimulationStarted (v : bool) (s : t) : t :=
  mk (nodes s) (packet s) (routeEdges s) (lastRouteStats s) (finalMessage s)
     (strategy s) v.
End State.
Definition State : Type := State.t.

(** The constants that the functions created in one render close over: the
    state of that render.  [simulateRoutingStep] is called by the effect that
    found [packet] non-null, and then by itself, so its [packet!] is the
    packet of the render of that effect. *)
Module Render.
Record t : Type := mk {
  nodes : list Node;
  packet : Packet;
  routeEdges : list RouteEdge;
  strategy : Strategy
}.
End Render.

Definition msgReset : string :=
  "Le chemin a été réinitialisé en raison d'un déplacement."%string.
Definition msgLost : string := "Paquet perdu : aucun voisin trouvé."%string.
Definition msgArrived : string := "Le paquet est arrivé à destination !"%string.
Definition msgTwoActive : string :=
  "Il faut au moins deux nœuds actifs pour démarrer le routage."%string.
Definition msgNoDestination (sourceColor : string) : string :=
  ("Aucun nœud destination trouvé pour la couleur " ++ sourceColor)%string.

(** ** Moving a node *)

Definition clampX (x : R) : R := Rmax baseRadius (Rmin x (svgWidth - baseRadius)).
Definition clampY (y : R) : R := Rmax baseRadius (Rmin y (svgHeight - baseRadius)).

Definition moveNode (id : Z) (clampedX clampedY : R) (n : Node) : Node :=
  if Z.eqb (Node.id n) id
  then Node.mk (Node.id n) clampedX clampedY (Node.color n)
  else n.

Definition onRoute (id : Z) (routeEdges : list RouteEdge) : bool :=
  existsb (fun edge => Z.eqb (RouteEdge.startId edge) id
                       || Z.eqb (RouteEdge.endId edge) id) routeEdges.

(** [updateNodePosition(id, x, y)], on the live state [s].  The nodes are
    moved by a functional update, which acts on the live state; the test
    reads [routeEdges], the route of the render that created the function:
    the handler of a drag gesture is the one that was bound when the gesture
    began, so its route can be older than the live one. *)
Definition updateNodePosition (routeEdges : list RouteEdge) (s : State)
    (id : Z) (x y : R) : State :=
  let clampedX := clampX x in
  let clampedY := clampY y in
  let s1 := State.setNodes (map (moveNode id clampedX clampedY) (State.nodes s)) s in
  if onRoute id routeEdges
  then
    State.setSimulationStarted false
      (State.setPacket None
         (State.setFinalMessage (Some msgReset)
            (State.setLastRouteStats None
               (State.setRouteEdges [] s1))))
  else s1.

(** ** One run of the simulation *)

Definition edgeLength {num : Type} `{Arith num} (edge : RouteEdge.t num) : num :=
  nsqrt (nadd (nsquare (nsub (RouteEdge.x2 edge) (RouteEdge.x1 edge)))
              (nsquare (nsub (RouteEdge.y2 edge) (RouteEdge.y1 edge)))).

(** The statistics of [newEdges], computed on arrival.  [newEdges] ends with
    the edge just taken, [added], so [newEdges[0]] and
    [newEdges[newEdges.length - 1]] are defined. *)
Definition routeStats {num : Type} `{Arith num}
    (newEdges : list (RouteEdge.t num)) (added : RouteEdge.t num)
  : RouteStats.t num :=
  let numEdges := length newEdges in
  let totalLength :=
    fold_left (fun sum edge => nadd sum (edgeLength edge)) newEdges (ofZ 0) in
  let first := nth 0 newEdges added in
  let final := nth (length newEdges - 1) newEdges added in
  let directDistance :=
    nsqrt (nadd (nsquare (nsub (RouteEdge.x1 first) (RouteEdge.x2 final)))
                (nsquare (nsub (RouteEdge.y1 first) (RouteEdge.y2 final)))) in
  RouteStats.mk numEdges totalLength directDistance.

(** The ratio that the component displays under the statistics. *)
Definition stretchRatio {num : Type} `{Arith num} (st : RouteStats.t num) : num :=
  ndiv (RouteStats.totalLength st) (RouteStats.directDistance st).

Definition edgeBetween (current next : Node) (color : string) : RouteEdge :=
  RouteEdge.mk (Node.x current) (Node.y current) (Node.x next) (Node.y next)
               (Node.id current) (Node.id next) color.

(** What happens during a run: the transition of a hop ends (with the index
    that the [random] strategy drew for it) and its edge is appended, or the
    user drags a node.  [getNextNode] reads the render and not the live
    state, so a drag during the transition of a hop is a drag before that
    hop.  A drag comes with [captured], the route of the render in which its
    gesture began: the route that [updateNodePosition] tests. *)
Inductive Event : Type :=
| Hop (draw : nat)
| Drag (captured : list RouteEdge) (id : Z) (x y : R).

Inductive Status : Type :=
| InTransit (current : Node)
| Arrived
| Lost.

(** No next node: the packet is lost. *)
Definition lose (live : State) : State :=
  State.setSimulationStarted false
    (State.setPacket None (State.setFinalMessage (Some msgLost) live)).

(** The callback at the end of the transition to [next]: the edge is
    appended to the live route, and the statistics are set on arrival. *)
Definition appendEdge (view : Render.t) (live : State)
    (current next destination : Node) : State :=
  let added :=
    edgeBetween current next (Node.color (Packet.destination (Render.packet view))) in
  let newEdges := State.routeEdges live ++ [added] in
  let live1 :=
    if Z.eqb (Node.id next) (Node.id destination)
    then State.setLastRouteStats (Some (routeStats newEdges added)) live
    else live in
  State.setRouteEdges newEdges live1.

(** The callback of the timeout set on arrival. *)
Definition arrive (live : State) : State :=
  State.setSimulationStarted false
    (State.setPacket None (State.setFinalMessage (Some msgArrived) live)).

Section Simulation.

Variable delaunayNeighbors : list (R * R) -> Z -> list nat.

(** The render of the state [s] in which the packet is [p]. *)
Definition renderOf (s : State) (p : Packet) : Render.t :=
  Render.mk (State.nodes s) p (State.routeEdges s) (State.strategy s).

(** [simulateRoutingStep(current, destination)], in the render [view], on
    the live state.  The events are those that occur from this call on; the
    function calls itself when the transition of a hop that does not arrive
    ends.  With no event left the packet is still at [current].

    [mounted] tells whether the circle [#packet] is in the document.  A drag
    that resets the run sets the packet to null, and the circle is gone by
    the time the transition in progress ends.  That transition still ends:
    its edge is appended and the packet is set.  But the call that follows,
    once it has found a next node, selects no element and starts no
    transition: this chain of calls is over.  (Whether it finds a next node
    does not depend on the index drawn; index 0 stands for any.)  The packet
    being set and the started flag down, the effect starts a new chain, in
    the render of the state at that moment. *)
Fixpoint simulateRoutingStepIn (view : Render.t) (mounted : bool)
    (events : list Event) (live : State) (current destination : Node)
  : State * Status :=
  match events with
  | [] => (live, InTransit current)
  | Drag captured id x y :: events' =>
      simulateRoutingStepIn view (mounted && negb (onRoute id captured)) events'
        (updateNodePosition captured live id x y) current destination
  | Hop draw :: events' =>
      match getNextNode delaunayNeighbors (Render.nodes view)
                        (Render.strategy view) (Render.routeEdges view)
                        draw current destination with
      | None => (lose live, Lost)
      | Some next =>
          let live1 := appendEdge view live current next destination in
          if Z.eqb (Node.id next) (Node.id destination)
          then (arrive live1, Arrived)
          else
            let live2 :=
              State.setPacket (Some (Packet.mk next destination)) live1 in
            if mounted
            then simulateRoutingStepIn view true events' live2 next destination
            else
              match getNextNode delaunayNeighbors (Render.nodes view)
                                (Render.strategy view) (Render.routeEdges view)
                                0 next destination with
              | None => (lose live2, Lost)
              | Some _ =>
                  if negb (State.simulationStarted live2)
                  then
                    simulateRoutingStepIn
                      (renderOf live2 (Packet.mk next destination)) true events'
                      (State.setSimulationStarted true live2) next destination
                  else (live2, InTransit next)
              end
      end
  end.

(** The call made by the effect, and by a transition that ends with the
    circle in the document. *)
Definition simulateRoutingStep (view : Render.t) (events : list Event)
    (live : State) (current destination : Node) : State * Status :=
  simulateRoutingStepIn view true events live current destination.

(** The effect that starts the simulation once a packet is set. *)
Definition packetEffect (events : list Event) (s : State) : State * option Status :=
  match State.packet s with
  | Some p =>
      if negb (State.simulationStarted s)
      then
        let view := renderOf s p in
        let (s', st) :=
          simulateRoutingStep view events (State.setSimulationStarted true s)
                              (Packet.currentNode p) (Packet.destination p) in
        (s', Some st)
      else (s, None)
  | None => (s, None)
  end.

End Simulation.

(** ** Starting a simulation *)

Definition isActive (n : Node) : bool :=
  negb (String.eqb (Node.color n) inactiveColor).

Definition isPartner (source n : Node) : bool :=
  String.eqb (Node.color n) (Node.color source)
  && negb (Z.eqb (Node.id n) (Node.id source)).

(** [startRoutingSimulation()], with the two indices it draws.  [None] when
    a drawn index is outside its array, which [Math.floor(Math.random() * n)]
    never is. *)
Definition startRoutingSimulation (s : State) (drawSource drawDestination : nat)
  : option State :=
  let s0 := State.setFinalMessage (Some ""%string) s in
  let activeNodes := filter isActive (State.nodes s) in
  if (length activeNodes <? 2)%nat
  then Some (State.setFinalMessage (Some msgTwoActive) s0)
  else
    match nth_error activeNodes drawSource with
    | None => None
    | Some source =>
        let candidates := filter (isPartner source) activeNodes in
        if (length candidates =? 0)%nat
        then Some (State.setFinalMessage
                     (Some (msgNoDestination (Node.color source))) s0)
        else
          match nth_error candidates drawDestination with
          | None => None
          | Some destination =>
              Some (State.setSimulationStarted false
                      (State.setPacket (Some (Packet.mk source destination))
                         (State.setLastRouteStats None
                            (State.setRouteEdges [] s0))))
          end
    end.

(** ** Adding and coloring nodes *)

(** [colors.indexOf(color)]: the index of the first occurrence, [-1] when
    there is none. *)
Definition indexOf (color : string) (l : list string) : Z :=
  findIndex (fun c => String.eqb c color) l.

(** [colors[(colors.indexOf(color) + 1) % colors.length]].  The index is
    never outside [colors] (see [nextIndex_in_colors]), so the default of
    [nth] is not reached. *)
Definition nextIndex (color : string) : Z :=
  Z.rem (indexOf color colors + 1) (Z.of_nat (length colors)).

Definition nextColor (color : string) : string :=
  nth (Z.to_nat (nextIndex color)) colors ""%string.

Definition recolor (id : Z) (color : string) (n : Node) : Node :=
  if Z.eqb (Node.id n) id
  then Node.mk (Node.id n) (Node.x n) (Node.y n) color
  else n.

(** [handleNodeClick(e, node)]: the color of the clicked node moves one step
    along [colors]. *)
Definition handleNodeClick (s : State) (node : Node) : State :=
  State.setNodes
    (map (recolor (Node.id node) (nextColor (Node.color node))) (State.nodes s))
    s.

(** [handleSvgClick(e)]: a node is added where the canvas was clicked.
    [now] is [Date.now()], [clientX], [clientY] the position of the click
    and [left], [top] the corner of the canvas. *)
Definition handleSvgClick (s : State) (now : Z) (clientX clientY left top : R)
  : State :=
  let x := clientX - left in
  let y := clientY - top in
  let newNode := Node.mk now x y (nth 0 colors ""%string) in
  State.setNodes (State.nodes s ++ [newNode]) s.

(** The node that the canvas shows after a click on [node]: the handler of
    the next click receives it. *)
Definition clicked (node : Node) : Node :=
  Node.mk (Node.id node) (Node.x node) (Node.y node) (nextColor (Node.color node)).

(** [k] clicks in a row on the same node. *)
Fixpoint clickTimes (k : nat) (s : State) (node : Node) : State :=
  match k with
  | O => s
  | S k' => clickTimes k' (handleNodeClick s node) (clicked node)
  end.

(** ** Specification predicates *)

(** No event of the list is a drag. *)
Fixpoint noDrag (events : list Event) : Prop :=
  match events with
  | [] => True
  | Hop _ :: events' => noDrag events'
  | Drag _ _ _ _ :: _ => False
  end.

(** The number of hops among the events. *)
Fixpoint countHops (events : list Event) : nat :=
  match events with
  | [] => O
  | Hop _ :: events' => S (countHops events')
  | Drag _ _ _ _ :: events' => countHops events'
  end.

(** The deviation that [angleClosest] gives a neighbor. *)
Definition deviationOf (current destination candidate : Node) : R :=
  angleDiff (bearing current candidate) (bearing current destination).


(** [n] is the first element of [l] whose [key] is minimal: the elements
    before it have a strictly larger key, those after it a key at least as
    large. *)
Definition firstMin {A : Type} (key : A -> R) (l : list A) (n : A) : Prop :=
  exists l1 l2,
    l = l1 ++ n :: l2
    /\ (forall c, In c l1 -> key n < key c)
    /\ (forall c, In c l2 -> key n <= key c).

(** [n] is the first element of [l] whose [key] is least in the order of
    the arithmetic: the elements before it have a strictly larger key, no
    element after it has a smaller one. *)
Definition firstLeast {A num : Type} {number : Number num} (key : A -> num)
    (l : list A) (n : A) : Prop :=
  exists l1 l2,
    l = l1 ++ n :: l2
    /\ (forall c, In c l1 -> nlt (key n) (key c) = true)
    /\ (forall c, In c l2 -> nle (key n) (key c) = true).

(** The relative angle that [firstLeft] gives a neighbor. *)
Definition relativeAngleOf (current destination candidate : Node) : R :=
  normalizeAngle (bearing current candidate - bearing current destination).

(** The edge between [a] and [b] is in the history, in one direction or the
    other. *)
Definition traversed (routeEdges : list RouteEdge) (a b : Node) : Prop :=
  exists edge,
    In edge routeEdges
    /\ ((RouteEdge.startId edge = Node.id a /\ RouteEdge.endId edge = Node.id b)
        \/ (RouteEdge.startId edge = Node.id b /\ RouteEdge.endId edge = Node.id a)).

(** The segment [e2] starts at the node, and at the point, where [e1] ends. *)
Definition joins (e1 e2 : RouteEdge) : Prop :=
  RouteEdge.endId e1 = RouteEdge.startId e2
  /\ RouteEdge.x2 e1 = RouteEdge.x1 e2
  /\ RouteEdge.y2 e1 = RouteEdge.y1 e2.

(** Each segment of the route starts where the segment before it ends. *)
Fixpoint continuous (edges : list RouteEdge) : Prop :=
  match edges with
  | [] => True
  | e1 :: rest =>
      match rest with
      | [] => True
      | e2 :: _ => joins e1 e2
      end /\ continuous rest
  end.

(** The route, when it has an edge, ends at [current]. *)
Definition endsAt (edges : list RouteEdge) (current : Node) : Prop :=
  forall e, nth_error edges (length edges - 1) = Some e ->
    RouteEdge.endId e = Node.id current
    /\ RouteEdge.x2 e = Node.x current
    /\ RouteEdge.y2 e = Node.y current.

(** The sum of the lengths of the segments. *)
Definition sumLengths (edges : list RouteEdge) : R :=
  fold_right (fun edge acc => edgeLength edge + acc) 0 edges.

(** The distance from the start of [first] to the end of [final]. *)
Definition straightLine (first final : RouteEdge) : R :=
  sqrt ((RouteEdge.x1 first - RouteEdge.x2 final) ^ 2
        + (RouteEdge.y1 first - RouteEdge.y2 final) ^ 2).

(** ** Scenarios *)

(** A triangle: two red nodes and a grey one.  In its triangulation every
    node is a neighbor of the two others. *)
Definition nodeA : Node := Node.mk 1 0 0 "red".
Definition nodeB : Node := Node.mk 2 3 0 "grey".
Definition nodeC : Node := Node.mk 3 3 4 "red".
Definition triangleNodes : list Node := [nodeA; nodeB; nodeC].

Definition triangleNeighbors (points : list (R * R)) (i : Z) : list nat :=
  match i with
  | 0%Z => [1; 2]%nat
  | 1%Z => [2; 0]%nat
  | 2%Z => [0; 1]%nat
  | _ => []
  end.

Definition idleTriangle (strategy : Strategy) : State :=
  State.mk triangleNodes None [] None None strategy false.

(** The triangle after a start request that drew [nodeA] as source. *)
Definition startedTriangle (strategy : Strategy) : State :=
  State.mk triangleNodes (Some (Packet.mk nodeA nodeC)) [] None (Some ""%string)
           strategy false.

Definition viewTriangle (strategy : Strategy) : Render.t :=
  Render.mk triangleNodes (Packet.mk nodeA nodeC) [] strategy.

Definition edgeAB : RouteEdge := edgeBetween nodeA nodeB "red".
Definition edgeBC : RouteEdge := edgeBetween nodeB nodeC "red".
Definition edgeAC : RouteEdge := edgeBetween nodeA nodeC "red".

(** The triangle during a run from [nodeA] to [nodeC], after the hop to
    [nodeB]. *)
Definition inTransitTriangle : State :=
  State.mk triangleNodes (Some (Packet.mk nodeB nodeC)) [edgeAB] None
           (Some ""%string) smallestJump true.

(** Two nodes only, both red. *)
Definition twoNodes : State :=
  State.mk [nodeA; nodeC] (Some (Packet.mk nodeA nodeC)) [] None
           (Some ""%string) closestToDestination false.

(** A single active node among three. *)
Definition loneRed : State :=
  State.mk [nodeA; nodeB; Node.mk 4 5 5 "grey"] None [] None None
           closestToDestination false.

(** A cross: a node at the origin and four around it. *)
Definition nodeO : Node := Node.mk 10 0 0 "grey".
Definition nodeE : Node := Node.mk 11 1 0 "blue".
Definition nodeN : Node := Node.mk 12 0 1 "grey".
Definition nodeW : Node := Node.mk 13 (-1) 0 "grey".
Definition nodeS : Node := Node.mk 14 0 (-1) "blue".
Definition crossNodes : list Node := [nodeO; nodeE; nodeN; nodeW; nodeS].

Definition crossNeighbors (points : list (R * R)) (i : Z) : list nat :=
  match i with
  | 0%Z => [1; 2; 3; 4]%nat
  | 1%Z => [2; 0; 4]%nat
  | 2%Z => [3; 0; 1]%nat
  | 3%Z => [4; 0; 2]%nat
  | 4%Z => [1; 0; 3]%nat
  | _ => []
  end.

(** A straight route: [nodeP], [nodeQ] and [nodeT] are on a line, [nodeX] is
    off it. *)
Definition nodeP : Node := Node.mk 21 524 348 "red".
Definition nodeQ : Node := Node.mk 22 446 312 "grey".
Definition nodeT : Node := Node.mk 23 316 252 "red".
Definition nodeX : Node := Node.mk 24 300 100 "grey".
Definition lineNodes : list Node := [nodeP; nodeQ; nodeT; nodeX].

Definition lineNeighbors (points : list (R * R)) (i : Z) : list nat :=
  match i with
  | 0%Z => [1; 3]%nat
  | 1%Z => [0; 2; 3]%nat
  | 2%Z => [1; 3]%nat
  | 3%Z => [0; 1; 2]%nat
  | _ => []
  end.

Definition startedLine : State :=
  State.mk lineNodes (Some (Packet.mk nodeP nodeT)) [] None (Some ""%string)
           closestToDestination true.

Definition viewLine : Render.t :=
  Render.mk lineNodes (Packet.mk nodeP nodeT) [] closestToDestination.

(** The two edges of the straight route, in either arithmetic. *)
Definition edgePQ {num : Type} `{Arith num} : RouteEdge.t num :=
  RouteEdge.mk (ofZ 524) (ofZ 348) (ofZ 446) (ofZ 312) 21 22 "red".
Definition edgeQT {num : Type} `{Arith num} : RouteEdge.t num :=
  RouteEdge.mk (ofZ 446) (ofZ 312) (ofZ 316) (ofZ 252) 22 23 "red".

(** A triangle with room for a drag: the sides are 150, 200 and 250
    long. *)
Definition nodeK : Node := Node.mk 51 100 100 "red".
Definition nodeL : Node := Node.mk 52 250 100 "grey".
Definition nodeM : Node := Node.mk 53 250 300 "red".
Definition wideNodes : list Node := [nodeK; nodeL; nodeM].

Definition wideNeighbors (points : list (R * R)) (i : Z) : list nat :=
  match i with
  | 0%Z => [1; 2]%nat
  | 1%Z => [0; 2]%nat
  | 2%Z => [0; 1]%nat
  | _ => []
  end.

(** The wide triangle when a run from [nodeK] to [nodeM] with smallestJump
    has started, and the render of that moment. *)
Definition startedWide : State :=
  State.mk wideNodes (Some (Packet.mk nodeK nodeM)) [] None (Some ""%string)
           smallestJump true.

Definition viewWide : Render.t :=
  Render.mk wideNodes (Packet.mk nodeK nodeM) [] smallestJump.

Definition edgeKL : RouteEdge := edgeBetween nodeK nodeL "red".

(** Where rounding decides: four nodes in binary64.  [nodeV] is nearer to
    [nodeU] than [nodeY] is, by less than the rounding of the two
    distances.  The triangles are [nodeU nodeV nodeY] and
    [nodeV nodeY nodeZ]. *)
Definition nodeU : Node.t float :=
  Node.mk 31 0x1.18bca0d028000p+7%float   (* 140.36841440666467 *)
             0x1.1dce073984000p+8%float   (* 285.80479773972183 *)
             "red".
Definition nodeV : Node.t float :=
  Node.mk 32 0x1.18f39cf06756cp+4%float   (* 17.55947584064181 *)
             0x1.4aa45099360c1p+6%float   (* 82.66046370880487 *)
             "red".
Definition nodeY : Node.t float :=
  Node.mk 33 0x1.b4e1374be6320p+4%float   (* 27.304984375458957 *)
             0x1.34513e8de3a83p+6%float   (* 77.07934018804558 *)
             "grey".
Definition nodeZ : Node.t float := Node.mk 34 10%float 55%float "red".
Definition roundingNodes : list (Node.t float) := [nodeU; nodeV; nodeY; nodeZ].

Definition roundingNeighbors (points : list (float * float)) (i : Z)
  : list nat :=
  match i with
  | 0%Z => [1; 2]%nat
  | 1%Z => [0; 2; 3]%nat
  | 2%Z => [0; 1; 3]%nat
  | 3%Z => [1; 2]%nat
  | _ => []
  end.

(** A half turn: [nodeG] is the middle of [nodeH] and [nodeI], [nodeJ] is
    off their line.  The triangles are [nodeH nodeG nodeJ] and
    [nodeG nodeI nodeJ]. *)
Definition nodeG {num : Type} {arith : Arith num} : Node.t num :=
  Node.mk 41 (ofZ 100) (ofZ 100) "blue".
Definition nodeH {num : Type} {arith : Arith num} : Node.t num :=
  Node.mk 42 (ofZ 20) (ofZ 99) "blue".
Definition nodeI {num : Type} {arith : Arith num} : Node.t num :=
  Node.mk 43 (ofZ 180) (ofZ 101) "grey".
Definition nodeJ {num : Type} {arith : Arith num} : Node.t num :=
  Node.mk 44 (ofZ 100) (ofZ 200) "grey".
Definition turnNodes {num : Type} {arith : Arith num} : list (Node.t num) :=
  [nodeG; nodeH; nodeI; nodeJ].

Definition turnNeighbors {num : Type} (points : list (num * num)) (i : Z)
  : list nat :=
  match i with
  | 0%Z => [1; 2; 3]%nat
  | 1%Z => [0; 3]%nat
  | 2%Z => [0; 3]%nat
  | 3%Z => [0; 1; 2]%nat
  | _ => []
  end.

(** [Math.atan2] at the three directions from [nodeG]: the doubles nearest
    to the exact angles, which V8 and glibc return.  The table has no other
    entry. *)
Definition turnAtan2 (y x : float) : float :=
  if (PrimFloat.eqb y 1%float && PrimFloat.eqb x 80%float)%bool
  then 0x1.999423a135984p-7%float          (* 0.012499349019361679 *)
  else if (PrimFloat.eqb y (-1)%float && PrimFloat.eqb x (-80)%float)%bool
  then (-0x1.90862120a19bfp+1)%float       (* -3.1290933045704317 *)
  else if (PrimFloat.eqb y 100%float && PrimFloat.eqb x 0%float)%bool
  then 0x1.921fb54442d18p+0%float          (* 1.5707963267948966 *)
  else PrimFloat.nan.

(** ** Comparisons *)

Lemma Rltb_true (a b : R) : Rltb a b = true <-> a < b.
Proof. unfold Rltb; destruct (Rlt_dec a b); split; intros; try easy. Qed.

Lemma Rltb_false (a b : R) : Rltb a b = false <-> b <= a.
Proof.
  unfold Rltb; destruct (Rlt_dec a b); split; intros; try easy; lra.
Qed.

Lemma Rleb_true (a b : R) : Rleb a b = true <-> a <= b.
Proof. unfold Rleb; destruct (Rle_dec a b); split; intros; try easy. Qed.

Lemma Rleb_false (a b : R) : Rleb a b = false <-> b < a.
Proof.
  unfold Rleb; destruct (Rle_dec a b); split; intros; try easy; lra.
Qed.

Lemma Rgtb_true (a b : R) : Rgtb a b = true <-> b < a.
Proof. unfold Rgtb; destruct (Rgt_dec a b); split; intros; try easy. Qed.

Lemma Rgtb_false (a b : R) : Rgtb a b = false <-> a <= b.
Proof.
  unfold Rgtb; destruct (Rgt_dec a b); split; intros; try easy; lra.
Qed.

(** ** The reductions that keep a smallest element *)

Section FirstMin.

Variables (A : Type) (key : A -> R) (f : A -> A -> A).
Hypothesis f_keeps :
  forall best c, f best c = if Rltb (key c) (key best) then c else best.

Lemma firstMin_In (l : list A) (n : A) : firstMin key l n -> In n l.
Proof.
  intros (l1 & l2 & -> & _). apply in_or_app; right; left; reflexivity.
Qed.

Lemma firstMin_le (l : list A) (n c : A) :
  firstMin key l n -> In c l -> key n <= key c.
Proof.
  intros (l1 & l2 & -> & H1 & H2) Hc.
  apply in_app_or in Hc. destruct Hc as [Hc | [<- | Hc]].
  - apply Rlt_le, H1, Hc.
  - apply Rle_refl.
  - apply H2, Hc.
Qed.

Lemma firstMin_snoc (l : list A) (n c : A) :
  firstMin key l n -> firstMin key (l ++ [c]) (f n c).
Proof.
  intros Hmin. rewrite f_keeps.
  destruct (Rltb (key c) (key n)) eqn:E.
  - apply Rltb_true in E.
    exists l, []. split; [reflexivity | split].
    + intros d Hd. pose proof (firstMin_le _ _ _ Hmin Hd). lra.
    + intros d [].
  - apply Rltb_false in E.
    destruct Hmin as (l1 & l2 & -> & H1 & H2).
    exists l1, (l2 ++ [c]). split; [| split].
    + rewrite <- app_assoc. reflexivity.
    + exact H1.
    + intros d Hd. apply in_app_or in Hd. destruct Hd as [Hd | [<- | []]].
      * apply H2, Hd.
      * exact E.
Qed.

Lemma fold_firstMin (l : list A) (a : A) :
  firstMin key (a :: l) (fold_left f l a).
Proof.
  induction l as [| c l IH] using rev_ind.
  - exists [], []. simpl. repeat split; intros ? [].
  - rewrite fold_left_app. simpl.
    change (a :: l ++ [c]) with ((a :: l) ++ [c]).
    apply firstMin_snoc, IH.
Qed.

Lemma reduce1_firstMin (l : list A) :
  l <> [] -> exists n, reduce1 f l = Some n /\ firstMin key l n.
Proof.
  destruct l as [| a l]; [congruence |].
  intros _. exists (fold_left f l a). split; [reflexivity | apply fold_firstMin].
Qed.

End FirstMin.

Lemma keepSmaller_Some (key : Node -> R) (l : list Node) (a : Node) :
  fold_left (keepSmaller key) l (Some a)
  = Some (fold_left (fun best c => if Rltb (key c) (key best) then c else best) l a).
Proof.
  revert a. induction l as [| c l IH]; intros a; simpl; [reflexivity |].
  destruct (Rltb (key c) (key a)); apply IH.
Qed.

Lemma keepSmaller_firstMin (key : Node -> R) (l : list Node) :
  l <> [] ->
  exists n, fold_left (keepSmaller key) l None = Some n /\ firstMin key l n.
Proof.
  destruct l as [| a l]; [congruence |]. intros _.
  simpl. rewrite keepSmaller_Some.
  eexists; split; [reflexivity |].
  apply fold_firstMin. reflexivity.
Qed.

(** ** Normalizing an angle *)

Lemma raiseAngle_exit (fuel : nat) (a : R) :
  - PI - a < 2 * PI * INR fuel -> - PI < raiseAngle fuel a.
Proof.
  revert a. induction fuel as [| fuel IH]; intros a H.
  - simpl in *. lra.
  - rewrite S_INR in H. simpl.
    destruct (Rleb a (- PI)) eqn:E.
    + apply IH. lra.
    + apply Rleb_false in E. exact E.
Qed.

Lemma raiseAngle_stable (fuel : nat) (a : R) :
  - PI < a -> raiseAngle fuel a = a.
Proof.
  intros H. destruct fuel; simpl; [reflexivity |].
  apply Rleb_false in H. rewrite H. reflexivity.
Qed.

Lemma raiseAngle_le (fuel : nat) (a : R) :
  a <= PI -> raiseAngle fuel a <= PI.
Proof.
  revert a. induction fuel as [| fuel IH]; intros a H; simpl; [exact H |].
  destruct (Rleb a (- PI)) eqn:E; [| exact H].
  apply Rleb_true in E. apply IH. pose proof PI_RGT_0. lra.
Qed.

Lemma lowerAngle_exit (fuel : nat) (a : R) :
  a - PI < 2 * PI * INR fuel -> lowerAngle fuel a <= PI.
Proof.
  revert a. induction fuel as [| fuel IH]; intros a H.
  - simpl in *. lra.
  - rewrite S_INR in H. simpl.
    destruct (Rgtb a PI) eqn:E.
    + apply IH. lra.
    + apply Rgtb_false in E. exact E.
Qed.

Lemma lowerAngle_stable (fuel : nat) (a : R) :
  a <= PI -> lowerAngle fuel a = a.
Proof.
  intros H. destruct fuel; simpl; [reflexivity |].
  apply Rgtb_false in H. rewrite H. reflexivity.
Qed.

Lemma lowerAngle_gt (fuel : nat) (a : R) :
  - PI < a -> - PI < lowerAngle fuel a.
Proof.
  revert a. induction fuel as [| fuel IH]; intros a H; simpl; [exact H |].
  destruct (Rgtb a PI) eqn:E; [| exact H].
  apply Rgtb_true in E. apply IH. lra.
Qed.

(** [turns a] iterations are more than [|a| / (2 PI)]. *)
Lemma turns_enough (a : R) : Rabs a < 2 * PI * INR (turns a).
Proof.
  pose proof PI_RGT_0 as Hpi.
  unfold turns. set (r := Rabs a / (2 * PI)).
  assert (Hr : 0 <= r).
  { unfold r. apply Rmult_le_pos; [apply Rabs_pos |].
    apply Rlt_le, Rinv_0_lt_compat. lra. }
  destruct (archimed r) as [Hup _].
  assert (Hz : (0 <= up r)%Z).
  { apply le_IZR. lra. }
  rewrite INR_IZR_INZ, Z2Nat.id by exact Hz.
  assert (Ha : Rabs a = r * (2 * PI)).
  { unfold r. field. lra. }
  rewrite Ha. nra.
Qed.

Lemma raiseAngle_turns_bounds (a : R) :
  - PI < raiseAngle (turns a) a
  /\ raiseAngle (turns a) a - PI < 2 * PI * INR (turns a).
Proof.
  pose proof PI_RGT_0 as Hpi.
  pose proof (turns_enough a) as Ht.
  pose proof (Rle_abs a) as Ha1.
  pose proof (Rle_abs (- a)) as Ha2. rewrite Rabs_Ropp in Ha2.
  split.
  - apply raiseAngle_exit. lra.
  - destruct (Rle_dec a (- PI)) as [Hle | Hgt].
    + pose proof (raiseAngle_le (turns a) a). pose proof (Rabs_pos a). lra.
    + rewrite raiseAngle_stable by lra. lra.
Qed.

(** The two loops leave an angle in [(-PI, PI]] that differs from the angle
    they were given by a whole number of turns. *)
Lemma normalizeAngle_range (a : R) :
  - PI < normalizeAngle a <= PI.
Proof.
  unfold normalizeAngle.
  destruct (raiseAngle_turns_bounds a) as [H1 H2]. split.
  - apply lowerAngle_gt, H1.
  - apply lowerAngle_exit, H2.
Qed.

(** An angle already in [(-PI, PI]] is unchanged. *)
Lemma normalizeAngle_id (a : R) : - PI < a <= PI -> normalizeAngle a = a.
Proof.
  intros [H1 H2]. unfold normalizeAngle.
  rewrite raiseAngle_stable by exact H1. apply lowerAngle_stable, H2.
Qed.

(** ** [getNextNode] *)

(** On indices of the array, [lookupAll] is [idx.map(i => arr[i])]. *)
Lemma lookupAll_map {A : Type} (arr : list A) (idx : list nat) (d : A) :
  (forall i, In i idx -> (i < length arr)%nat) ->
  lookupAll arr idx = map (fun i => nth i arr d) idx.
Proof.
  unfold lookupAll. induction idx as [| i idx IH]; intros H; [reflexivity |].
  simpl. rewrite IH by (intros j Hj; apply H; right; exact Hj).
  assert (Hi : (i < length arr)%nat) by (apply H; left; reflexivity).
  rewrite (nth_error_nth' arr d Hi). reflexivity.
Qed.

Section NextHop.

(** The triangulation: any function from points and an index to indices. *)
Variable D : list (R * R) -> Z -> list nat.

Lemma candidatesOf_indices (nodes : list Node) (current : Node) :
  candidatesOf D nodes current <> [] ->
  (length (neighborIndices D nodes current) =? 0)%nat = false.
Proof.
  unfold candidatesOf. intros H.
  destruct (neighborIndices D nodes current); [now contradiction H |].
  reflexivity.
Qed.

(** With three nodes or more and a neighbor, [getNextNode] is the [switch]
    on the candidates. *)
Lemma getNextNode_select (nodes : list Node) (strategy : Strategy)
    (routeEdges : list RouteEdge) (draw : nat) (current destination : Node) :
  (3 <= length nodes)%nat ->
  candidatesOf D nodes current <> [] ->
  getNextNode D nodes strategy routeEdges draw current destination
  = selectNextHop strategy routeEdges draw current destination
                  (candidatesOf D nodes current).
Proof.
  intros Hn Hc. unfold getNextNode.
  apply Nat.ltb_ge in Hn. rewrite Hn.
  rewrite (candidatesOf_indices _ _ Hc). reflexivity.
Qed.

Lemma edgeUsed_traversed (routeEdges : list RouteEdge) (current candidate : Node) :
  edgeUsed routeEdges current candidate = true
  <-> traversed routeEdges current candidate.
Proof.
  unfold edgeUsed, traversed. rewrite existsb_exists.
  split; intros (edge & Hin & H); exists edge; (split; [exact Hin |]).
  - apply orb_prop in H. destruct H as [H | H];
      apply andb_prop in H; destruct H as [H1 H2];
      apply Z.eqb_eq in H1, H2; tauto.
  - apply orb_true_iff. destruct H as [[H1 H2] | [H1 H2]]; [left | right];
      apply andb_true_iff; split; apply Z.eqb_eq; assumption.
Qed.

Lemma untraversed_filter (routeEdges : list RouteEdge) (current c : Node)
    (candidates : list Node) :
  In c (filter (fun candidate => negb (edgeUsed routeEdges current candidate))
               candidates)
  <-> In c candidates /\ ~ traversed routeEdges current c.
Proof.
  rewrite filter_In, negb_true_iff, <- edgeUsed_traversed.
  destruct (edgeUsed routeEdges current c); intuition congruence.
Qed.

(** C4. With the strategy random, whatever the nodes, the neighbor set, the
    history and the draw: a neighbor that is returned is not joined to the
    current node by an edge of the history, in either direction; if every
    neighbor is joined to the current node by an edge of the history, the
    result is none; and, with three nodes or more, every neighbor whose edge
    is not in the history is returned for some draw. *)
Theorem random_never_reuses_edge
    (nodes : list Node) (routeEdges : list RouteEdge) (draw : nat)
    (current destination : Node) :
  (forall n,
      getNextNode D nodes random routeEdges draw current destination = Some n ->
      In n (candidatesOf D nodes current)
      /\ ~ traversed routeEdges current n)
  /\ ((forall c, In c (candidatesOf D nodes current) ->
                 traversed routeEdges current c) ->
      getNextNode D nodes random routeEdges draw current destination = None)
  /\ ((3 <= length nodes)%nat ->
      forall c, In c (candidatesOf D nodes current) ->
                ~ traversed routeEdges current c ->
                exists draw',
                  getNextNode D nodes random routeEdges draw' current destination
                  = Some c).
Proof.
  set (valid := filter (fun candidate => negb (edgeUsed routeEdges current candidate))
                       (candidatesOf D nodes current)).
  assert (Hsel : forall d,
             selectNextHop random routeEdges d current destination
                           (candidatesOf D nodes current)
             = nth_error valid d).
  { intros d. simpl. fold valid.
    destruct valid as [| v valid']; [| reflexivity].
    destruct d; reflexivity. }
  split; [| split].
  - intros n. unfold getNextNode.
    destruct (length nodes <? 3)%nat; [discriminate |].
    destruct (length (neighborIndices D nodes current) =? 0)%nat; [discriminate |].
    rewrite Hsel. intros H. apply nth_error_In in H.
    apply untraversed_filter in H. exact H.
  - intros Hall. unfold getNextNode.
    destruct (length nodes <? 3)%nat; [reflexivity |].
    destruct (length (neighborIndices D nodes current) =? 0)%nat; [reflexivity |].
    rewrite Hsel. destruct (nth_error valid draw) as [n |] eqn:E; [| reflexivity].
    apply nth_error_In, untraversed_filter in E.
    destruct E as [Hin Hnot]. contradiction (Hnot (Hall n Hin)).
  - intros Hn c Hin Hnot.
    assert (Hv : In c valid) by (apply untraversed_filter; tauto).
    destruct (In_nth_error _ _ Hv) as (d & Hd).
    exists d. rewrite getNextNode_select; [| exact Hn |].
    + rewrite Hsel. exact Hd.
    + intros E. rewrite E in Hin. exact Hin.
Qed.

Lemma Rgtb_opp (a b : R) : Rgtb a b = Rltb (- a) (- b).
Proof.
  destruct (Rgtb a b) eqn:E; symmetry.
  - apply Rgtb_true in E. apply Rltb_true. lra.
  - apply Rgtb_false in E. apply Rltb_false. lra.
Qed.

End NextHop.

(** ** Moving a node *)

Lemma clampX_range (x : R) : baseRadius <= clampX x <= svgWidth - baseRadius.
Proof.
  unfold clampX, baseRadius, svgWidth. split.
  - apply Rmax_l.
  - apply Rmax_lub; [lra | apply Rmin_r].
Qed.

Lemma clampY_range (y : R) : baseRadius <= clampY y <= svgHeight - baseRadius.
Proof.
  unfold clampY, baseRadius, svgHeight. split.
  - apply Rmax_l.
  - apply Rmax_lub; [lra | apply Rmin_r].
Qed.

Lemma clampX_inside (x : R) :
  baseRadius <= x <= svgWidth - baseRadius -> clampX x = x.
Proof.
  intros [H1 H2]. unfold clampX.
  rewrite Rmin_left by exact H2. apply Rmax_right, H1.
Qed.

Lemma clampY_inside (y : R) :
  baseRadius <= y <= svgHeight - baseRadius -> clampY y = y.
Proof.
  intros [H1 H2]. unfold clampY.
  rewrite Rmin_left by exact H2. apply Rmax_right, H1.
Qed.

Lemma updateNodePosition_nodes (routeEdges : list RouteEdge) (s : State)
    (id : Z) (x y : R) :
  State.nodes (updateNodePosition routeEdges s id x y)
  = map (moveNode id (clampX x) (clampY y)) (State.nodes s).
Proof.
  unfold updateNodePosition. destruct (onRoute id routeEdges); reflexivity.
Qed.

(** C10. After [updateNodePosition(id, x, y)], whatever route the function
    has captured, the array of nodes has the same length, and the node at
    each index keeps its id and its color; if its id is [id], its position
    is the requested one clamped by the operation itself: x in
    [baseRadius, svgWidth - baseRadius] and y in
    [baseRadius, svgHeight - baseRadius], and the requested position itself
    when that lies inside; any other node is unchanged. *)
Theorem updateNodePosition_clamps_and_keeps_others
    (routeEdges : list RouteEdge) (s : State) (id : Z) (x y : R) :
  length (State.nodes (updateNodePosition routeEdges s id x y))
  = length (State.nodes s)
  /\ forall i n,
      nth_error (State.nodes s) i = Some n ->
      exists n',
        nth_error (State.nodes (updateNodePosition routeEdges s id x y)) i
        = Some n'
        /\ Node.id n' = Node.id n
        /\ Node.color n' = Node.color n
        /\ (Node.id n = id ->
            baseRadius <= Node.x n' <= svgWidth - baseRadius
            /\ baseRadius <= Node.y n' <= svgHeight - baseRadius
            /\ (baseRadius <= x <= svgWidth - baseRadius -> Node.x n' = x)
            /\ (baseRadius <= y <= svgHeight - baseRadius -> Node.y n' = y))
        /\ (Node.id n <> id -> n' = n).
Proof.
  rewrite updateNodePosition_nodes. split; [apply length_map |].
  intros i n Hi.
  exists (moveNode id (clampX x) (clampY y) n).
  split; [rewrite nth_error_map, Hi; reflexivity |].
  unfold moveNode. destruct (Z.eqb_spec (Node.id n) id) as [E | E]; simpl.
  - repeat split; try reflexivity; try contradiction;
      try apply clampX_range; try apply clampY_range.
    + apply clampX_inside.
    + apply clampY_inside.
  - repeat split; try reflexivity; contradiction.
Qed.

Lemma onRoute_spec (id : Z) (routeEdges : list RouteEdge) :
  onRoute id routeEdges = true
  <-> exists edge, In edge routeEdges
                   /\ (RouteEdge.startId edge = id \/ RouteEdge.endId edge = id).
Proof.
  unfold onRoute. rewrite existsb_exists.
  split; intros (edge & Hin & H); exists edge; (split; [exact Hin |]).
  - apply orb_prop in H. rewrite !Z.eqb_eq in H. exact H.
  - apply orb_true_iff. rewrite !Z.eqb_eq. exact H.
Qed.

Lemma updateNodePosition_route (routeEdges : list RouteEdge) (s : State)
    (id : Z) (x y : R) :
  State.routeEdges (updateNodePosition routeEdges s id x y)
  = if onRoute id routeEdges then [] else State.routeEdges s.
Proof.
  unfold updateNodePosition. destruct (onRoute id routeEdges); reflexivity.
Qed.

Lemma updateNodePosition_stats (routeEdges : list RouteEdge) (s : State)
    (id : Z) (x y : R) :
  State.lastRouteStats (updateNodePosition routeEdges s id x y)
  = if onRoute id routeEdges then None else State.lastRouteStats s.
Proof.
  unfold updateNodePosition. destruct (onRoute id routeEdges); reflexivity.
Qed.

(** ** How a run unfolds *)

Section Unfolding.

Variable D : list (R * R) -> Z -> list nat.

Lemma simulateRoutingStep_nil (view : Render.t) (live : State)
    (current destination : Node) :
  simulateRoutingStep D view [] live current destination
  = (live, InTransit current).
Proof. reflexivity. Qed.

(** A hop of a chain whose circle is in the document. *)
Lemma simulateRoutingStep_hop (view : Render.t) (draw : nat)
    (events : list Event) (live : State) (current destination : Node) :
  simulateRoutingStep D view (Hop draw :: events) live current destination
  = match getNextNode D (Render.nodes view) (Render.strategy view)
                      (Render.routeEdges view) draw current destination with
    | None => (lose live, Lost)
    | Some next =>
        if Z.eqb (Node.id next) (Node.id destination)
        then (arrive (appendEdge view live current next destination), Arrived)
        else
          simulateRoutingStep D view events
            (State.setPacket (Some (Packet.mk next destination))
               (appendEdge view live current next destination))
            next destination
    end.
Proof. reflexivity. Qed.

End Unfolding.

(** ** Fewer than three nodes *)

Section Undersized.

Variable D : list (R * R) -> Z -> list nat.

(** C8. With fewer than three nodes, [getNextNode] returns none for every
    current node, destination, strategy, history and draw; the first hop of
    [simulateRoutingStep] in a render with these nodes ends the run as Lost,
    appends no edge, computes no statistics and discards the packet; and so
    does the run that the effect starts from a state with these nodes. *)
Theorem undersized_graph_is_lost (s : State) :
  (length (State.nodes s) < 3)%nat ->
  (forall strategy routeEdges draw current destination,
      getNextNode D (State.nodes s) strategy routeEdges draw current destination
      = None)
  /\ (forall view live draw events current destination,
        Render.nodes view = State.nodes s ->
        simulateRoutingStep D view (Hop draw :: events) live current destination
        = (lose live, Lost)
        /\ State.packet (lose live) = None
        /\ State.finalMessage (lose live) = Some msgLost
        /\ State.routeEdges (lose live) = State.routeEdges live
        /\ State.lastRouteStats (lose live) = State.lastRouteStats live)
  /\ (forall p draw events,
        State.packet s = Some p ->
        State.simulationStarted s = false ->
        exists s',
          packetEffect D (Hop draw :: events) s = (s', Some Lost)
          /\ State.packet s' = None
          /\ State.simulationStarted s' = false
          /\ State.finalMessage s' = Some msgLost
          /\ State.routeEdges s' = State.routeEdges s
          /\ State.lastRouteStats s' = State.lastRouteStats s
          /\ State.nodes s' = State.nodes s).
Proof.
  intros Hlen.
  assert (Hnone : forall strategy routeEdges draw current destination,
             getNextNode D (State.nodes s) strategy routeEdges draw
                         current destination = None).
  { intros. unfold getNextNode.
    apply Nat.ltb_lt in Hlen. rewrite Hlen. reflexivity. }
  split; [exact Hnone | split].
  - intros view live draw events current destination Hview.
    rewrite simulateRoutingStep_hop, Hview, Hnone. repeat split.
  - intros p draw events Hp Hstarted.
    unfold packetEffect. rewrite Hp, Hstarted.
    cbn [negb]. rewrite simulateRoutingStep_hop.
    cbn [renderOf Render.nodes]. rewrite Hnone. eexists. repeat split.
Qed.

End Undersized.

(** ** Starting a simulation *)

Lemma two_distinct_members {A : Type} (l : list A) (a b : A) :
  In a l -> In b l -> a <> b -> (2 <= length l)%nat.
Proof.
  destruct l as [| u [| v l]]; simpl; intros Ha Hb Hab.
  - contradiction.
  - destruct Ha as [-> | []], Hb as [-> | []]. contradiction.
  - lia.
Qed.

Lemma msgNoDestination_nonempty (c : string) : msgNoDestination c <> ""%string.
Proof. discriminate. Qed.

Lemma isPartner_spec (source n : Node) :
  isPartner source n = true
  <-> Node.color n = Node.color source /\ Node.id n <> Node.id source.
Proof.
  unfold isPartner. rewrite andb_true_iff, negb_true_iff, String.eqb_eq, Z.eqb_neq.
  tauto.
Qed.

(** C6. A start request fails at once when fewer than two nodes are active,
    or when the drawn source has no active node of its color with another
    id: the message is set to the reason (not the empty string), and nothing
    else of the state changes: no packet is created, the route, the
    statistics and the started flag stay as they were. *)
Theorem start_fails_without_two_partners
    (s : State) (drawSource drawDestination : nat) :
  ((length (filter isActive (State.nodes s)) < 2)%nat
   \/ exists source,
       nth_error (filter isActive (State.nodes s)) drawSource = Some source
       /\ forall n, In n (filter isActive (State.nodes s)) ->
                    Node.color n = Node.color source ->
                    Node.id n = Node.id source) ->
  exists reason s',
    startRoutingSimulation s drawSource drawDestination = Some s'
    /\ s' = State.setFinalMessage (Some reason) s
    /\ reason <> ""%string
    /\ ((length (filter isActive (State.nodes s)) < 2)%nat ->
        reason = msgTwoActive)
    /\ State.packet s' = State.packet s
    /\ State.routeEdges s' = State.routeEdges s
    /\ State.lastRouteStats s' = State.lastRouteStats s
    /\ State.simulationStarted s' = State.simulationStarted s
    /\ State.nodes s' = State.nodes s.
Proof.
  intros H. unfold startRoutingSimulation.
  destruct (Nat.ltb_spec (length (filter isActive (State.nodes s))) 2) as [Hlt | Hge].
  - exists msgTwoActive. eexists. repeat split. discriminate.
  - destruct H as [H | (source & Hsrc & Halone)]; [lia |].
    rewrite Hsrc.
    assert (Hnil : filter (isPartner source) (filter isActive (State.nodes s)) = []).
    { destruct (filter (isPartner source) (filter isActive (State.nodes s)))
        as [| c l] eqn:E; [reflexivity |].
      assert (Hc : In c (c :: l)) by (left; reflexivity).
      rewrite <- E in Hc. apply filter_In in Hc. destruct Hc as [Hin Hp].
      apply isPartner_spec in Hp. destruct Hp as [Hcol Hid].
      contradiction (Hid (Halone c Hin Hcol)). }
    rewrite Hnil. simpl.
    exists (msgNoDestination (Node.color source)). eexists.
    repeat split; [apply msgNoDestination_nonempty | lia].
Qed.

(** C7, as the code has it. A start request made while a run is active (a
    packet is set) is not rejected: when the drawn source and the drawn
    destination exist, the route and the statistics are cleared, the packet
    is replaced by the new one, the started flag is reset and the message is
    empty, as for a request made in the idle state. *)
Theorem start_while_active_restarts
    (s : State) (drawSource drawDestination : nat)
    (p : Packet) (source destination : Node) :
  State.packet s = Some p ->
  nth_error (filter isActive (State.nodes s)) drawSource = Some source ->
  nth_error (filter (isPartner source) (filter isActive (State.nodes s)))
            drawDestination = Some destination ->
  startRoutingSimulation s drawSource drawDestination
  = Some (State.mk (State.nodes s) (Some (Packet.mk source destination)) []
                   None (Some ""%string) (State.strategy s) false)
  /\ startRoutingSimulation s drawSource drawDestination
     = startRoutingSimulation
         (State.setSimulationStarted false
            (State.setPacket None (State.setRouteEdges [] s)))
         drawSource drawDestination.
Proof.
  intros _ Hsrc Hdst.
  assert (Hstart : forall s0 : State,
             State.nodes s0 = State.nodes s ->
             startRoutingSimulation s0 drawSource drawDestination
             = Some (State.mk (State.nodes s) (Some (Packet.mk source destination))
                              [] None (Some ""%string) (State.strategy s0) false)).
  { intros s0 Hnodes. unfold startRoutingSimulation. rewrite Hnodes.
    assert (Hge : (2 <= length (filter isActive (State.nodes s)))%nat).
    { apply (two_distinct_members _ source destination).
      - eapply nth_error_In, Hsrc.
      - apply nth_error_In in Hdst. apply filter_In in Hdst. tauto.
      - apply nth_error_In in Hdst. apply filter_In in Hdst.
        destruct Hdst as [_ Hp]. apply isPartner_spec in Hp.
        intros <-. tauto. }
    apply Nat.ltb_ge in Hge. rewrite Hge, Hsrc.
    destruct (filter (isPartner source) (filter isActive (State.nodes s)))
      as [| c l] eqn:E; [destruct drawDestination; discriminate |].
    simpl length. simpl Nat.eqb. cbv iota. rewrite Hdst.
    unfold State.setSimulationStarted, State.setPacket, State.setLastRouteStats,
      State.setRouteEdges, State.setFinalMessage. simpl.
    rewrite Hnodes. reflexivity. }
  split.
  - apply Hstart. reflexivity.
  - rewrite !Hstart; reflexivity.
Qed.

(** ** The route of a run *)

Lemma continuous_snoc (edges : list RouteEdge) (e : RouteEdge) :
  continuous edges ->
  (forall e0, nth_error edges (length edges - 1) = Some e0 -> joins e0 e) ->
  continuous (edges ++ [e]).
Proof.
  induction edges as [| e1 rest IH]; intros Hc Hlast.
  - simpl. tauto.
  - destruct rest as [| e2 r].
    + simpl. split; [apply Hlast; reflexivity | split; exact I].
    + destruct Hc as [Hj Hc]. split; [exact Hj |].
      apply IH; [exact Hc |].
      intros e0 He0. apply Hlast.
      simpl in *. rewrite Nat.sub_0_r in *. exact He0.
Qed.

Lemma nth_error_snoc_last {A : Type} (l : list A) (a : A) :
  nth_error (l ++ [a]) (length (l ++ [a]) - 1) = Some a.
Proof.
  rewrite length_app. simpl. rewrite Nat.add_sub.
  rewrite nth_error_app2 by lia. rewrite Nat.sub_diag. reflexivity.
Qed.

Lemma endsAt_nil (current : Node) : endsAt [] current.
Proof. intros e H. discriminate. Qed.

Lemma endsAt_snoc (edges : list RouteEdge) (current next : Node) (c : string) :
  endsAt (edges ++ [edgeBetween current next c]) next.
Proof.
  intros e H. rewrite nth_error_snoc_last in H. injection H as <-.
  repeat split.
Qed.

Lemma continuous_appendEdge (edges : list RouteEdge) (current next : Node)
    (c : string) :
  continuous edges -> endsAt edges current ->
  continuous (edges ++ [edgeBetween current next c]).
Proof.
  intros Hc He. apply continuous_snoc; [exact Hc |].
  intros e0 H0. destruct (He e0 H0) as (H1 & H2 & H3).
  unfold joins. simpl. auto.
Qed.

Lemma appendEdge_route (view : Render.t) (live : State)
    (current next destination : Node) :
  State.routeEdges (appendEdge view live current next destination)
  = State.routeEdges live
    ++ [edgeBetween current next
          (Node.color (Packet.destination (Render.packet view)))].
Proof. reflexivity. Qed.

Lemma appendEdge_stats (view : Render.t) (live : State)
    (current next destination : Node) :
  State.lastRouteStats (appendEdge view live current next destination)
  = if Z.eqb (Node.id next) (Node.id destination)
    then Some (routeStats
                 (State.routeEdges (appendEdge view live current next destination))
                 (edgeBetween current next
                    (Node.color (Packet.destination (Render.packet view)))))
    else State.lastRouteStats live.
Proof.
  unfold appendEdge.
  destruct (Z.eqb (Node.id next) (Node.id destination)); reflexivity.
Qed.

Lemma updateNodePosition_keeps_route (routeEdges : list RouteEdge)
    (s : State) (id : Z) (x y : R) (current : Node) :
  continuous (State.routeEdges s) -> endsAt (State.routeEdges s) current ->
  continuous (State.routeEdges (updateNodePosition routeEdges s id x y))
  /\ endsAt (State.routeEdges (updateNodePosition routeEdges s id x y)) current.
Proof.
  intros Hc He. rewrite updateNodePosition_route.
  destruct (onRoute id routeEdges).
  - split; [exact I | apply endsAt_nil].
  - split; assumption.
Qed.

Section Run.

Variable D : list (R * R) -> Z -> list nat.

(** What a run keeps true of the live route, from a route that is
    continuous and ends at the current node: the route stays continuous;
    while the packet is in transit the route ends at its node; on arrival
    the route ends with the edge into the destination and the statistics
    are those of the whole route.  This holds in whichever render the chain
    runs, and through the drags and the new chains that follow them. *)
Lemma chain_route (events : list Event) :
  forall (view : Render.t) (mounted : bool) (live : State)
         (current destination : Node) (live' : State) (st : Status),
    continuous (State.routeEdges live) ->
    endsAt (State.routeEdges live) current ->
    simulateRoutingStepIn D view mounted events live current destination
    = (live', st) ->
    continuous (State.routeEdges live')
    /\ match st with
       | InTransit c => endsAt (State.routeEdges live') c
       | Arrived =>
           exists prev added,
             State.routeEdges live' = prev ++ [added]
             /\ RouteEdge.endId added = Node.id destination
             /\ State.lastRouteStats live'
                = Some (routeStats (prev ++ [added]) added)
       | Lost => True
       end.
Proof.
  induction events as [| ev events IH];
    intros view mounted live current destination live' st Hc He Hrun.
  - simpl in Hrun. injection Hrun as <- <-. split; assumption.
  - destruct ev as [draw | captured id x y]; cbn [simulateRoutingStepIn] in Hrun.
    + destruct (getNextNode D (Render.nodes view) (Render.strategy view)
                  (Render.routeEdges view) draw current destination)
        as [next |] eqn:Enext.
      * pose proof (continuous_appendEdge _ current next
                      (Node.color (Packet.destination (Render.packet view))) Hc He)
          as Hc'.
        cbv zeta in Hrun.
        destruct (Z.eqb (Node.id next) (Node.id destination)) eqn:Earr.
        -- injection Hrun as <- <-. split; [exact Hc' |].
           eexists _, _. split; [reflexivity | split].
           ++ simpl. apply Z.eqb_eq, Earr.
           ++ change (State.lastRouteStats (arrive ?s))
                with (State.lastRouteStats s).
              rewrite appendEdge_stats, Earr. reflexivity.
        -- set (live2 := State.setPacket
                              (Some (Packet.mk next destination))
                              (appendEdge view live current next destination))
             in *.
           assert (Hc2 : continuous (State.routeEdges live2)) by exact Hc'.
           assert (He2 : endsAt (State.routeEdges live2) next).
           { change (State.routeEdges live2)
               with (State.routeEdges
                       (appendEdge view live current next destination)).
             rewrite appendEdge_route. apply endsAt_snoc. }
           destruct mounted.
           ++ eapply IH; [exact Hc2 | exact He2 | exact Hrun].
           ++ destruct (getNextNode D (Render.nodes view) (Render.strategy view)
                          (Render.routeEdges view) 0 next destination).
              ** destruct (negb (State.simulationStarted live2)).
                 --- eapply IH; [| | exact Hrun]; [exact Hc2 | exact He2].
                 --- injection Hrun as <- <-. split; [exact Hc2 | exact He2].
              ** injection Hrun as <- <-. split; [exact Hc2 | exact I].
      * injection Hrun as <- <-. split; [exact Hc | exact I].
    + destruct (updateNodePosition_keeps_route captured live id x y current Hc He)
        as [Hc' He'].
      eapply IH; [exact Hc' | exact He' | exact Hrun].
Qed.

Lemma run_route (view : Render.t) (events : list Event) (live : State)
    (current destination : Node) (live' : State) (st : Status) :
  continuous (State.routeEdges live) ->
  endsAt (State.routeEdges live) current ->
  simulateRoutingStep D view events live current destination = (live', st) ->
  continuous (State.routeEdges live')
  /\ match st with
     | InTransit c => endsAt (State.routeEdges live') c
     | Arrived =>
         exists prev added,
           State.routeEdges live' = prev ++ [added]
           /\ RouteEdge.endId added = Node.id destination
           /\ State.lastRouteStats live'
              = Some (routeStats (prev ++ [added]) added)
     | Lost => True
     end.
Proof. apply chain_route. Qed.

(** Statistics are set by an arrival only. *)
Lemma chain_no_stats (events : list Event) :
  forall (view : Render.t) (mounted : bool) (live : State)
         (current destination : Node) (live' : State) (st : Status),
    State.lastRouteStats live = None ->
    simulateRoutingStepIn D view mounted events live current destination
    = (live', st) ->
    st <> Arrived ->
    State.lastRouteStats live' = None.
Proof.
  induction events as [| ev events IH];
    intros view mounted live current destination live' st Hs Hrun Hst.
  - simpl in Hrun. injection Hrun as <- <-. exact Hs.
  - destruct ev as [draw | captured id x y]; cbn [simulateRoutingStepIn] in Hrun.
    + destruct (getNextNode D (Render.nodes view) (Render.strategy view)
                  (Render.routeEdges view) draw current destination)
        as [next |] eqn:Enext.
      * cbv zeta in Hrun.
        destruct (Z.eqb (Node.id next) (Node.id destination)) eqn:Earr.
        -- injection Hrun as <- <-. contradiction.
        -- set (live2 := State.setPacket
                              (Some (Packet.mk next destination))
                              (appendEdge view live current next destination))
             in *.
           assert (Hs' : State.lastRouteStats live2 = None).
           { change (State.lastRouteStats live2)
               with (State.lastRouteStats
                       (appendEdge view live current next destination)).
             rewrite appendEdge_stats, Earr. exact Hs. }
           destruct mounted.
           ++ eapply IH; [exact Hs' | exact Hrun | exact Hst].
           ++ destruct (getNextNode D (Render.nodes view) (Render.strategy view)
                          (Render.routeEdges view) 0 next destination).
              ** destruct (negb (State.simulationStarted live2)).
                 --- eapply IH; [| exact Hrun | exact Hst]. exact Hs'.
                 --- injection Hrun as <- <-. exact Hs'.
              ** injection Hrun as <- <-. exact Hs'.
      * injection Hrun as <- <-. exact Hs.
    + eapply IH; [| exact Hrun | exact Hst].
      rewrite updateNodePosition_stats, Hs.
      destruct (onRoute id captured); reflexivity.
Qed.

Lemma run_no_stats (view : Render.t) (events : list Event) (live : State)
    (current destination : Node) (live' : State) (st : Status) :
  State.lastRouteStats live = None ->
  simulateRoutingStep D view events live current destination = (live', st) ->
  st <> Arrived ->
  State.lastRouteStats live' = None.
Proof. apply chain_no_stats. Qed.

End Run.

(** ** Statistics of an arrived route *)

(** The operations of [exactArith] are those of the reals. *)
Ltac exact_arith :=
  cbn [ofZ nadd nsub ndiv nsquare nsqrt exactArith] in *.

Lemma fold_left_lengths (edges : list RouteEdge) (a : R) :
  fold_left (fun sum edge => sum + edgeLength edge) edges a
  = a + sumLengths edges.
Proof.
  revert a. induction edges as [| e edges IH]; intros a; simpl.
  - lra.
  - rewrite IH. lra.
Qed.

Lemma straightLine_self (e : RouteEdge) : straightLine e e = edgeLength e.
Proof. unfold straightLine, edgeLength. exact_arith. f_equal. ring. Qed.

(** The triangle inequality, through the point where [e1] ends and [e2]
    starts. *)
Lemma straightLine_triangle (e1 e2 final : RouteEdge) :
  joins e1 e2 ->
  straightLine e1 final <= edgeLength e1 + straightLine e2 final.
Proof.
  intros (_ & Hx & Hy). unfold straightLine, edgeLength. exact_arith.
  rewrite <- Hx, <- Hy.
  pose proof (triangle (RouteEdge.x1 e1) (RouteEdge.y1 e1)
                       (RouteEdge.x2 final) (RouteEdge.y2 final)
                       (RouteEdge.x2 e1) (RouteEdge.y2 e1)) as T.
  unfold dist_euc in T.
  replace ((RouteEdge.x2 e1 - RouteEdge.x1 e1) ^ 2
           + (RouteEdge.y2 e1 - RouteEdge.y1 e1) ^ 2)
    with (Rsqr (RouteEdge.x1 e1 - RouteEdge.x2 e1)
          + Rsqr (RouteEdge.y1 e1 - RouteEdge.y2 e1))
    by (unfold Rsqr; ring).
  rewrite <- !Rsqr_pow2. exact T.
Qed.

(** A continuous route is at least as long as the straight line from its
    start to its end. *)
Lemma continuous_triangle (edges : list RouteEdge) :
  forall first final,
    continuous edges ->
    nth_error edges 0 = Some first ->
    nth_error edges (length edges - 1) = Some final ->
    straightLine first final <= sumLengths edges.
Proof.
  induction edges as [| e1 rest IH]; intros first final Hc Hfirst Hfinal.
  - discriminate.
  - injection Hfirst as <-. destruct rest as [| e2 r].
    + injection Hfinal as <-. rewrite straightLine_self. simpl. lra.
    + destruct Hc as [Hj Hc].
      assert (H2 : straightLine e2 final <= sumLengths (e2 :: r)).
      { apply IH; [exact Hc | reflexivity |].
        simpl in *. rewrite Nat.sub_0_r in *. exact Hfinal. }
      pose proof (straightLine_triangle e1 e2 final Hj) as H1.
      change (sumLengths (e1 :: e2 :: r))
        with (edgeLength e1 + sumLengths (e2 :: r)).
      lra.
Qed.

Lemma nth_snoc_last {A : Type} (l : list A) (a d : A) :
  nth (length (l ++ [a]) - 1) (l ++ [a]) d = a.
Proof.
  apply nth_error_nth. apply nth_error_snoc_last.
Qed.

Lemma nth_error_snoc_first {A : Type} (l : list A) (a : A) :
  nth_error (l ++ [a]) 0 = Some (nth 0 (l ++ [a]) a).
Proof. destruct l; reflexivity. Qed.

(** What [routeStats] computes on a route that ends with [added]. *)
Lemma routeStats_snoc (prev : list RouteEdge) (added : RouteEdge) :
  exists first,
    nth_error (prev ++ [added]) 0 = Some first
    /\ RouteStats.numEdges (routeStats (prev ++ [added]) added)
       = length (prev ++ [added])
    /\ RouteStats.totalLength (routeStats (prev ++ [added]) added)
       = sumLengths (prev ++ [added])
    /\ RouteStats.directDistance (routeStats (prev ++ [added]) added)
       = straightLine first added.
Proof.
  exists (nth 0 (prev ++ [added]) added).
  split; [apply nth_error_snoc_first | split; [reflexivity | split]].
  - unfold routeStats. simpl RouteStats.totalLength.
    change (fold_left _ (prev ++ [added]) _)
      with (fold_left (fun sum edge => sum + edgeLength edge) (prev ++ [added]) 0).
    rewrite fold_left_lengths. lra.
  - unfold routeStats. simpl RouteStats.directDistance.
    rewrite nth_snoc_last. reflexivity.
Qed.

Lemma stretch_at_least_one (st : RouteStats) :
  0 <= RouteStats.directDistance st ->
  RouteStats.directDistance st <= RouteStats.totalLength st ->
  RouteStats.directDistance st <> 0 ->
  1 <= stretchRatio st.
Proof.
  intros H0 Hle Hnz. unfold stretchRatio. exact_arith.
  apply (Rmult_le_reg_r (RouteStats.directDistance st)); [lra |].
  replace (RouteStats.totalLength st / RouteStats.directDistance st
           * RouteStats.directDistance st)
    with (RouteStats.totalLength st) by (field; exact Hnz).
  lra.
Qed.

Section Arrival.

Variable D : list (R * R) -> Z -> list nat.

(** C3, in exact arithmetic. A run that starts from a continuous route
    ending at the current node (the empty route of a run start is one) and
    terminates Arrived leaves statistics that satisfy: numEdges is the number
    of edges of the route, at least 1; totalLength is the sum of the lengths
    of the edges; directDistance is the distance from the start point of the
    first edge to the end point of the last edge, which ends at the
    destination; directDistance <= totalLength; and the ratio totalLength /
    directDistance is at least 1 when directDistance is not zero.  A run
    that has not arrived (lost, or still in transit) sets no statistics.
    The two inequalities are those of exact arithmetic: rounding can break
    them in binary64. *)
Theorem arrival_statistics
    (view : Render.t) (events : list Event) (live : State)
    (current destination : Node) (live' : State) (st : Status) :
  continuous (State.routeEdges live) ->
  endsAt (State.routeEdges live) current ->
  simulateRoutingStep D view events live current destination = (live', st) ->
  (st = Arrived ->
   exists stats first final,
     State.lastRouteStats live' = Some stats
     /\ nth_error (State.routeEdges live') 0 = Some first
     /\ nth_error (State.routeEdges live')
                  (length (State.routeEdges live') - 1) = Some final
     /\ RouteEdge.endId final = Node.id destination
     /\ RouteStats.numEdges stats = length (State.routeEdges live')
     /\ (1 <= RouteStats.numEdges stats)%nat
     /\ RouteStats.totalLength stats = sumLengths (State.routeEdges live')
     /\ RouteStats.directDistance stats = straightLine first final
     /\ RouteStats.directDistance stats <= RouteStats.totalLength stats
     /\ (RouteStats.directDistance stats <> 0 -> 1 <= stretchRatio stats))
  /\ (st <> Arrived ->
      State.lastRouteStats live = None ->
      State.lastRouteStats live' = None).
Proof.
  intros Hc He Hrun. split.
  - intros ->.
    destruct (run_route D view events live current destination live' Arrived
                        Hc He Hrun) as (Hc' & prev & added & Hroute & Hend & Hstats).
    destruct (routeStats_snoc prev added) as (first & Hfirst & Hnum & Htot & Hdir).
    rewrite Hroute.
    assert (Hle : straightLine first added <= sumLengths (prev ++ [added])).
    { apply continuous_triangle.
      - rewrite <- Hroute. exact Hc'.
      - exact Hfirst.
      - apply nth_error_snoc_last. }
    exists (routeStats (prev ++ [added]) added), first, added.
    split; [exact Hstats |].
    split; [exact Hfirst |].
    split; [apply nth_error_snoc_last |].
    split; [exact Hend |].
    split; [exact Hnum |].
    split; [rewrite Hnum, length_app; simpl; lia |].
    split; [exact Htot |].
    split; [exact Hdir |].
    split; [rewrite Hdir, Htot; exact Hle |].
    apply stretch_at_least_one.
    + rewrite Hdir. apply sqrt_pos.
    + rewrite Hdir, Htot. exact Hle.
  - intros Hst Hnone.
    exact (run_no_stats D view events live current destination live' st
                        Hnone Hrun Hst).
Qed.

(** X18. The route is empty when a run starts: a start request either
    fails, changing only the message, or sets a packet and leaves the route
    empty and the statistics unset.  Along a run the route stays continuous:
    each segment starts at the node, and at the point, where the segment
    before it ends, whatever hops and drags occur and in whichever render
    the hops are computed.  And [updateNodePosition] clears the route,
    together with the statistics and the packet, exactly when the moved node
    is the start or the end of a segment of the route that the function has
    captured; otherwise it leaves them as they are. *)
Theorem route_empty_continuous_reset_on_captured :
  (forall s drawSource drawDestination s',
      startRoutingSimulation s drawSource drawDestination = Some s' ->
      (exists reason, reason <> ""%string
                      /\ s' = State.setFinalMessage (Some reason) s)
      \/ (State.routeEdges s' = []
          /\ State.lastRouteStats s' = None
          /\ State.simulationStarted s' = false
          /\ exists source destination,
              State.packet s' = Some (Packet.mk source destination)
              /\ In source (State.nodes s) /\ In destination (State.nodes s)
              /\ isActive source = true
              /\ Node.color destination = Node.color source
              /\ Node.id destination <> Node.id source))
  /\ (forall view events live current destination,
        State.routeEdges live = [] ->
        continuous (State.routeEdges
                      (fst (simulateRoutingStep D view events live
                                                current destination))))
  /\ (forall view draw live current destination next,
        getNextNode D (Render.nodes view) (Render.strategy view)
                    (Render.routeEdges view) draw current destination
        = Some next ->
        exists added,
          State.routeEdges
            (fst (simulateRoutingStep D view [Hop draw] live current destination))
          = State.routeEdges live ++ [added]
          /\ RouteEdge.startId added = Node.id current
          /\ RouteEdge.endId added = Node.id next)
  /\ (forall routeEdges s id x y,
        (exists edge, In edge routeEdges
                      /\ (RouteEdge.startId edge = id
                          \/ RouteEdge.endId edge = id)) ->
        State.routeEdges (updateNodePosition routeEdges s id x y) = []
        /\ State.lastRouteStats (updateNodePosition routeEdges s id x y) = None
        /\ State.packet (updateNodePosition routeEdges s id x y) = None
        /\ State.simulationStarted (updateNodePosition routeEdges s id x y)
           = false
        /\ State.finalMessage (updateNodePosition routeEdges s id x y)
           = Some msgReset)
  /\ (forall routeEdges s id x y,
        (forall edge, In edge routeEdges ->
                      RouteEdge.startId edge <> id
                      /\ RouteEdge.endId edge <> id) ->
        updateNodePosition routeEdges s id x y
        = State.setNodes (State.nodes (updateNodePosition routeEdges s id x y))
                         s).
Proof.
  split; [| split; [| split; [| split]]].
  - intros s d1 d2 s'. unfold startRoutingSimulation.
    destruct (length (filter isActive (State.nodes s)) <? 2)%nat.
    { intros [= <-]. left. exists msgTwoActive. split; [discriminate | reflexivity]. }
    destruct (nth_error (filter isActive (State.nodes s)) d1) as [source |] eqn:Es;
      [| discriminate].
    destruct (length (filter (isPartner source)
                             (filter isActive (State.nodes s))) =? 0)%nat.
    { intros [= <-]. left. exists (msgNoDestination (Node.color source)).
      split; [apply msgNoDestination_nonempty | reflexivity]. }
    destruct (nth_error (filter (isPartner source)
                                (filter isActive (State.nodes s))) d2)
      as [destination |] eqn:Ed; [| discriminate].
    intros [= <-]. right. repeat split.
    exists source, destination.
    apply nth_error_In in Es, Ed.
    apply filter_In in Es. apply filter_In in Ed. destruct Ed as [Ed Hp].
    apply filter_In in Ed. apply isPartner_spec in Hp.
    repeat split; tauto.
  - intros view events live current destination Hnil.
    destruct (simulateRoutingStep D view events live current destination)
      as [live' st] eqn:Hrun.
    apply (run_route D view events live current destination live' st).
    + rewrite Hnil. exact I.
    + rewrite Hnil. apply endsAt_nil.
    + exact Hrun.
  - intros view draw live current destination next Hnext.
    rewrite simulateRoutingStep_hop, Hnext.
    exists (edgeBetween current next
              (Node.color (Packet.destination (Render.packet view)))).
    destruct (Z.eqb (Node.id next) (Node.id destination)); repeat split.
  - intros routeEdges s id x y Hon. apply onRoute_spec in Hon.
    unfold updateNodePosition. rewrite Hon. repeat split.
  - intros routeEdges s id x y Hoff.
    assert (Hon : onRoute id routeEdges = false).
    { destruct (onRoute id routeEdges) eqn:E; [| reflexivity].
      apply onRoute_spec in E. destruct E as (edge & Hin & Hid).
      destruct (Hoff edge Hin) as [H1 H2]. destruct Hid; contradiction. }
    unfold updateNodePosition. rewrite Hon. reflexivity.
Qed.

End Arrival.

(** ** The scenarios, evaluated *)

Ltac distance_value :=
  unfold distance, nodeA, nodeB, nodeC, nodeO, nodeE, nodeN, nodeW, nodeS;
  cbn [Node.x Node.y]; apply sqrt_lem_1; lra.

Lemma distance_AB : distance nodeA nodeB = 3. Proof. distance_value. Qed.
Lemma distance_AC : distance nodeA nodeC = 5. Proof. distance_value. Qed.
Lemma distance_BC : distance nodeB nodeC = 4. Proof. distance_value. Qed.
Lemma distance_CC : distance nodeC nodeC = 0. Proof. distance_value. Qed.

Lemma triangle_candidates_A :
  candidatesOf triangleNeighbors triangleNodes nodeA = [nodeB; nodeC].
Proof. reflexivity. Qed.

Lemma triangle_candidates_B :
  candidatesOf triangleNeighbors triangleNodes nodeB = [nodeC; nodeA].
Proof. reflexivity. Qed.

Lemma triangle_select (strategy : Strategy) (routeEdges : list RouteEdge)
    (draw : nat) (current destination : Node) :
  candidatesOf triangleNeighbors triangleNodes current <> [] ->
  getNextNode triangleNeighbors triangleNodes strategy routeEdges draw
              current destination
  = selectNextHop strategy routeEdges draw current destination
                  (candidatesOf triangleNeighbors triangleNodes current).
Proof. apply getNextNode_select. simpl. lia. Qed.

(** Scenario A: with closestToDestination the packet goes from [nodeA]
    straight to [nodeC]. *)
Example closest_A_to_C :
  getNextNode triangleNeighbors triangleNodes closestToDestination [] 0
              nodeA nodeC = Some nodeC.
Proof.
  rewrite triangle_select by discriminate.
  rewrite triangle_candidates_A. simpl.
  rewrite distance_CC, distance_BC.
  replace (Rltb 0 4) with true by (symmetry; apply Rltb_true; lra).
  reflexivity.
Qed.

Ltac edge_length_value :=
  unfold edgeLength, straightLine, edgeAB, edgeBC, edgeAC, edgeBetween,
    nodeA, nodeB, nodeC;
  cbn [RouteEdge.x1 RouteEdge.y1 RouteEdge.x2 RouteEdge.y2 Node.x Node.y];
  exact_arith; apply sqrt_lem_1; lra.

Lemma edgeLength_AB : edgeLength edgeAB = 3. Proof. edge_length_value. Qed.
Lemma edgeLength_BC : edgeLength edgeBC = 4. Proof. edge_length_value. Qed.
Lemma edgeLength_AC : edgeLength edgeAC = 5. Proof. edge_length_value. Qed.
Lemma straightLine_AC : straightLine edgeAC edgeAC = 5.
Proof. edge_length_value. Qed.
Lemma straightLine_AB_BC : straightLine edgeAB edgeBC = 5.
Proof. edge_length_value. Qed.

Lemma routeStats_AC : routeStats [edgeAC] edgeAC = RouteStats.mk 1 5 5.
Proof.
  unfold routeStats. cbn [length Nat.sub nth fold_left]. exact_arith.
  fold (straightLine edgeAC edgeAC).
  rewrite edgeLength_AC, straightLine_AC. f_equal. lra.
Qed.

Lemma routeStats_AB_BC :
  routeStats [edgeAB; edgeBC] edgeBC = RouteStats.mk 2 7 5.
Proof.
  unfold routeStats. cbn [length Nat.sub nth fold_left]. exact_arith.
  fold (straightLine edgeAB edgeBC).
  rewrite edgeLength_AB, edgeLength_BC, straightLine_AB_BC. f_equal. lra.
Qed.

(** Scenario A, the run: one hop, and a route as long as the straight
    line. *)
Example scenarioA_run :
  simulateRoutingStep triangleNeighbors (viewTriangle closestToDestination)
    [Hop 0] (State.setSimulationStarted true (startedTriangle closestToDestination))
    nodeA nodeC
  = (State.mk triangleNodes None [edgeAC]
       (Some (RouteStats.mk 1 5 5)) (Some msgArrived) closestToDestination false,
     Arrived).
Proof.
  cbn [simulateRoutingStep simulateRoutingStepIn viewTriangle Render.nodes Render.strategy Render.routeEdges].
  rewrite closest_A_to_C.
  cbn [nodeC Node.id Z.eqb Pos.eqb].
  unfold arrive, appendEdge.
  cbn [nodeC Node.id Z.eqb Pos.eqb State.routeEdges startedTriangle
       State.setSimulationStarted app].
  change (routeStats _ _) with (routeStats [edgeAC] edgeAC).
  rewrite routeStats_AC. reflexivity.
Qed.

Example scenarioA_start :
  startRoutingSimulation (idleTriangle closestToDestination) 0 0
  = Some (startedTriangle closestToDestination).
Proof. reflexivity. Qed.

Example scenarioA_effect :
  packetEffect triangleNeighbors [Hop 0] (startedTriangle closestToDestination)
  = (State.mk triangleNodes None [edgeAC]
       (Some (RouteStats.mk 1 5 5)) (Some msgArrived) closestToDestination false,
     Some Arrived).
Proof.
  unfold packetEffect.
  cbn [State.packet State.simulationStarted startedTriangle negb].
  change (renderOf _ _) with (viewTriangle closestToDestination).
  cbn [Packet.currentNode Packet.destination].
  rewrite scenarioA_run. reflexivity.
Qed.

Example scenarioA_stretch : stretchRatio (RouteStats.mk 1 5 5) = 1.
Proof. unfold stretchRatio. exact_arith. simpl. field. Qed.

(** Scenario A, from the start request to the arrival: the two red nodes are
    source and destination, the run arrives in exactly one hop, and in exact
    arithmetic the route is as long as the straight line. *)
Example scenarioA_one_hop :
  startRoutingSimulation (idleTriangle closestToDestination) 0 0
  = Some (startedTriangle closestToDestination)
  /\ packetEffect triangleNeighbors [Hop 0] (startedTriangle closestToDestination)
     = (State.mk triangleNodes None [edgeAC]
          (Some (RouteStats.mk 1 5 5)) (Some msgArrived) closestToDestination
          false,
        Some Arrived)
  /\ stretchRatio (RouteStats.mk 1 5 5) = 1.
Proof.
  split; [exact scenarioA_start | split];
    [exact scenarioA_effect | exact scenarioA_stretch].
Qed.

(** With smallestJump the packet goes from [nodeA] to [nodeB], the nearest
    of the two neighbors that are closer to [nodeC], and then to [nodeC]. *)
Example smallestJump_A_to_C :
  getNextNode triangleNeighbors triangleNodes smallestJump [] 0 nodeA nodeC
  = Some nodeB.
Proof.
  rewrite triangle_select by discriminate.
  rewrite triangle_candidates_A. simpl.
  rewrite distance_BC, distance_CC, distance_AC.
  replace (Rltb 4 5) with true by (symmetry; apply Rltb_true; lra).
  replace (Rltb 0 5) with true by (symmetry; apply Rltb_true; lra).
  simpl. rewrite distance_AB, distance_AC.
  replace (Rltb 5 3) with false by (symmetry; apply Rltb_false; lra).
  reflexivity.
Qed.

Example smallestJump_B_to_C :
  getNextNode triangleNeighbors triangleNodes smallestJump [] 0 nodeB nodeC
  = Some nodeC.
Proof.
  rewrite triangle_select by discriminate.
  rewrite triangle_candidates_B. simpl.
  rewrite distance_BC, distance_CC, distance_AC.
  replace (Rltb 0 4) with true by (symmetry; apply Rltb_true; lra).
  replace (Rltb 5 4) with false by (symmetry; apply Rltb_false; lra).
  reflexivity.
Qed.

(** At [nodeC] itself no neighbor is strictly closer to [nodeC]: none,
    although [nodeC] has two neighbors. *)
Example smallestJump_dead_end :
  candidatesOf triangleNeighbors triangleNodes nodeC = [nodeA; nodeB]
  /\ getNextNode triangleNeighbors triangleNodes smallestJump [] 0 nodeC nodeC
     = None.
Proof.
  split; [reflexivity |].
  rewrite triangle_select by discriminate.
  change (candidatesOf triangleNeighbors triangleNodes nodeC) with [nodeA; nodeB].
  simpl. rewrite distance_BC, distance_CC, distance_AC.
  replace (Rltb 5 0) with false by (symmetry; apply Rltb_false; lra).
  replace (Rltb 4 0) with false by (symmetry; apply Rltb_false; lra).
  reflexivity.
Qed.

Example smallestJump_run :
  simulateRoutingStep triangleNeighbors (viewTriangle smallestJump)
    [Hop 0; Hop 0] (State.setSimulationStarted true (startedTriangle smallestJump))
    nodeA nodeC
  = (State.mk triangleNodes None [edgeAB; edgeBC]
       (Some (RouteStats.mk 2 7 5)) (Some msgArrived) smallestJump false,
     Arrived).
Proof.
  cbn [simulateRoutingStep simulateRoutingStepIn viewTriangle Render.nodes Render.strategy Render.routeEdges].
  rewrite smallestJump_A_to_C.
  cbn [nodeB nodeC Node.id Z.eqb Pos.eqb].
  rewrite smallestJump_B_to_C.
  cbn [nodeC Node.id Z.eqb Pos.eqb].
  unfold arrive, appendEdge.
  cbn [nodeB nodeC Node.id Z.eqb Pos.eqb State.routeEdges startedTriangle
       State.setSimulationStarted State.setPacket State.setRouteEdges app].
  change (routeStats _ _) with (routeStats [edgeAB; edgeBC] edgeBC).
  rewrite routeStats_AB_BC. reflexivity.
Qed.

(** The random strategy, at [nodeB] after the hop from [nodeA]: the edge
    back to [nodeA] is in the history, [nodeC] is the only choice. *)
Example random_B_after_AB :
  getNextNode triangleNeighbors triangleNodes random [edgeAB] 0 nodeB nodeC
  = Some nodeC
  /\ forall draw,
      getNextNode triangleNeighbors triangleNodes random [edgeAB] draw nodeB nodeC
      <> Some nodeA.
Proof.
  split; [reflexivity |].
  intros draw. rewrite triangle_select by discriminate.
  destruct draw as [| [| draw]]; discriminate.
Qed.

(** With both edges of [nodeB] in the history the result is none. *)
Example random_B_exhausted :
  forall draw,
    getNextNode triangleNeighbors triangleNodes random
                [edgeAB; edgeBetween nodeC nodeB "red"] draw nodeB nodeC
    = None.
Proof. intros draw. reflexivity. Qed.

(** *** The cross *)

Lemma normalizeAngle_lower (a : R) :
  PI < a <= 3 * PI -> normalizeAngle a = a - 2 * PI.
Proof.
  intros [H1 H2]. pose proof PI_RGT_0 as Hpi.
  unfold normalizeAngle. rewrite raiseAngle_stable by lra.
  pose proof (turns_enough a) as Ht.
  destruct (turns a) as [| fuel].
  - simpl in Ht. pose proof (Rabs_pos a). lra.
  - simpl. replace (Rgtb a PI) with true by (symmetry; apply Rgtb_true; lra).
    apply lowerAngle_stable. lra.
Qed.

Lemma normalizeAngle_raise (a : R) :
  - 3 * PI < a <= - PI -> normalizeAngle a = a + 2 * PI.
Proof.
  intros [H1 H2]. pose proof PI_RGT_0 as Hpi.
  unfold normalizeAngle.
  pose proof (turns_enough a) as Ht.
  destruct (turns a) as [| fuel].
  - simpl in Ht. pose proof (Rabs_pos a). lra.
  - simpl. replace (Rleb a (- PI)) with true by (symmetry; apply Rleb_true; lra).
    rewrite raiseAngle_stable by lra.
    replace (Rgtb (a + 2 * PI) PI) with false by (symmetry; apply Rgtb_false; lra).
    reflexivity.
Qed.

Ltac decide_Rltb :=
  repeat match goal with
    | |- context [Rltb ?a ?b] =>
        first [ replace (Rltb a b) with true by (symmetry; apply Rltb_true; lra)
              | replace (Rltb a b) with false by (symmetry; apply Rltb_false; lra) ]
    | |- context [Rleb ?a ?b] =>
        first [ replace (Rleb a b) with true by (symmetry; apply Rleb_true; lra)
              | replace (Rleb a b) with false by (symmetry; apply Rleb_false; lra) ]
    | |- context [Rgtb ?a ?b] =>
        first [ replace (Rgtb a b) with true by (symmetry; apply Rgtb_true; lra)
              | replace (Rgtb a b) with false by (symmetry; apply Rgtb_false; lra) ]
    end.

Ltac bearing_value :=
  unfold bearing, atan2, nodeO, nodeE, nodeN, nodeW, nodeS;
  cbn [Node.x Node.y]; decide_Rltb.

Lemma bearing_O_E : bearing nodeO nodeE = 0.
Proof. bearing_value. replace ((0 - 0) / (1 - 0)) with 0 by field. apply atan_0. Qed.

Lemma bearing_O_N : bearing nodeO nodeN = PI / 2.
Proof. bearing_value. reflexivity. Qed.

Lemma bearing_O_W : bearing nodeO nodeW = PI.
Proof.
  bearing_value. replace ((0 - 0) / (-1 - 0)) with 0 by field.
  rewrite atan_0. lra.
Qed.

Lemma bearing_O_S : bearing nodeO nodeS = - (PI / 2).
Proof. bearing_value. reflexivity. Qed.

Lemma cross_candidates_O :
  candidatesOf crossNeighbors crossNodes nodeO = [nodeE; nodeN; nodeW; nodeS].
Proof. reflexivity. Qed.

Lemma relativeAngle_O_E_E : relativeAngleOf nodeO nodeE nodeE = 0.
Proof.
  unfold relativeAngleOf. rewrite bearing_O_E.
  pose proof PI_RGT_0. rewrite normalizeAngle_id; lra.
Qed.

Lemma relativeAngle_O_E_N : relativeAngleOf nodeO nodeE nodeN = PI / 2.
Proof.
  unfold relativeAngleOf. rewrite bearing_O_E, bearing_O_N.
  pose proof PI_RGT_0. rewrite normalizeAngle_id; lra.
Qed.

Lemma relativeAngle_O_E_W : relativeAngleOf nodeO nodeE nodeW = PI.
Proof.
  unfold relativeAngleOf. rewrite bearing_O_E, bearing_O_W.
  pose proof PI_RGT_0. rewrite normalizeAngle_id; lra.
Qed.

Lemma relativeAngle_O_E_S : relativeAngleOf nodeO nodeE nodeS = - (PI / 2).
Proof.
  unfold relativeAngleOf. rewrite bearing_O_E, bearing_O_S.
  pose proof PI_RGT_0. rewrite normalizeAngle_id; lra.
Qed.

(** From the origin towards [nodeE], the first neighbor on the left is
    [nodeN], a quarter turn away; [nodeW], a half turn away, is on the left
    too. *)
Example firstLeft_O_to_E :
  getNextNode crossNeighbors crossNodes firstLeft [] 0 nodeO nodeE = Some nodeN.
Proof.
  rewrite getNextNode_select by (simpl; try lia; discriminate).
  rewrite cross_candidates_O.
  cbn [selectNextHop map]. unfold withAngle.
  change (normalizeAngle (bearing nodeO ?c - bearing nodeO nodeE))
    with (relativeAngleOf nodeO nodeE c).
  rewrite relativeAngle_O_E_E, relativeAngle_O_E_N, relativeAngle_O_E_W,
    relativeAngle_O_E_S.
  pose proof PI_RGT_0 as Hpi.
  cbn [filter Angled.relativeAngle]. decide_Rltb.
  cbn [length Nat.ltb Nat.leb reduce1 fold_left smallerAngle Angled.relativeAngle].
  unfold smallerAngle. cbn [Angled.relativeAngle]. decide_Rltb.
  reflexivity.
Qed.

Lemma bearing_E_S : bearing nodeE nodeS = - (3 * PI / 4).
Proof.
  bearing_value. replace ((-1 - 0) / (0 - 1)) with 1 by field.
  rewrite atan_1. lra.
Qed.

Lemma bearing_E_N : bearing nodeE nodeN = 3 * PI / 4.
Proof.
  bearing_value. replace ((1 - 0) / (0 - 1)) with (- (1)) by field.
  rewrite atan_opp, atan_1. lra.
Qed.

Lemma bearing_E_O : bearing nodeE nodeO = PI.
Proof.
  bearing_value. replace ((0 - 0) / (0 - 1)) with 0 by field.
  rewrite atan_0. lra.
Qed.

Lemma relativeAngle_E_S_N : relativeAngleOf nodeE nodeS nodeN = - (PI / 2).
Proof.
  unfold relativeAngleOf. rewrite bearing_E_S, bearing_E_N.
  pose proof PI_RGT_0. rewrite normalizeAngle_lower; lra.
Qed.

Lemma relativeAngle_E_S_O : relativeAngleOf nodeE nodeS nodeO = - (PI / 4).
Proof.
  unfold relativeAngleOf. rewrite bearing_E_S, bearing_E_O.
  pose proof PI_RGT_0. rewrite normalizeAngle_lower; lra.
Qed.

Lemma relativeAngle_E_S_S : relativeAngleOf nodeE nodeS nodeS = 0.
Proof.
  unfold relativeAngleOf. rewrite bearing_E_S.
  pose proof PI_RGT_0. rewrite normalizeAngle_id; lra.
Qed.

(** From [nodeE] towards [nodeS] no neighbor is on the left: the neighbor
    with the largest relative angle is [nodeS] itself. *)
Example firstLeft_E_to_S :
  candidatesOf crossNeighbors crossNodes nodeE = [nodeN; nodeO; nodeS]
  /\ getNextNode crossNeighbors crossNodes firstLeft [] 0 nodeE nodeS
     = Some nodeS.
Proof.
  split; [reflexivity |].
  rewrite getNextNode_select by (simpl; try lia; discriminate).
  change (candidatesOf crossNeighbors crossNodes nodeE)
    with [nodeN; nodeO; nodeS].
  cbn [selectNextHop map]. unfold withAngle.
  change (normalizeAngle (bearing nodeE ?c - bearing nodeE nodeS))
    with (relativeAngleOf nodeE nodeS c).
  rewrite relativeAngle_E_S_N, relativeAngle_E_S_O, relativeAngle_E_S_S.
  pose proof PI_RGT_0 as Hpi.
  cbn [filter Angled.relativeAngle]. decide_Rltb.
  cbn [length Nat.ltb Nat.leb reduce1 fold_left].
  unfold largerAngle. cbn [Angled.relativeAngle]. decide_Rltb.
  cbn [Angled.relativeAngle]. decide_Rltb.
  reflexivity.
Qed.

(** ** The theorems at the scenarios *)

(** C8 at a state with two nodes. *)
Lemma undersized_graph_is_lost_witness :
  (length (State.nodes twoNodes) < 3)%nat
  /\ (forall strategy routeEdges draw current destination,
        getNextNode triangleNeighbors (State.nodes twoNodes) strategy routeEdges
                    draw current destination = None)
  /\ exists s',
      packetEffect triangleNeighbors [Hop 0] twoNodes = (s', Some Lost)
      /\ State.packet s' = None
      /\ State.simulationStarted s' = false
      /\ State.finalMessage s' = Some msgLost
      /\ State.routeEdges s' = State.routeEdges twoNodes
      /\ State.lastRouteStats s' = State.lastRouteStats twoNodes
      /\ State.nodes s' = State.nodes twoNodes.
Proof.
  assert (H : (length (State.nodes twoNodes) < 3)%nat) by (simpl; lia).
  split; [exact H |].
  pose proof (undersized_graph_is_lost triangleNeighbors twoNodes H) as (H1 & _ & H3).
  split; [exact H1 |].
  exact (H3 (Packet.mk nodeA nodeC) 0%nat [] eq_refl eq_refl).
Defined.

(** C6 at a state with a single active node (scenario E). *)
Lemma start_fails_without_two_partners_witness :
  (length (filter isActive (State.nodes loneRed)) < 2)%nat
  /\ exists reason s',
      startRoutingSimulation loneRed 0 0 = Some s'
      /\ s' = State.setFinalMessage (Some reason) loneRed
      /\ reason <> ""%string
      /\ ((length (filter isActive (State.nodes loneRed)) < 2)%nat ->
          reason = msgTwoActive)
      /\ State.packet s' = State.packet loneRed
      /\ State.routeEdges s' = State.routeEdges loneRed
      /\ State.lastRouteStats s' = State.lastRouteStats loneRed
      /\ State.simulationStarted s' = State.simulationStarted loneRed
      /\ State.nodes s' = State.nodes loneRed.
Proof.
  assert (H : (length (filter isActive (State.nodes loneRed)) < 2)%nat)
    by (simpl; lia).
  split; [exact H |].
  exact (start_fails_without_two_partners loneRed 0%nat 0%nat (or_introl H)).
Defined.

(** C7, as the code has it, at the run in transit at [nodeB]. *)
Lemma start_while_active_restarts_witness :
  State.packet inTransitTriangle = Some (Packet.mk nodeB nodeC)
  /\ nth_error (filter isActive (State.nodes inTransitTriangle)) 1 = Some nodeC
  /\ nth_error (filter (isPartner nodeC)
                       (filter isActive (State.nodes inTransitTriangle))) 0
     = Some nodeA
  /\ startRoutingSimulation inTransitTriangle 1 0
     = Some (State.mk triangleNodes (Some (Packet.mk nodeC nodeA)) []
                      None (Some ""%string) smallestJump false).
Proof.
  split; [reflexivity | split; [reflexivity | split; [reflexivity |]]].
  exact (proj1 (start_while_active_restarts inTransitTriangle 1%nat 0%nat
                  (Packet.mk nodeB nodeC) nodeC nodeA eq_refl eq_refl eq_refl)).
Defined.

(** C7, the claim at a state with an active run: the start request is not
    rejected.  The run from [nodeA] to [nodeC] is in transit at [nodeB],
    with the edge from [nodeA] to [nodeB] on its route; a start request that
    draws [nodeC] as source reports no reason, replaces the packet and
    empties the route. *)
Lemma start_while_active_not_rejected :
  State.packet inTransitTriangle = Some (Packet.mk nodeB nodeC)
  /\ State.simulationStarted inTransitTriangle = true
  /\ State.routeEdges inTransitTriangle = [edgeAB]
  /\ exists s',
      startRoutingSimulation inTransitTriangle 1 0 = Some s'
      /\ State.finalMessage s' = Some ""%string
      /\ State.packet s' = Some (Packet.mk nodeC nodeA)
      /\ State.packet s' <> State.packet inTransitTriangle
      /\ State.routeEdges s' = []
      /\ State.routeEdges s' <> State.routeEdges inTransitTriangle.
Proof.
  repeat split.
  eexists. split; [reflexivity |]. repeat split.
  - simpl. intros H.
    apply (f_equal (option_map (fun p => Node.id (Packet.currentNode p)))) in H.
    discriminate H.
  - simpl. discriminate.
Qed.

(** C3, in exact arithmetic, at the smallestJump run of the triangle. *)
Lemma arrival_statistics_witness :
  continuous (State.routeEdges
                (State.setSimulationStarted true (startedTriangle smallestJump)))
  /\ endsAt (State.routeEdges
               (State.setSimulationStarted true (startedTriangle smallestJump)))
            nodeA
  /\ simulateRoutingStep triangleNeighbors (viewTriangle smallestJump)
       [Hop 0; Hop 0]
       (State.setSimulationStarted true (startedTriangle smallestJump))
       nodeA nodeC
     = (State.mk triangleNodes None [edgeAB; edgeBC]
          (Some (RouteStats.mk 2 7 5)) (Some msgArrived) smallestJump false,
        Arrived)
  /\ exists stats first final,
      Some (RouteStats.mk 2 7 5) = Some stats
      /\ nth_error [edgeAB; edgeBC] 0 = Some first
      /\ nth_error [edgeAB; edgeBC] (length [edgeAB; edgeBC] - 1) = Some final
      /\ RouteEdge.endId final = Node.id nodeC
      /\ RouteStats.numEdges stats = length [edgeAB; edgeBC]
      /\ (1 <= RouteStats.numEdges stats)%nat
      /\ RouteStats.totalLength stats = sumLengths [edgeAB; edgeBC]
      /\ RouteStats.directDistance stats = straightLine first final
      /\ RouteStats.directDistance stats <= RouteStats.totalLength stats
      /\ (RouteStats.directDistance stats <> 0 -> 1 <= stretchRatio stats).
Proof.
  split; [exact I | split; [apply endsAt_nil | split; [exact smallestJump_run |]]].
  exact (proj1 (arrival_statistics triangleNeighbors (viewTriangle smallestJump)
                  [Hop 0; Hop 0]
                  (State.setSimulationStarted true (startedTriangle smallestJump))
                  nodeA nodeC _ Arrived I (endsAt_nil nodeA) smallestJump_run)
               eq_refl).
Defined.

(** ** Further scenarios *)

(** The state [inTransitTriangle] is the one reached by the first hop of
    the smallestJump run from [nodeA] to [nodeC]. *)
Example inTransitTriangle_reached :
  simulateRoutingStep triangleNeighbors (viewTriangle smallestJump) [Hop 0]
    (State.setSimulationStarted true (startedTriangle smallestJump))
    nodeA nodeC
  = (inTransitTriangle, InTransit nodeB).
Proof.
  cbn [simulateRoutingStep simulateRoutingStepIn viewTriangle Render.nodes Render.strategy Render.routeEdges].
  rewrite smallestJump_A_to_C. reflexivity.
Qed.

(** Scenario D: dragging [nodeA], which is on the route of the run in
    transit, cancels the run, when the gesture began in the render that
    shows this route. *)
Example drag_cancels_run :
  State.routeEdges (updateNodePosition [edgeAB] inTransitTriangle 1 50 50) = []
  /\ State.packet (updateNodePosition [edgeAB] inTransitTriangle 1 50 50) = None
  /\ State.finalMessage (updateNodePosition [edgeAB] inTransitTriangle 1 50 50)
     = Some msgReset
  /\ State.nodes (updateNodePosition [edgeAB] inTransitTriangle 1 50 50)
     = [Node.mk 1 50 50 "red"; nodeB; nodeC].
Proof.
  repeat split. rewrite updateNodePosition_nodes.
  rewrite clampX_inside, clampY_inside
    by (unfold baseRadius, svgWidth, svgHeight; lra).
  reflexivity.
Qed.

(** Dragging [nodeC], which the run has not reached yet, moves it and
    leaves the run alone; a request outside the canvas is clamped. *)
Example drag_off_route :
  updateNodePosition [edgeAB] inTransitTriangle 3 700 (-20)
  = State.setNodes [nodeA; nodeB; Node.mk 3 595 5 "red"] inTransitTriangle.
Proof.
  unfold updateNodePosition.
  change (onRoute 3 [edgeAB]) with false.
  cbv iota zeta.
  replace (clampX 700) with 595.
  2: { unfold clampX, baseRadius, svgWidth.
       rewrite Rmin_right by lra. rewrite Rmax_right by lra. lra. }
  replace (clampY (-20)) with 5.
  2: { unfold clampY, baseRadius, svgHeight.
       rewrite Rmin_left by lra. rewrite Rmax_left by lra. reflexivity. }
  reflexivity.
Qed.

(** A source with no partner: [nodeA] is red, the other active node is
    blue. *)
Example start_no_partner :
  startRoutingSimulation
    (State.mk [nodeA; nodeB; nodeE] None [] None None closestToDestination false)
    0 0
  = Some (State.mk [nodeA; nodeB; nodeE] None [] None
                   (Some (msgNoDestination "red")) closestToDestination false).
Proof. reflexivity. Qed.

(** Within a run, [getNextNode] reads the route of the render that started
    the run, which is empty, while the hops are appended to the live route.
    With the random strategy the hop from [nodeA] to [nodeB] can therefore be
    followed by the hop from [nodeB] back to [nodeA]. *)
Example random_run_reuses_edge :
  simulateRoutingStep triangleNeighbors (viewTriangle random) [Hop 0; Hop 1]
    (State.setSimulationStarted true (startedTriangle random))
    nodeA nodeC
  = (State.mk triangleNodes (Some (Packet.mk nodeA nodeC))
       [edgeAB; edgeBetween nodeB nodeA "red"] None (Some ""%string) random true,
     InTransit nodeA)
  /\ traversed [edgeAB] nodeB nodeA.
Proof.
  split; [reflexivity |].
  exists edgeAB. split; [left; reflexivity | right; split; reflexivity].
Qed.

(** A drag that resets the run, and the chain that follows.  The run goes
    from [nodeA] to [nodeC] with the random strategy.  After the hop to
    [nodeB], [nodeB] is dragged in a gesture that shows the route: the run
    is reset.  The hop in progress, back to [nodeA], still ends, and its
    edge starts the route anew; the chain ends there and the effect starts
    another one, in the render of that moment.  This render has the edge, so
    from [nodeA] the random strategy has [nodeC] only. *)
Example restart_after_reset :
  let run :=
    simulateRoutingStep triangleNeighbors (viewTriangle random)
      [Hop 0; Drag [edgeAB] 2 50 50; Hop 1; Hop 0]
      (State.setSimulationStarted true (startedTriangle random))
      nodeA nodeC in
  snd run = Arrived
  /\ State.routeEdges (fst run)
     = [edgeBetween nodeB nodeA "red"; edgeBetween nodeA nodeC "red"]
  /\ State.nodes (fst run)
     = [nodeA; Node.mk 2 (clampX 50) (clampY 50) "grey"; nodeC].
Proof. repeat split. Qed.

Lemma distance_KM : distance nodeK nodeM = 250.
Proof. unfold distance, nodeK, nodeM; cbn [Node.x Node.y]. apply sqrt_lem_1; lra. Qed.
Lemma distance_LM : distance nodeL nodeM = 200.
Proof. unfold distance, nodeL, nodeM; cbn [Node.x Node.y]. apply sqrt_lem_1; lra. Qed.
Lemma distance_MM : distance nodeM nodeM = 0.
Proof. unfold distance, nodeM; cbn [Node.x Node.y]. apply sqrt_lem_1; lra. Qed.
Lemma distance_KL : distance nodeK nodeL = 150.
Proof. unfold distance, nodeK, nodeL; cbn [Node.x Node.y]. apply sqrt_lem_1; lra. Qed.

(** With smallestJump the packet goes from [nodeK] to [nodeL] first. *)
Example smallestJump_K_to_M :
  getNextNode wideNeighbors wideNodes smallestJump [] 0 nodeK nodeM
  = Some nodeL.
Proof.
  rewrite getNextNode_select by (simpl; try lia; discriminate).
  change (candidatesOf wideNeighbors wideNodes nodeK) with [nodeL; nodeM].
  simpl.
  rewrite distance_LM, distance_MM, distance_KM.
  replace (Rltb 200 250) with true by (symmetry; apply Rltb_true; lra).
  replace (Rltb 0 250) with true by (symmetry; apply Rltb_true; lra).
  simpl. rewrite distance_KL, distance_KM.
  replace (Rltb 250 150) with false by (symmetry; apply Rltb_false; lra).
  reflexivity.
Qed.

(** C9, at the failing input.  The run goes from [nodeK] to [nodeM] with
    smallestJump.  A drag gesture on [nodeL] begins during the first hop,
    when the route is still empty, and moves [nodeL] to (300, 50) once the
    hop has ended: [nodeL] is then the end of the first segment of the
    route, but the handler of the gesture tests the route of the render in
    which the gesture began.  The route is not cleared, the packet and the
    message stay, and the segment no longer ends where [nodeL] is. *)
Theorem drag_with_stale_route_keeps_route :
  let run :=
    simulateRoutingStep wideNeighbors viewWide [Hop 0; Drag [] 52 300 50]
                        startedWide nodeK nodeM in
  snd run = InTransit nodeL
  /\ State.routeEdges (fst run) = [edgeKL]
  /\ onRoute 52 (State.routeEdges (fst run)) = true
  /\ State.packet (fst run) = Some (Packet.mk nodeL nodeM)
  /\ State.finalMessage (fst run) = Some ""%string
  /\ State.lastRouteStats (fst run) = None
  /\ State.simulationStarted (fst run) = true
  /\ State.nodes (fst run) = [nodeK; Node.mk 52 300 50 "grey"; nodeM]
  /\ RouteEdge.x2 edgeKL = 250
  /\ RouteEdge.y2 edgeKL = 100.
Proof.
  intros run.
  assert (Hrun : run
                 = (updateNodePosition []
                      (State.mk wideNodes (Some (Packet.mk nodeL nodeM))
                                [edgeKL] None (Some ""%string) smallestJump
                                true)
                      52 300 50,
                    InTransit nodeL)).
  { unfold run.
    cbn [simulateRoutingStep simulateRoutingStepIn viewWide Render.nodes
         Render.strategy Render.routeEdges].
    rewrite smallestJump_K_to_M. reflexivity. }
  rewrite Hrun. cbn [fst snd].
  repeat split.
  rewrite updateNodePosition_nodes.
  rewrite clampX_inside, clampY_inside
    by (unfold baseRadius, svgWidth, svgHeight; lra).
  reflexivity.
Qed.

(** ** The statistics in binary64 *)

Lemma distance_TT : distance nodeT nodeT = 0.
Proof.
  unfold distance, nodeT; cbn [Node.x Node.y]. apply sqrt_lem_1; lra.
Qed.

Example closest_P_to_T :
  getNextNode lineNeighbors lineNodes closestToDestination [] 0 nodeP nodeT
  = Some nodeQ.
Proof.
  rewrite getNextNode_select by (simpl; try lia; discriminate).
  change (candidatesOf lineNeighbors lineNodes nodeP) with [nodeQ; nodeX].
  simpl.
  replace (Rltb (distance nodeX nodeT) (distance nodeQ nodeT)) with false;
    [reflexivity |].
  symmetry. apply Rltb_false.
  unfold distance, nodeQ, nodeT, nodeX; cbn [Node.x Node.y].
  apply sqrt_le_1_alt. lra.
Qed.

Example closest_Q_to_T :
  getNextNode lineNeighbors lineNodes closestToDestination [] 0 nodeQ nodeT
  = Some nodeT.
Proof.
  rewrite getNextNode_select by (simpl; try lia; discriminate).
  change (candidatesOf lineNeighbors lineNodes nodeQ) with [nodeP; nodeT; nodeX].
  simpl. rewrite distance_TT.
  replace (Rltb 0 (distance nodeP nodeT)) with true.
  2: { symmetry. apply Rltb_true.
       unfold distance, nodeP, nodeT; cbn [Node.x Node.y].
       apply sqrt_lt_R0. lra. }
  simpl. rewrite distance_TT.
  replace (Rltb (distance nodeX nodeT) 0) with false;
    [reflexivity |].
  symmetry. apply Rltb_false. unfold distance. apply sqrt_pos.
Qed.

(** The run from [nodeP] to [nodeT] takes the straight route through
    [nodeQ]. *)
Example straight_run :
  simulateRoutingStep lineNeighbors viewLine [Hop 0; Hop 0] startedLine
                      nodeP nodeT
  = (State.mk lineNodes None [edgePQ; edgeQT]
       (Some (routeStats [edgePQ; edgeQT] edgeQT)) (Some msgArrived)
       closestToDestination false,
     Arrived).
Proof.
  cbn [simulateRoutingStep simulateRoutingStepIn viewLine Render.nodes Render.strategy Render.routeEdges].
  rewrite closest_P_to_T.
  cbn [nodeQ nodeT Node.id Z.eqb Pos.eqb].
  rewrite closest_Q_to_T.
  reflexivity.
Qed.

(** C3, the claim on the straight route: the run arrives after two hops,
    and the statistics that binary64 arithmetic gives for its route have a
    totalLength below the directDistance, and a ratio below 1.  In exact
    arithmetic the two are equal. *)
Lemma arrival_statistics_rounded_below :
  simulateRoutingStep lineNeighbors viewLine [Hop 0; Hop 0] startedLine
                      nodeP nodeT
  = (State.mk lineNodes None [edgePQ; edgeQT]
       (Some (routeStats [edgePQ; edgeQT] edgeQT)) (Some msgArrived)
       closestToDestination false,
     Arrived)
  /\ routeStats (num := float) [edgePQ; edgeQT] edgeQT
     = RouteStats.mk 2 0x1.ca2b9714180f6p+7%float   (* 229.08513701242163 *)
                       0x1.ca2b9714180f7p+7%float   (* 229.08513701242165 *)
  /\ PrimFloat.ltb
       (RouteStats.totalLength (routeStats (num := float) [edgePQ; edgeQT] edgeQT))
       (RouteStats.directDistance (routeStats (num := float) [edgePQ; edgeQT] edgeQT))
     = true
  /\ PrimFloat.ltb
       (stretchRatio (routeStats (num := float) [edgePQ; edgeQT] edgeQT))
       1%float
     = true.
Proof.
  split; [exact straight_run |].
  split; [vm_compute; reflexivity |].
  split; vm_compute; reflexivity.
Qed.

(** In exact arithmetic the straight route is as long as the straight line:
    16 times the square root of 205. *)
Example straight_run_exact :
  RouteStats.totalLength (routeStats (num := R) [edgePQ; edgeQT] edgeQT)
  = 16 * sqrt 205
  /\ RouteStats.directDistance (routeStats (num := R) [edgePQ; edgeQT] edgeQT)
     = 16 * sqrt 205.
Proof.
  pose proof (sqrt_pos 205) as Hpos.
  assert (Hsq : sqrt 205 * sqrt 205 = 205) by (apply sqrt_sqrt; lra).
  unfold routeStats, edgeLength, edgePQ, edgeQT.
  cbn [length Nat.sub nth fold_left RouteStats.totalLength
       RouteStats.directDistance RouteEdge.x1 RouteEdge.y1 RouteEdge.x2
       RouteEdge.y2].
  exact_arith.
  assert (H1 : sqrt ((446 - 524) ^ 2 + (312 - 348) ^ 2) = 6 * sqrt 205)
    by (apply sqrt_lem_1; nra).
  assert (H2 : sqrt ((316 - 446) ^ 2 + (252 - 312) ^ 2) = 10 * sqrt 205)
    by (apply sqrt_lem_1; nra).
  assert (H3 : sqrt ((524 - 316) ^ 2 + (348 - 252) ^ 2) = 16 * sqrt 205)
    by (apply sqrt_lem_1; nra).
  rewrite H1, H2, H3. split; lra.
Qed.

(** ** More on the geometry *)

(** X1. [distance] is never negative, does not depend on the order of its
    two nodes, and is zero exactly between two nodes at the same position,
    whatever their ids and colors. *)
Theorem distance_separates_positions (a b : Node) :
  0 <= distance a b
  /\ distance a b = distance b a
  /\ (distance a b = 0 <-> Node.x a = Node.x b /\ Node.y a = Node.y b).
Proof.
  split; [apply sqrt_pos |].
  split; [unfold distance; f_equal; ring |].
  unfold distance. cbv zeta. split.
  - intros H.
    set (dx := Node.x a - Node.x b) in *. set (dy := Node.y a - Node.y b) in *.
    assert (Hn : 0 <= dx * dx + dy * dy) by nra.
    apply (sqrt_eq_0 _ Hn) in H.
    assert (dx = 0 /\ dy = 0) as [Hx Hy] by (split; nra).
    unfold dx, dy in *. split; lra.
  - intros [-> ->]. replace (_ + _) with 0 by ring. apply sqrt_0.
Qed.

(** [Math.atan2] takes its values in [(-PI, PI]]. *)
Lemma atan2_range (y x : R) : - PI < atan2 y x <= PI.
Proof.
  pose proof PI_RGT_0 as Hpi. unfold atan2.
  destruct (Rltb 0 x) eqn:Ex.
  - pose proof (atan_bound (y / x)). lra.
  - destruct (Rltb x 0) eqn:Ex'.
    + apply Rltb_true in Ex'.
      pose proof (atan_bound (y / x)) as Hb.
      destruct (Rleb 0 y) eqn:Ey.
      * apply Rleb_true in Ey.
        assert (Hq : y / x <= 0).
        { unfold Rdiv. pose proof (Rinv_lt_0_compat x Ex'). nra. }
        assert (Ha : atan (y / x) <= 0).
        { destruct Hq as [Hq | Hq].
          - apply Rlt_le. rewrite <- atan_0. apply atan_increasing, Hq.
          - rewrite Hq, atan_0. lra. }
        lra.
      * apply Rleb_false in Ey.
        assert (Hq : 0 < y / x).
        { unfold Rdiv. replace (y * / x) with ((- y) * (- / x)) by ring.
          apply Rmult_lt_0_compat; [lra |].
          pose proof (Rinv_lt_0_compat x Ex'). lra. }
        assert (Ha : 0 < atan (y / x)).
        { rewrite <- atan_0. apply atan_increasing, Hq. }
        lra.
    + destruct (Rltb 0 y); [lra |]. destruct (Rltb y 0); lra.
Qed.

(** ** More on [getNextNode] *)

Lemma keepAngleCloser_keepSmaller (current : Node) (baselineAngle : R) :
  keepAngleCloser current baselineAngle
  = keepSmaller (fun n => angleDiff (bearing current n) baselineAngle).
Proof. reflexivity. Qed.

Lemma smallerAngle_keeps (best c : Angled.t) :
  smallerAngle best c
  = if Rltb (Angled.relativeAngle c) (Angled.relativeAngle best) then c else best.
Proof. reflexivity. Qed.

Lemma largerAngle_keeps (best c : Angled.t) :
  largerAngle best c
  = if Rltb (- Angled.relativeAngle c) (- Angled.relativeAngle best)
    then c else best.
Proof. unfold largerAngle. rewrite Rgtb_opp. reflexivity. Qed.

Lemma lookupAll_In {A : Type} (arr : list A) (idx : list nat) (a : A) :
  In a (lookupAll arr idx) <-> exists i, In i idx /\ nth_error arr i = Some a.
Proof.
  unfold lookupAll. rewrite in_flat_map. split.
  - intros (i & Hi & Ha). exists i. split; [exact Hi |].
    destruct (nth_error arr i) as [b |]; [| destruct Ha].
    destruct Ha as [-> | []]. reflexivity.
  - intros (i & Hi & Ha). exists i. split; [exact Hi |].
    rewrite Ha. left. reflexivity.
Qed.

(** What the [switch] returns is one of the candidates. *)
Lemma selectNextHop_In (strategy : Strategy) (routeEdges : list RouteEdge)
    (draw : nat) (current destination : Node) (candidates : list Node) (n : Node) :
  selectNextHop strategy routeEdges draw current destination candidates = Some n ->
  In n candidates.
Proof.
  destruct strategy; cbn [selectNextHop].
  - destruct candidates as [| a l]; [discriminate |]. intros H.
    destruct (keepSmaller_firstMin (fun c => distance c destination) (a :: l))
      as (m & Hm & Hmin); [discriminate |].
    rewrite Hm in H. injection H as <-. exact (firstMin_In _ _ _ _ Hmin).
  - rewrite keepAngleCloser_keepSmaller.
    destruct candidates as [| a l]; [discriminate |]. intros H.
    destruct (keepSmaller_firstMin
                (fun c => angleDiff (bearing current c) (bearing current destination))
                (a :: l)) as (m & Hm & Hmin); [discriminate |].
    rewrite Hm in H. injection H as <-. exact (firstMin_In _ _ _ _ Hmin).
  - set (valid := filter _ candidates).
    destruct valid as [| v l] eqn:Ev; [discriminate |].
    change (0 <? length (v :: l))%nat with true. cbv iota. intros H.
    destruct (keepSmaller_firstMin (fun c => distance current c) (v :: l))
      as (m & Hm & Hmin); [discriminate |].
    rewrite Hm in H. injection H as <-.
    pose proof (firstMin_In _ _ _ _ Hmin) as Hin.
    rewrite <- Ev in Hin. apply filter_In in Hin. tauto.
  - set (cwa := map (withAngle current (bearing current destination)) candidates).
    set (left := filter _ cwa).
    assert (Hitem : forall (l : list Angled.t) f item,
               reduce1 f l = Some item ->
               (forall x, In x l -> In x cwa) ->
               (exists key, forall best c,
                     f best c = if Rltb (key c) (key best) then c else best) ->
               In (Angled.candidate item) candidates).
    { intros l f item Hred Hsub (key & Hf).
      destruct l as [| a l']; [discriminate |].
      destruct (reduce1_firstMin _ key f Hf (a :: l')) as (m & Hm & Hmin);
        [discriminate |].
      rewrite Hm in Hred. injection Hred as <-.
      pose proof (Hsub _ (firstMin_In _ _ _ _ Hmin)) as Hin.
      unfold cwa in Hin. apply in_map_iff in Hin.
      destruct Hin as (c & <- & Hc). exact Hc. }
    destruct (0 <? length left)%nat.
    + destruct (reduce1 smallerAngle left) as [item |] eqn:Hred; [| discriminate].
      intros [= <-]. apply (Hitem left smallerAngle item Hred).
      * intros x Hx. unfold left in Hx. apply filter_In in Hx. tauto.
      * exists Angled.relativeAngle. exact smallerAngle_keeps.
    + destruct (reduce1 largerAngle cwa) as [item |] eqn:Hred; [| discriminate].
      intros [= <-]. apply (Hitem cwa largerAngle item Hred).
      * auto.
      * exists (fun c => - Angled.relativeAngle c). exact largerAngle_keeps.
  - destruct (0 <? length _)%nat; [| discriminate].
    intros H. apply nth_error_In, filter_In in H. tauto.
Qed.

Section MoreNextHop.

Variable D : list (R * R) -> Z -> list nat.

(** X2. Whatever the strategy, the history and the draw, a node that
    [getNextNode] returns is a triangulation neighbor of the current node:
    it is the node of the array at one of the neighbor indices, so a node of
    the array, and the array has three nodes or more.  Without a neighbor
    index the result is none. *)
Theorem getNextNode_returns_neighbor
    (nodes : list Node) (strategy : Strategy) (routeEdges : list RouteEdge)
    (draw : nat) (current destination : Node) :
  (forall n,
      getNextNode D nodes strategy routeEdges draw current destination = Some n ->
      (3 <= length nodes)%nat
      /\ In n nodes
      /\ exists i, In i (neighborIndices D nodes current)
                   /\ nth_error nodes i = Some n)
  /\ (neighborIndices D nodes current = [] ->
      getNextNode D nodes strategy routeEdges draw current destination = None).
Proof.
  unfold getNextNode. split.
  - intros n. destruct (Nat.ltb_spec (length nodes) 3) as [Hlt | Hge];
      [discriminate |].
    destruct (length (neighborIndices D nodes current) =? 0)%nat; [discriminate |].
    intros H. apply selectNextHop_In in H.
    unfold candidatesOf in H. apply lookupAll_In in H.
    destruct H as (i & Hi & Hn).
    split; [exact Hge | split]; [eapply nth_error_In, Hn | exists i; tauto].
  - intros ->. destruct (length nodes <? 3)%nat; reflexivity.
Qed.



End MoreNextHop.

(** ** The laws of the comparisons *)

#[export] Instance exactOrder : OrderLaws R.
Proof.
  split; unfold isNumber; cbn [nlt nle exactNumber].
  - intros a. apply Rltb_false. lra.
  - intros a b c H1 H2. apply Rltb_true in H1, H2. apply Rltb_true. lra.
  - intros a b _. split; apply Rleb_true; lra.
  - intros a b _ _ H. apply Rltb_false in H. apply Rleb_true. exact H.
  - intros a b H. apply Rleb_true in H. apply Rltb_false. exact H.
  - intros a b c H1 H2. apply Rltb_true in H1. apply Rleb_true in H2.
    apply Rltb_true. lra.
Qed.

Ltac compare_cases :=
  repeat match goal with
  | |- context [Z.compare ?a ?b] => destruct (Z.compare_spec a b)
  | H : context [Z.compare ?a ?b] |- _ => destruct (Z.compare_spec a b)
  | |- context [Pos.compare_cont Eq ?a ?b] =>
      change (Pos.compare_cont Eq a b) with (Pos.compare a b);
      destruct (Pos.compare_spec a b)
  | H : context [Pos.compare_cont Eq ?a ?b] |- _ =>
      change (Pos.compare_cont Eq a b) with (Pos.compare a b) in H;
      destruct (Pos.compare_spec a b)
  end.

Ltac spec_float_cases :=
  repeat match goal with
  | f : spec_float |- _ => destruct f
  end;
  repeat match goal with
  | s : bool |- _ => destruct s
  end;
  cbn [SFcompare CompOpp]; intros;
  try discriminate; try reflexivity;
  compare_cases; cbn [CompOpp] in *; subst;
  try discriminate; try reflexivity; try lia.

Lemma SFcompare_lt_trans (a b c : spec_float) :
  SFcompare a b = Some Lt -> SFcompare b c = Some Lt -> SFcompare a c = Some Lt.
Proof. spec_float_cases. Qed.

Lemma SFcompare_lt_eq_trans (a b c : spec_float) :
  SFcompare a b = Some Lt -> SFcompare b c = Some Eq -> SFcompare a c = Some Lt.
Proof. spec_float_cases. Qed.

Lemma SFcompare_irrefl (a : spec_float) : SFcompare a a <> Some Lt.
Proof. spec_float_cases. Qed.

Lemma SFcompare_swap (a b : spec_float) (c : comparison) :
  SFcompare a b = Some c -> SFcompare b a = Some (CompOpp c).
Proof. destruct c; spec_float_cases. Qed.

Lemma SFcompare_numbers (a b : spec_float) (c : comparison) :
  SFcompare a b = Some c ->
  SFcompare a a = Some Eq /\ SFcompare b b = Some Eq.
Proof. destruct c; split; revert H; spec_float_cases. Qed.

Lemma SFcompare_comparable (a b : spec_float) :
  SFcompare a a = Some Eq -> SFcompare b b = Some Eq ->
  exists c, SFcompare a b = Some c.
Proof.
  destruct a, b; cbn [SFcompare]; intros; try discriminate; eexists; reflexivity.
Qed.

Lemma SFltb_true (a b : spec_float) :
  SFltb a b = true <-> SFcompare a b = Some Lt.
Proof.
  unfold SFltb. destruct (SFcompare a b) as [[] |]; split; congruence.
Qed.

Lemma SFleb_true (a b : spec_float) :
  SFleb a b = true <-> SFcompare a b = Some Lt \/ SFcompare a b = Some Eq.
Proof.
  unfold SFleb. destruct (SFcompare a b) as [[] |]; split; intros H;
    try reflexivity; try discriminate; try tauto; destruct H; discriminate.
Qed.

Lemma SFleb_refl (a : spec_float) :
  SFleb a a = true <-> SFcompare a a = Some Eq.
Proof.
  rewrite SFleb_true. split; [| tauto].
  intros [H | H]; [destruct (SFcompare_irrefl a H) | exact H].
Qed.

#[export] Instance binary64Order : OrderLaws float.
Proof.
  split; unfold isNumber; cbn [nlt nle binary64Number]; intros a;
    [| intros b c | intros b | intros b | intros b | intros b c];
    rewrite ?FloatAxioms.ltb_spec, ?FloatAxioms.leb_spec.
  - destruct (SFltb (Prim2SF a) (Prim2SF a)) eqn:E; [| reflexivity].
    apply SFltb_true in E. destruct (SFcompare_irrefl _ E).
  - rewrite !SFltb_true. apply SFcompare_lt_trans.
  - rewrite SFltb_true, !SFleb_refl. apply SFcompare_numbers.
  - rewrite !SFleb_refl. intros Ha Hb Hlt.
    destruct (SFcompare_comparable _ _ Ha Hb) as (c & Hc).
    apply SFleb_true. destruct c; [tauto | tauto |].
    apply SFcompare_swap in Hc. cbn [CompOpp] in Hc.
    apply SFltb_true in Hc. congruence.
  - rewrite SFleb_true. intros H.
    destruct (SFltb (Prim2SF b) (Prim2SF a)) eqn:E; [| reflexivity].
    apply SFltb_true in E. apply SFcompare_swap in E. cbn [CompOpp] in E.
    destruct H; congruence.
  - rewrite !SFltb_true, SFleb_true. intros H1 [H2 | H2].
    + exact (SFcompare_lt_trans _ _ _ H1 H2).
    + exact (SFcompare_lt_eq_trans _ _ _ H1 H2).
Qed.

(** ** The reductions that keep a least element, in a lawful order *)

Section Least.

Variables (A : Type) (lt : A -> A -> bool) (f : A -> A -> A).
Hypothesis lt_irrefl : forall a, lt a a = false.
Hypothesis lt_trans :
  forall a b c, lt a b = true -> lt b c = true -> lt a c = true.
Hypothesis f_keeps :
  forall best c, f best c = if lt c best then c else best.

Lemma fold_keeps_In (l : list A) (a : A) : In (fold_left f l a) (a :: l).
Proof.
  revert a. induction l as [| c l IH]; intros a; [left; reflexivity |].
  cbn [fold_left]. rewrite f_keeps.
  destruct (lt c a); destruct (IH c) as [H | H], (IH a) as [H' | H'];
    cbn [In]; auto.
Qed.

Lemma fold_keeps_least (l : list A) (a c : A) :
  In c (a :: l) -> lt c (fold_left f l a) = false.
Proof.
  induction l as [| d l IH] using rev_ind.
  - intros [<- | []]. apply lt_irrefl.
  - rewrite fold_left_app. cbn [fold_left]. rewrite f_keeps.
    change (a :: l ++ [d]) with ((a :: l) ++ [d]).
    intros Hc. apply in_app_or in Hc.
    destruct (lt d (fold_left f l a)) eqn:E.
    + destruct Hc as [Hc | [<- | []]]; [| apply lt_irrefl].
      destruct (lt c d) eqn:Ec; [| reflexivity].
      rewrite <- (IH Hc). symmetry. exact (lt_trans _ _ _ Ec E).
    + destruct Hc as [Hc | [<- | []]]; [exact (IH Hc) | exact E].
Qed.

Variable ok : A -> Prop.
Hypothesis lt_neg :
  forall a b c, ok b -> lt a c = true -> lt b c = false -> lt a b = true.

Lemma fold_keeps_first (l : list A) (a : A) :
  (forall c, In c (a :: l) -> ok c) ->
  exists l1 l2,
    a :: l = l1 ++ fold_left f l a :: l2
    /\ (forall c, In c l1 -> lt (fold_left f l a) c = true)
    /\ (forall c, In c l2 -> lt c (fold_left f l a) = false).
Proof.
  induction l as [| d l IH] using rev_ind; intros Hok.
  - exists [], []. repeat split; intros c [].
  - rewrite fold_left_app. cbn [fold_left]. rewrite f_keeps.
    destruct IH as (l1 & l2 & Heq & H1 & H2).
    { intros c Hc. apply Hok.
      change (a :: l ++ [d]) with ((a :: l) ++ [d]).
      apply in_or_app. left. exact Hc. }
    change (a :: l ++ [d]) with ((a :: l) ++ [d]).
    destruct (lt d (fold_left f l a)) eqn:E.
    + exists (a :: l), []. split; [reflexivity | split; [| intros c []]].
      intros c Hc. rewrite Heq in Hc. apply in_app_or in Hc.
      destruct Hc as [Hc | [<- | Hc]].
      * exact (lt_trans _ _ _ E (H1 c Hc)).
      * exact E.
      * apply (lt_neg d c (fold_left f l a)); [| exact E | exact (H2 c Hc)].
        apply Hok.
        change (In c ((a :: l) ++ [d])). rewrite Heq.
        apply in_or_app. left. apply in_or_app. right. right. exact Hc.
    + exists l1, (l2 ++ [d]). split; [| split; [exact H1 |]].
      * rewrite Heq, <- app_assoc. reflexivity.
      * intros c Hc. apply in_app_or in Hc.
        destruct Hc as [Hc | [<- | []]]; [exact (H2 c Hc) | exact E].
Qed.

End Least.

Section MachineReductions.

Context {num : Type} {number : Number num} {laws : OrderLaws num}.

Lemma nlt_neg (a b c : num) :
  isNumber b = true -> nlt a c = true -> nlt b c = false -> nlt a b = true.
Proof.
  intros Hb Hac Hbc.
  destruct (nlt_numbers _ _ Hac) as [_ Hc].
  exact (nlt_nle_trans _ _ _ Hac (nle_total _ _ Hc Hb Hbc)).
Qed.

Lemma keepSmaller_fold (key : Node.t num -> num) (l : list (Node.t num))
    (a : Node.t num) :
  fold_left (Machine.keepSmaller key) l (Some a)
  = Some (fold_left (fun best c => if nlt (key c) (key best) then c else best)
                    l a).
Proof.
  revert a. induction l as [| c l IH]; intros a; cbn [fold_left];
    [reflexivity |].
  unfold Machine.keepSmaller at 2. destruct (nlt (key c) (key a)); apply IH.
Qed.

(** What the reduction with [keepSmaller] gives: an element that none
    undercuts; among numbers, the first of the least. *)
Lemma keepSmaller_least (key : Node.t num -> num) (l : list (Node.t num)) :
  l <> [] ->
  exists n,
    fold_left (Machine.keepSmaller key) l None = Some n
    /\ In n l
    /\ (forall c, In c l -> nlt (key c) (key n) = false)
    /\ ((forall c, In c l -> isNumber (key c) = true) ->
        firstLeast key l n
        /\ forall c, In c l -> nle (key n) (key c) = true).
Proof.
  destruct l as [| a l]; [congruence |]. intros _.
  cbn [fold_left]. unfold Machine.keepSmaller at 2. rewrite keepSmaller_fold.
  set (lt := fun x y : Node.t num => nlt (key x) (key y)).
  set (f := fun best c : Node.t num =>
              if nlt (key c) (key best) then c else best).
  assert (Hirr : forall x, lt x x = false) by (intros x; apply nlt_irrefl).
  assert (Htr : forall x y z, lt x y = true -> lt y z = true -> lt x z = true)
    by (intros x y z; apply nlt_trans).
  assert (Hf : forall best c, f best c = if lt c best then c else best)
    by reflexivity.
  exists (fold_left f l a). split; [reflexivity |].
  pose proof (fold_keeps_In _ lt f Hf l a) as Hin.
  pose proof (fold_keeps_least _ lt f Hirr Htr Hf l a) as Hleast.
  split; [exact Hin | split; [exact Hleast |]].
  intros Hnum.
  assert (Hle : forall c, In c (a :: l) ->
                          nle (key (fold_left f l a)) (key c) = true).
  { intros c Hc. apply nle_total; [apply Hnum, Hin | apply Hnum, Hc |].
    exact (Hleast c Hc). }
  split; [| exact Hle].
  destruct (fold_keeps_first _ lt f Htr Hf
              (fun x => isNumber (key x) = true)) with (l := l) (a := a)
    as (l1 & l2 & Heq & H1 & H2).
  { intros x y z. apply nlt_neg. }
  { exact Hnum. }
  exists l1, l2. split; [exact Heq | split; [exact H1 |]].
  intros c Hc. apply Hle. rewrite Heq. apply in_or_app. right. right. exact Hc.
Qed.

End MachineReductions.

(** ** The relative angle, in exact arithmetic *)


(** ** [getNextNode] in the arithmetic of the machine *)

Section MachineNextHop.

Context {num : Type} {arith : Arith num} {number : Number num}
        {trig : Atan2 num} {laws : OrderLaws num}.

(** The triangulation: any function from points and an index to indices. *)
Variable D : list (num * num) -> Z -> list nat.

Lemma machine_select (fuel : nat) (nodes : list (Node.t num))
    (strategy : Strategy) (routeEdges : list (RouteEdge.t num)) (draw : nat)
    (current destination : Node.t num) :
  (3 <= length nodes)%nat ->
  Machine.candidatesOf D nodes current <> [] ->
  Machine.getNextNode D fuel nodes strategy routeEdges draw current destination
  = Machine.selectNextHop fuel strategy routeEdges draw current destination
                          (Machine.candidatesOf D nodes current).
Proof.
  intros Hn Hc. unfold Machine.getNextNode.
  apply Nat.ltb_ge in Hn. rewrite Hn.
  unfold Machine.candidatesOf in Hc.
  destruct (Machine.neighborIndices D nodes current);
    [now contradiction Hc | reflexivity].
Qed.

(** C2. With the strategy closestToDestination, three nodes or more and a
    non-empty neighbor set, in the arithmetic of the machine.  The distance
    that is compared is the square root of the sum of the squares of the two
    coordinate differences, each operation done by the machine.
    [getNextNode] returns a neighbor, and no neighbor has a computed distance
    to the destination below that of the neighbor returned.  When the
    computed distances of the neighbors are numbers, the distance of the
    neighbor returned is at most that of every neighbor, and it is the first
    such neighbor in the enumeration order of the neighbors.  The result is
    the same at every invocation, whatever the route history and the random
    draw. *)
Theorem closestToDestination_first_least_computed
    (fuel : nat) (nodes : list (Node.t num))
    (routeEdges : list (RouteEdge.t num)) (draw : nat)
    (current destination : Node.t num) :
  (3 <= length nodes)%nat ->
  Machine.candidatesOf D nodes current <> [] ->
  (forall a b : Node.t num,
      Machine.distance a b
      = nsqrt (nadd (nmul (nsub (Node.x a) (Node.x b))
                          (nsub (Node.x a) (Node.x b)))
                    (nmul (nsub (Node.y a) (Node.y b))
                          (nsub (Node.y a) (Node.y b)))))
  /\ exists n,
      Machine.getNextNode D fuel nodes closestToDestination routeEdges draw
                          current destination
      = Machine.Next n
      /\ In n (Machine.candidatesOf D nodes current)
      /\ (forall c, In c (Machine.candidatesOf D nodes current) ->
                    nlt (Machine.distance c destination)
                        (Machine.distance n destination) = false)
      /\ ((forall c, In c (Machine.candidatesOf D nodes current) ->
                     isNumber (Machine.distance c destination) = true) ->
          (forall c, In c (Machine.candidatesOf D nodes current) ->
                     nle (Machine.distance n destination)
                         (Machine.distance c destination) = true)
          /\ firstLeast (fun c => Machine.distance c destination)
                        (Machine.candidatesOf D nodes current) n)
      /\ (forall fuel' routeEdges' draw',
            Machine.getNextNode D fuel' nodes closestToDestination
                                routeEdges' draw' current destination
            = Machine.Next n).
Proof.
  intros Hn Hc. split; [reflexivity |].
  destruct (keepSmaller_least (fun c => Machine.distance c destination) _ Hc)
    as (n & Hfold & Hin & Hleast & Hnum).
  assert (Hget : forall fuel' routeEdges' draw',
             Machine.getNextNode D fuel' nodes closestToDestination
                                 routeEdges' draw' current destination
             = Machine.Next n).
  { intros fuel' routeEdges' draw'. rewrite machine_select by assumption.
    cbn [Machine.selectNextHop]. rewrite Hfold. reflexivity. }
  exists n. split; [apply Hget | split; [exact Hin | split; [exact Hleast |]]].
  split; [| exact Hget].
  intros Hall. destruct (Hnum Hall) as [Hfirst Hle]. split; assumption.
Qed.

(** C1. With the strategy smallestJump, three nodes or more and a non-empty
    neighbor set, in the arithmetic of the machine.  The distance that is
    compared is the square root of the sum of the squares of the two
    coordinate differences, each operation done by the machine.  A neighbor
    is returned only if its computed distance to the destination is strictly
    below that of the current node, and then no neighbor with such a
    distance has a computed distance from the current node below that of the
    neighbor returned (among numbers: the distance of the neighbor returned
    is at most theirs); a neighbor is returned as soon as one has a computed
    distance to the destination strictly below that of the current node;
    and if none has, the result is none although neighbors exist. *)
Theorem smallestJump_computed_closer_and_shortest
    (fuel : nat) (nodes : list (Node.t num))
    (routeEdges : list (RouteEdge.t num)) (draw : nat)
    (current destination : Node.t num) :
  (3 <= length nodes)%nat ->
  Machine.candidatesOf D nodes current <> [] ->
  (forall a b : Node.t num,
      Machine.distance a b
      = nsqrt (nadd (nmul (nsub (Node.x a) (Node.x b))
                          (nsub (Node.x a) (Node.x b)))
                    (nmul (nsub (Node.y a) (Node.y b))
                          (nsub (Node.y a) (Node.y b)))))
  /\ (forall n,
        Machine.getNextNode D fuel nodes smallestJump routeEdges draw
                            current destination
        = Machine.Next n ->
        In n (Machine.candidatesOf D nodes current)
        /\ nlt (Machine.distance n destination)
               (Machine.distance current destination) = true
        /\ (forall c, In c (Machine.candidatesOf D nodes current) ->
                      nlt (Machine.distance c destination)
                          (Machine.distance current destination) = true ->
                      nlt (Machine.distance current c)
                          (Machine.distance current n) = false
                      /\ (isNumber (Machine.distance current c) = true ->
                          isNumber (Machine.distance current n) = true ->
                          nle (Machine.distance current n)
                              (Machine.distance current c) = true)))
  /\ ((exists c, In c (Machine.candidatesOf D nodes current)
                 /\ nlt (Machine.distance c destination)
                        (Machine.distance current destination) = true) ->
      exists n,
        Machine.getNextNode D fuel nodes smallestJump routeEdges draw
                            current destination
        = Machine.Next n)
  /\ ((forall c, In c (Machine.candidatesOf D nodes current) ->
                 nlt (Machine.distance c destination)
                     (Machine.distance current destination) = false) ->
      Machine.getNextNode D fuel nodes smallestJump routeEdges draw
                          current destination
      = Machine.NoNext)
  /\ Machine.getNextNode D fuel nodes smallestJump routeEdges draw
                         current destination
     <> Machine.Unfinished.
Proof.
  intros Hn Hc. split; [reflexivity |].
  rewrite machine_select by assumption. cbn [Machine.selectNextHop].
  set (closer := fun candidate : Node.t num =>
                   nlt (Machine.distance candidate destination)
                       (Machine.distance current destination)).
  assert (Hcloser :
            forall c, In c (filter closer (Machine.candidatesOf D nodes current))
                      <-> In c (Machine.candidatesOf D nodes current)
                          /\ nlt (Machine.distance c destination)
                                 (Machine.distance current destination)
                             = true).
  { intros c. rewrite filter_In. reflexivity. }
  destruct (filter closer (Machine.candidatesOf D nodes current))
    as [| v valid] eqn:Ev.
  - cbn [length Nat.ltb Nat.leb].
    split; [discriminate | split; [| split; [reflexivity | discriminate]]].
    intros (c & Hin & Hlt). exfalso. apply (proj2 (Hcloser c)). tauto.
  - change (0 <? length (v :: valid))%nat with true. cbv iota.
    destruct (keepSmaller_least (fun n => Machine.distance current n)
                (v :: valid)) as (n & Hfold & Hin & Hleast & _);
      [discriminate |].
    rewrite Hfold. cbn [Machine.outcomeOf].
    split; [| split; [| split; [| discriminate]]].
    + intros m [= <-]. apply Hcloser in Hin. destruct Hin as [Hin Hlt].
      split; [exact Hin | split; [exact Hlt |]].
      intros c Hcin Hclt.
      assert (Hcv : In c (v :: valid)) by (apply Hcloser; tauto).
      split; [exact (Hleast c Hcv) |].
      intros Hnc Hnn. apply nle_total; [exact Hnn | exact Hnc |].
      exact (Hleast c Hcv).
    + intros _. exists n. reflexivity.
    + intros Hnone. exfalso.
      assert (Hv : In v (v :: valid)) by (left; reflexivity).
      apply Hcloser in Hv. destruct Hv as [Hin' Hlt].
      rewrite (Hnone v Hin') in Hlt. discriminate.
Qed.

Lemma machine_keepAngleCloser (current : Node.t num) (baselineAngle : num) :
  Machine.keepAngleCloser current baselineAngle
  = Machine.keepSmaller
      (fun c => Machine.angleDiff (Machine.bearing current c) baselineAngle).
Proof. reflexivity. Qed.

(** X4. With the strategy angleClosest, three nodes or more and a neighbor,
    in the arithmetic of the machine.  The deviation of a neighbor is the
    absolute difference between its bearing and the bearing of the
    destination, both given by [Math.atan2], replaced by [2 * Math.PI] minus
    itself when it is above [Math.PI].  [getNextNode] returns a neighbor,
    and no neighbor has a computed deviation below that of the neighbor
    returned; when the computed deviations are numbers, it is the first
    neighbor of least computed deviation. *)
Theorem angleClosest_first_least_computed_deviation
    (fuel : nat) (nodes : list (Node.t num))
    (routeEdges : list (RouteEdge.t num)) (draw : nat)
    (current destination : Node.t num) :
  (3 <= length nodes)%nat ->
  Machine.candidatesOf D nodes current <> [] ->
  (forall c : Node.t num,
      Machine.deviationOf current destination c
      = let diff :=
          nabs (nsub (natan2 (nsub (Node.y c) (Node.y current))
                             (nsub (Node.x c) (Node.x current)))
                     (natan2 (nsub (Node.y destination) (Node.y current))
                             (nsub (Node.x destination) (Node.x current)))) in
        if nlt npi diff then nsub (nmul (ofZ 2) npi) diff else diff)
  /\ exists n,
      Machine.getNextNode D fuel nodes angleClosest routeEdges draw
                          current destination
      = Machine.Next n
      /\ In n (Machine.candidatesOf D nodes current)
      /\ (forall c, In c (Machine.candidatesOf D nodes current) ->
                    nlt (Machine.deviationOf current destination c)
                        (Machine.deviationOf current destination n) = false)
      /\ ((forall c, In c (Machine.candidatesOf D nodes current) ->
                     isNumber (Machine.deviationOf current destination c)
                     = true) ->
          (forall c, In c (Machine.candidatesOf D nodes current) ->
                     nle (Machine.deviationOf current destination n)
                         (Machine.deviationOf current destination c) = true)
          /\ firstLeast (Machine.deviationOf current destination)
                        (Machine.candidatesOf D nodes current) n).
Proof.
  intros Hn Hc. split; [reflexivity |].
  rewrite machine_select by assumption. cbn [Machine.selectNextHop].
  rewrite machine_keepAngleCloser.
  destruct (keepSmaller_least (Machine.deviationOf current destination) _ Hc)
    as (n & Hfold & Hin & Hleast & Hnum).
  exists n. unfold Machine.deviationOf in Hfold at 1. rewrite Hfold.
  split; [reflexivity | split; [exact Hin | split; [exact Hleast |]]].
  intros Hall. destruct (Hnum Hall) as [Hfirst Hle]. split; assumption.
Qed.





End MachineNextHop.

(** ** The scenarios in binary64 *)

Lemma distance_V_U :
  Machine.distance nodeV nodeU = 0x1.dac2fb6dcf106p+7%float.
Proof. vm_compute. reflexivity. Qed.

Lemma distance_Y_U :
  Machine.distance nodeY nodeU = 0x1.dac2fb6dcf105p+7%float.
Proof. vm_compute. reflexivity. Qed.

Example closest_Z_to_U :
  Machine.getNextNode (trig := binary64Atan2 turnAtan2) roundingNeighbors 0
    roundingNodes closestToDestination [] 0 nodeZ nodeU
  = Machine.Next nodeY.
Proof. vm_compute. reflexivity. Qed.

Example smallestJump_V_to_U :
  Machine.getNextNode (trig := binary64Atan2 turnAtan2) roundingNeighbors 0
    roundingNodes smallestJump [] 0 nodeV nodeU
  = Machine.Next nodeY.
Proof. vm_compute. reflexivity. Qed.

Ltac real_values :=
  repeat match goal with
  | |- context [realOf ?f] =>
      let v := eval vm_compute in (ratOf f) in
      replace (realOf f) with (IZR (fst v) / IZR (snd v))
        by (unfold realOf; replace (ratOf f) with v by (vm_compute; reflexivity);
            reflexivity);
      cbn [fst snd]
  end.

(** In the real plane [nodeV] is nearer to [nodeU] than [nodeY] is. *)
Lemma exact_V_nearer_than_Y :
  distance (realNode nodeV) (realNode nodeU)
  < distance (realNode nodeY) (realNode nodeU).
Proof.
  unfold distance, realNode, nodeU, nodeV, nodeY. cbn [Node.x Node.y].
  apply sqrt_lt_1_alt. real_values. split; [nra | lra].
Qed.

Lemma Permutation_three {A : Type} (a b c : A) (l : list A) :
  Permutation [a; b; c] l ->
  l = [a; b; c] \/ l = [a; c; b] \/ l = [b; a; c]
  \/ l = [b; c; a] \/ l = [c; a; b] \/ l = [c; b; a].
Proof.
  intros H.
  destruct (Permutation_vs_cons_inv (Permutation_sym H)) as (l1 & l2 & ->).
  apply Permutation_cons_app_inv in H. apply Permutation_length_2_inv in H.
  destruct l1 as [| x [| y [| z l1]]]; cbn [app] in H |- *;
    destruct H as [H | H]; try discriminate H.
  - rewrite <- H. tauto.
  - rewrite <- H. tauto.
  - injection H as <- <-. tauto.
  - injection H as <- <-. tauto.
  - injection H as <- <- ->. tauto.
  - injection H as <- <- ->. tauto.
Qed.

(** C2 at the four nodes in binary64, from [nodeZ] towards [nodeU]: the
    neighbor returned is [nodeY], whose computed distance to [nodeU],
    237.38082450058587, is below the 237.3808245005859 of [nodeV]. *)
Lemma closestToDestination_first_least_computed_witness :
  (3 <= length roundingNodes)%nat
  /\ Machine.candidatesOf roundingNeighbors roundingNodes nodeZ <> []
  /\ Machine.getNextNode (trig := binary64Atan2 turnAtan2) roundingNeighbors 0
       roundingNodes closestToDestination [] 0 nodeZ nodeU
     = Machine.Next nodeY
  /\ Machine.distance nodeY nodeU = 0x1.dac2fb6dcf105p+7%float
  /\ Machine.distance nodeV nodeU = 0x1.dac2fb6dcf106p+7%float
  /\ (forall c,
        In c (Machine.candidatesOf roundingNeighbors roundingNodes nodeZ) ->
        PrimFloat.leb (Machine.distance nodeY nodeU) (Machine.distance c nodeU)
        = true)
  /\ firstLeast (fun c => Machine.distance c nodeU)
                (Machine.candidatesOf roundingNeighbors roundingNodes nodeZ)
                nodeY.
Proof.
  assert (H3 : (3 <= length roundingNodes)%nat) by (simpl; lia).
  assert (Hc : Machine.candidatesOf roundingNeighbors roundingNodes nodeZ <> [])
    by discriminate.
  destruct (closestToDestination_first_least_computed
              (trig := binary64Atan2 turnAtan2) roundingNeighbors 0%nat
              roundingNodes [] 0%nat nodeZ nodeU H3 Hc)
    as (_ & n & Hget & _ & _ & Hnum & _).
  assert (Hn : n = nodeY).
  { rewrite closest_Z_to_U in Hget. injection Hget as <-. reflexivity. }
  rewrite Hn in Hnum.
  destruct Hnum as [Hle Hfirst].
  { intros c [<- | [<- | []]]; vm_compute; reflexivity. }
  split; [exact H3 | split; [exact Hc |]].
  split; [exact closest_Z_to_U |].
  split; [exact distance_Y_U | split; [exact distance_V_U |]].
  split; [exact Hle | exact Hfirst].
Defined.

(** C2, the claim at the four nodes: from [nodeZ] towards [nodeU] the code
    returns [nodeY], although the other neighbor, [nodeV], is nearer to
    [nodeU] in the plane; and it does so whatever the order in which the two
    neighbors are enumerated. *)
Lemma closestToDestination_returns_farther :
  Machine.getNextNode (trig := binary64Atan2 turnAtan2) roundingNeighbors 0
    roundingNodes closestToDestination [] 0 nodeZ nodeU
  = Machine.Next nodeY
  /\ In nodeV (Machine.candidatesOf roundingNeighbors roundingNodes nodeZ)
  /\ distance (realNode nodeV) (realNode nodeU)
     < distance (realNode nodeY) (realNode nodeU)
  /\ (forall candidates,
        Permutation [nodeV; nodeY] candidates ->
        Machine.selectNextHop (trig := binary64Atan2 turnAtan2) 0
          closestToDestination [] 0 nodeZ nodeU candidates
        = Machine.Next nodeY).
Proof.
  split; [exact closest_Z_to_U |].
  split; [left; reflexivity |].
  split; [exact exact_V_nearer_than_Y |].
  intros candidates H. apply Permutation_length_2_inv in H.
  destruct H as [-> | ->]; vm_compute; reflexivity.
Qed.

(** C1 at the four nodes in binary64, from [nodeV] towards [nodeU]: the
    neighbor returned is [nodeY], whose computed distance to [nodeU],
    237.38082450058587, is below the 237.3808245005859 of [nodeV], and which
    is the nearest to [nodeV] of the two neighbors with such a distance. *)
Lemma smallestJump_computed_closer_and_shortest_witness :
  (3 <= length roundingNodes)%nat
  /\ Machine.candidatesOf roundingNeighbors roundingNodes nodeV <> []
  /\ Machine.getNextNode (trig := binary64Atan2 turnAtan2) roundingNeighbors 0
       roundingNodes smallestJump [] 0 nodeV nodeU
     = Machine.Next nodeY
  /\ Machine.distance nodeY nodeU = 0x1.dac2fb6dcf105p+7%float
  /\ Machine.distance nodeV nodeU = 0x1.dac2fb6dcf106p+7%float
  /\ Machine.distance nodeV nodeY = 0x1.676029d48d143p+3%float
  /\ PrimFloat.ltb (Machine.distance nodeY nodeU) (Machine.distance nodeV nodeU)
     = true
  /\ (forall c,
        In c (Machine.candidatesOf roundingNeighbors roundingNodes nodeV) ->
        PrimFloat.ltb (Machine.distance c nodeU) (Machine.distance nodeV nodeU)
        = true ->
        PrimFloat.ltb (Machine.distance nodeV c) (Machine.distance nodeV nodeY)
        = false).
Proof.
  assert (H3 : (3 <= length roundingNodes)%nat) by (simpl; lia).
  assert (Hc : Machine.candidatesOf roundingNeighbors roundingNodes nodeV <> [])
    by discriminate.
  destruct (smallestJump_computed_closer_and_shortest
              (trig := binary64Atan2 turnAtan2) roundingNeighbors 0%nat
              roundingNodes [] 0%nat nodeV nodeU H3 Hc)
    as (_ & Hret & _).
  destruct (Hret nodeY smallestJump_V_to_U) as (_ & Hcloser & Hshort).
  split; [exact H3 | split; [exact Hc |]].
  split; [exact smallestJump_V_to_U |].
  split; [exact distance_Y_U | split; [exact distance_V_U |]].
  split; [vm_compute; reflexivity |].
  split; [exact Hcloser |].
  intros c Hin Hlt. exact (proj1 (Hshort c Hin Hlt)).
Defined.

(** C1, the claim at the four nodes: from [nodeV] towards [nodeU] the code
    returns [nodeY], which in the plane is farther from [nodeU] than [nodeV]
    is; and it does so whatever the order in which the three neighbors are
    enumerated. *)
Lemma smallestJump_returns_farther :
  Machine.getNextNode (trig := binary64Atan2 turnAtan2) roundingNeighbors 0
    roundingNodes smallestJump [] 0 nodeV nodeU
  = Machine.Next nodeY
  /\ distance (realNode nodeV) (realNode nodeU)
     < distance (realNode nodeY) (realNode nodeU)
  /\ (forall candidates,
        Permutation [nodeU; nodeY; nodeZ] candidates ->
        Machine.selectNextHop (trig := binary64Atan2 turnAtan2) 0
          smallestJump [] 0 nodeV nodeU candidates
        = Machine.Next nodeY).
Proof.
  split; [exact smallestJump_V_to_U |].
  split; [exact exact_V_nearer_than_Y |].
  intros candidates H. apply Permutation_three in H.
  destruct H as [-> | [-> | [-> | [-> | [-> | ->]]]]]; vm_compute; reflexivity.
Qed.

(** *** The half turn *)
















Example angleClosest_G_to_I :
  Machine.getNextNode (trig := binary64Atan2 turnAtan2) turnNeighbors 0
    turnNodes angleClosest [] 0 nodeG nodeI
  = Machine.Next nodeI.
Proof. vm_compute. reflexivity. Qed.

(** X4 at the half turn in binary64, from [nodeG] towards [nodeI]: the
    computed deviations of [nodeH], [nodeI] and [nodeJ] are
    3.1415926535897927, 0 and 1.5582969777755349, and the neighbor returned
    is [nodeI]. *)
Lemma angleClosest_first_least_computed_deviation_witness :
  (3 <= length (turnNodes (num := float)))%nat
  /\ Machine.candidatesOf turnNeighbors turnNodes (nodeG (num := float)) <> []
  /\ Machine.getNextNode (trig := binary64Atan2 turnAtan2) turnNeighbors 0
       turnNodes angleClosest [] 0 nodeG nodeI
     = Machine.Next nodeI
  /\ map (Machine.deviationOf (trig := binary64Atan2 turnAtan2) nodeG nodeI)
         [nodeH; nodeI; nodeJ]
     = [0x1.921fb54442d17p+1; 0; 0x1.8eec8cfd00665p+0]%float
  /\ firstLeast (Machine.deviationOf (trig := binary64Atan2 turnAtan2)
                                     nodeG nodeI)
                (Machine.candidatesOf turnNeighbors turnNodes nodeG) nodeI.
Proof.
  assert (H3 : (3 <= length (turnNodes (num := float)))%nat) by (simpl; lia).
  assert (Hc : Machine.candidatesOf turnNeighbors turnNodes
                 (nodeG (num := float)) <> []) by discriminate.
  destruct (angleClosest_first_least_computed_deviation
              (trig := binary64Atan2 turnAtan2) turnNeighbors 0%nat
              turnNodes [] 0%nat nodeG nodeI H3 Hc)
    as (_ & n & Hget & _ & _ & Hnum).
  assert (Hn : n = nodeI).
  { rewrite angleClosest_G_to_I in Hget. injection Hget as <-. reflexivity. }
  rewrite Hn in Hnum.
  destruct Hnum as [_ Hfirst].
  { intros c [<- | [<- | [<- | []]]]; vm_compute; reflexivity. }
  split; [exact H3 | split; [exact Hc |]].
  split; [exact angleClosest_G_to_I |].
  split; [vm_compute; reflexivity | exact Hfirst].
Defined.

(** ** The exact model is the machine model in exact arithmetic *)

Lemma Rgtb_Rltb (a b : R) : Rgtb a b = Rltb b a.
Proof.
  destruct (Rgtb a b) eqn:E; symmetry.
  - apply Rgtb_true in E. apply Rltb_true. exact E.
  - apply Rgtb_false in E. apply Rltb_false. exact E.
Qed.

Lemma exact_distance (a b : Node) : Machine.distance a b = distance a b.
Proof. reflexivity. Qed.

Lemma exact_bearing (current n : Node) :
  Machine.bearing current n = bearing current n.
Proof. reflexivity. Qed.

Lemma exact_angleDiff (a b : R) : Machine.angleDiff a b = angleDiff a b.
Proof.
  unfold Machine.angleDiff, angleDiff, Machine.twoPi.
  cbn [nlt nabs nsub nmul ofZ npi exactNumber exactArith].
  rewrite Rgtb_Rltb. reflexivity.
Qed.

Lemma exact_normalizeAngle (a : R) :
  - (2 * PI) < a < 2 * PI ->
  Machine.normalizeAngle 2 a = Some (normalizeAngle a).
Proof.
  intros Ha. pose proof PI_RGT_0 as Hpi.
  unfold Machine.normalizeAngle, Machine.raiseAngle, Machine.lowerAngle,
    Machine.twoPi.
  cbn [nsub nadd nmul ofZ nle nlt nneg npi exactArith exactNumber].
  destruct (Rleb a (- PI)) eqn:E1.
  - apply Rleb_true in E1.
    replace (Rleb (a + 2 * PI) (- PI)) with false
      by (symmetry; apply Rleb_false; lra).
    replace (Rltb PI (a + 2 * PI)) with false
      by (symmetry; apply Rltb_false; lra).
    rewrite normalizeAngle_raise by lra. reflexivity.
  - apply Rleb_false in E1.
    destruct (Rltb PI a) eqn:E2.
    + apply Rltb_true in E2.
      replace (Rltb PI (a - 2 * PI)) with false
        by (symmetry; apply Rltb_false; lra).
      rewrite normalizeAngle_lower by lra. reflexivity.
    + apply Rltb_false in E2. rewrite normalizeAngle_id by lra. reflexivity.
Qed.

(** An item of [firstLeft] of the exact model, as an item of the machine
    model. *)
Lemma exact_withAngles (current destination : Node) (candidates : list Node) :
  Machine.withAngles 2 current (Machine.bearing current destination) candidates
  = Some (map (fun item => Machine.mkAngled (Angled.candidate item)
                                             (Angled.relativeAngle item))
              (map (withAngle current (bearing current destination))
                   candidates)).
Proof.
  induction candidates as [| c candidates IH]; [reflexivity |].
  cbn [Machine.withAngles map]. rewrite IH.
  unfold Machine.withAngle, withAngle.
  cbn [Angled.candidate Angled.relativeAngle].
  rewrite exact_normalizeAngle; [reflexivity |].
  pose proof (atan2_range (Node.y c - Node.y current)
                          (Node.x c - Node.x current)).
  pose proof (atan2_range (Node.y destination - Node.y current)
                          (Node.x destination - Node.x current)).
  unfold Machine.bearing.
  cbn [natan2 exactAtan2 nsub exactArith]. lra.
Qed.

Lemma filter_map_items {A B : Type} (g : A -> B) (p : B -> bool) (l : list A) :
  filter p (map g l) = map g (filter (fun a => p (g a)) l).
Proof.
  induction l as [| a l IH]; [reflexivity |].
  cbn [map filter]. destruct (p (g a)); cbn [map]; rewrite IH; reflexivity.
Qed.

Lemma reduce1_map_items {A B : Type} (g : A -> B) (f : A -> A -> A)
    (F : B -> B -> B) (l : list A) :
  (forall a b, F (g a) (g b) = g (f a b)) ->
  reduce1 F (map g l) = option_map g (reduce1 f l).
Proof.
  intros H. destruct l as [| a l]; [reflexivity |].
  cbn [map reduce1 option_map]. f_equal.
  revert a. induction l as [| b l IH]; intros a; [reflexivity |].
  cbn [map fold_left]. rewrite H. apply IH.
Qed.

Lemma fold_left_same {A B : Type} (f g : A -> B -> A) (l : list B) (a : A) :
  (forall x y, f x y = g x y) -> fold_left f l a = fold_left g l a.
Proof.
  intros H. revert a. induction l as [| b l IH]; intros a; [reflexivity |].
  cbn [fold_left]. rewrite H. apply IH.
Qed.

Lemma outcomeOf_if {num : Type} (b : bool) (x : option (Node.t num)) :
  (if b then Machine.outcomeOf x else Machine.NoNext)
  = Machine.outcomeOf (if b then x else None).
Proof. destruct b; reflexivity. Qed.

Lemma exact_firstLeft (items : list Angled.t) :
  (let candidatesWithAngle :=
     map (fun item => Machine.mkAngled (Angled.candidate item)
                                       (Angled.relativeAngle item)) items in
   let leftCandidates :=
     filter (fun c => nlt (ofZ 0) (Machine.relativeAngle c))
            candidatesWithAngle in
   if (0 <? length leftCandidates)%nat
   then Machine.outcomeOf
          (option_map Machine.candidate
                      (reduce1 Machine.smallerAngle leftCandidates))
   else Machine.outcomeOf
          (option_map Machine.candidate
                      (reduce1 Machine.largerAngle candidatesWithAngle)))
  = Machine.outcomeOf
      (let leftCandidates :=
         filter (fun c => Rgtb (Angled.relativeAngle c) 0) items in
       if (0 <? length leftCandidates)%nat
       then option_map Angled.candidate (reduce1 smallerAngle leftCandidates)
       else option_map Angled.candidate (reduce1 largerAngle items)).
Proof.
  cbv zeta.
  rewrite (filter_ext (fun c : Angled.t => Rgtb (Angled.relativeAngle c) 0)
                      (fun c : Angled.t => Rltb 0 (Angled.relativeAngle c)))
    by (intros c; apply Rgtb_Rltb).
  rewrite filter_map_items. cbn [Machine.relativeAngle nlt ofZ exactNumber
                                 exactArith].
  rewrite length_map.
  set (leftCandidates :=
         filter (fun c : Angled.t => Rltb 0 (Angled.relativeAngle c)) items).
  destruct (0 <? length leftCandidates)%nat.
  - rewrite (reduce1_map_items _ smallerAngle).
    + destruct (reduce1 smallerAngle leftCandidates); reflexivity.
    + intros a b. unfold Machine.smallerAngle, smallerAngle.
      cbn [Machine.relativeAngle nlt exactNumber].
      destruct (Rltb _ _); reflexivity.
  - rewrite (reduce1_map_items _ largerAngle).
    + destruct (reduce1 largerAngle items); reflexivity.
    + intros a b. unfold Machine.largerAngle, largerAngle.
      cbn [Machine.relativeAngle nlt exactNumber].
      rewrite Rgtb_Rltb. destruct (Rltb _ _); reflexivity.
Qed.

Lemma exact_selectNextHop (strategy : Strategy) (routeEdges : list RouteEdge)
    (draw : nat) (current destination : Node) (candidates : list Node) :
  Machine.selectNextHop 2 strategy routeEdges draw current destination
                        candidates
  = Machine.outcomeOf
      (selectNextHop strategy routeEdges draw current destination candidates).
Proof.
  destruct strategy; cbn [Machine.selectNextHop selectNextHop]; cbv zeta.
  - reflexivity.
  - f_equal. apply fold_left_same. intros best c.
    unfold Machine.keepAngleCloser, keepAngleCloser.
    destruct best as [b |]; [| reflexivity].
    rewrite !exact_angleDiff. reflexivity.
  - apply (outcomeOf_if (num := R)).
  - rewrite exact_withAngles.
    apply (exact_firstLeft
             (map (withAngle current (bearing current destination))
                  candidates)).
  - apply (outcomeOf_if (num := R)).
Qed.

Section ExactModel.

Variable D : list (R * R) -> Z -> list nat.

(** In exact arithmetic, and with one iteration allowed to each loop of
    [firstLeft], the [getNextNode] of the machine model is the [getNextNode]
    of the exact model, which the runs use. *)
Theorem exact_getNextNode (nodes : list Node) (strategy : Strategy)
    (routeEdges : list RouteEdge) (draw : nat) (current destination : Node) :
  Machine.getNextNode D 2 nodes strategy routeEdges draw current destination
  = Machine.outcomeOf
      (getNextNode D nodes strategy routeEdges draw current destination).
Proof.
  change (Machine.getNextNode D 2 nodes strategy routeEdges draw
                              current destination)
    with (if (length nodes <? 3)%nat then Machine.NoNext
          else if (length (neighborIndices D nodes current) =? 0)%nat
               then Machine.NoNext
               else Machine.selectNextHop 2 strategy routeEdges draw current
                      destination (candidatesOf D nodes current)).
  unfold getNextNode.
  destruct (length nodes <? 3)%nat; [reflexivity |].
  destruct (length (neighborIndices D nodes current) =? 0)%nat;
    [reflexivity |].
  apply exact_selectNextHop.
Qed.

End ExactModel.

Lemma distance_self (a : Node) : distance a a = 0.
Proof.
  unfold distance. cbv zeta.
  replace (_ + _) with 0 by ring. apply sqrt_0.
Qed.

Lemma distance_zero_position (a b : Node) :
  distance a b = 0 -> Node.x a = Node.x b /\ Node.y a = Node.y b.
Proof.
  unfold distance. cbv zeta. intros H.
  set (dx := Node.x a - Node.x b) in *. set (dy := Node.y a - Node.y b) in *.
  assert (Hn : 0 <= dx * dx + dy * dy) by nra.
  apply (sqrt_eq_0 _ Hn) in H.
  assert (dx = 0 /\ dy = 0) as [Hx Hy] by (split; nra).
  unfold dx, dy in *. split; lra.
Qed.

(** A hop of smallestJump goes to a node of the array that is strictly
    closer to the destination. *)
Section MoreRuns.

Variable D : list (R * R) -> Z -> list nat.

(** X5. With closestToDestination, three nodes or more and the destination
    among the neighbors, the node returned is at the position of the
    destination; and when no other neighbor is at that position, the first hop
    of a run in this render arrives: it appends one edge and ends the run. *)
Theorem closestToDestination_reaches_adjacent
    (nodes : list Node) (routeEdges : list RouteEdge) (draw : nat)
    (current destination : Node) :
  (3 <= length nodes)%nat ->
  In destination (candidatesOf D nodes current) ->
  exists n,
    getNextNode D nodes closestToDestination routeEdges draw current destination
    = Some n
    /\ distance n destination = 0
    /\ Node.x n = Node.x destination /\ Node.y n = Node.y destination
    /\ ((forall c, In c (candidatesOf D nodes current) ->
                   Node.x c = Node.x destination ->
                   Node.y c = Node.y destination ->
                   Node.id c = Node.id destination) ->
        forall view live events,
          Render.nodes view = nodes ->
          Render.strategy view = closestToDestination ->
          simulateRoutingStep D view (Hop draw :: events) live
                              current destination
          = (arrive (appendEdge view live current n destination), Arrived)
          /\ length (State.routeEdges
                       (arrive (appendEdge view live current n destination)))
             = S (length (State.routeEdges live))).
Proof.
  intros Hn Hin.
  assert (Hc : candidatesOf D nodes current <> []).
  { intros E. rewrite E in Hin. exact Hin. }
  destruct (keepSmaller_firstMin (fun c => distance c destination) _ Hc)
    as (n & Hfold & Hmin).
  assert (Hget : forall re d,
             getNextNode D nodes closestToDestination re d current destination
             = Some n).
  { intros re d. rewrite getNextNode_select by assumption. exact Hfold. }
  assert (H0 : distance n destination = 0).
  { pose proof (firstMin_le _ _ _ _ _ Hmin Hin) as Hle.
    cbv beta in Hle. rewrite distance_self in Hle.
    pose proof (sqrt_pos ((Node.x n - Node.x destination)
                          * (Node.x n - Node.x destination)
                          + (Node.y n - Node.y destination)
                            * (Node.y n - Node.y destination))) as Hp.
    unfold distance in *. cbv zeta in *. lra. }
  destruct (distance_zero_position _ _ H0) as [Hx Hy].
  exists n. split; [apply Hget | split; [exact H0 | split; [exact Hx |]]].
  split; [exact Hy |].
  intros Hid view live events Hv Hs.
  assert (Hnid : Node.id n = Node.id destination).
  { apply Hid; [exact (firstMin_In _ _ _ _ Hmin) | exact Hx | exact Hy]. }
  rewrite simulateRoutingStep_hop, Hv, Hs, Hget.
  apply Z.eqb_eq in Hnid. rewrite Hnid. split; [reflexivity |].
  cbn [arrive State.routeEdges State.setSimulationStarted State.setPacket
       State.setFinalMessage].
  rewrite appendEdge_route, length_app. simpl. lia.
Qed.

End MoreRuns.

(** ** More on the runs *)

Lemma moveNode_id (id : Z) (cx cy : R) (n : Node) :
  Node.id (moveNode id cx cy n) = Node.id n.
Proof. unfold moveNode. destruct (Z.eqb (Node.id n) id); reflexivity. Qed.

Lemma moveNode_color (id : Z) (cx cy : R) (n : Node) :
  Node.color (moveNode id cx cy n) = Node.color n.
Proof. unfold moveNode. destruct (Z.eqb (Node.id n) id); reflexivity. Qed.

Lemma updateNodePosition_ids_colors (routeEdges : list RouteEdge)
    (s : State) (id : Z) (x y : R) :
  map Node.id (State.nodes (updateNodePosition routeEdges s id x y))
  = map Node.id (State.nodes s)
  /\ map Node.color (State.nodes (updateNodePosition routeEdges s id x y))
     = map Node.color (State.nodes s)
  /\ State.strategy (updateNodePosition routeEdges s id x y) = State.strategy s.
Proof.
  rewrite updateNodePosition_nodes, !map_map. repeat split.
  - apply map_ext. intros n. apply moveNode_id.
  - apply map_ext. intros n. apply moveNode_color.
  - unfold updateNodePosition.
    destruct (onRoute id routeEdges); reflexivity.
Qed.

Section RunEnds.

Variable D : list (R * R) -> Z -> list nat.

Lemma chain_frame (events : list Event) :
  forall (view : Render.t) (mounted : bool) (live : State)
         (current destination : Node) (live' : State) (st : Status),
    simulateRoutingStepIn D view mounted events live current destination
    = (live', st) ->
    State.strategy live' = State.strategy live
    /\ map Node.id (State.nodes live') = map Node.id (State.nodes live)
    /\ map Node.color (State.nodes live') = map Node.color (State.nodes live)
    /\ (noDrag events -> State.nodes live' = State.nodes live).
Proof.
  induction events as [| ev events IH];
    intros view mounted live current destination live' st Hrun.
  - simpl in Hrun. injection Hrun as <- <-. repeat split.
  - destruct ev as [draw | captured id x y]; cbn [simulateRoutingStepIn] in Hrun.
    + destruct (getNextNode D (Render.nodes view) (Render.strategy view)
                  (Render.routeEdges view) draw current destination)
        as [next |]; [| injection Hrun as <- <-; repeat split].
      cbv zeta in Hrun.
      destruct (Z.eqb (Node.id next) (Node.id destination)) eqn:Earr.
      { injection Hrun as <- <-. unfold appendEdge. rewrite Earr.
        repeat split. }
      set (live2 := State.setPacket (Some (Packet.mk next destination))
                      (appendEdge view live current next destination)) in *.
      assert (Hsame : State.strategy live2 = State.strategy live
                      /\ State.nodes live2 = State.nodes live).
      { unfold live2, appendEdge. rewrite Earr. split; reflexivity. }
      destruct Hsame as [Hsg Hns].
      assert (Hgoal : forall s2,
                 State.strategy s2 = State.strategy live2 ->
                 State.nodes s2 = State.nodes live2 ->
                 forall view2 mounted2,
                   simulateRoutingStepIn D view2 mounted2 events s2 next
                                         destination = (live', st) ->
                   State.strategy live' = State.strategy live
                   /\ map Node.id (State.nodes live') = map Node.id (State.nodes live)
                   /\ map Node.color (State.nodes live')
                      = map Node.color (State.nodes live)
                   /\ (noDrag events -> State.nodes live' = State.nodes live)).
      { intros s2 E1 E2 view2 mounted2 H2. apply IH in H2.
        rewrite E1, E2, Hsg, Hns in H2. exact H2. }
      destruct mounted.
      * apply (Hgoal live2 eq_refl eq_refl _ _ Hrun).
      * destruct (getNextNode D (Render.nodes view) (Render.strategy view)
                    (Render.routeEdges view) 0 next destination).
        -- destruct (negb (State.simulationStarted live2)).
           ++ apply (Hgoal (State.setSimulationStarted true live2)
                             eq_refl eq_refl _ _ Hrun).
           ++ injection Hrun as <- <-. rewrite Hsg, Hns. repeat split.
        -- injection Hrun as <- <-.
           change (State.strategy (lose live2)) with (State.strategy live2).
           change (State.nodes (lose live2)) with (State.nodes live2).
           rewrite Hsg, Hns. repeat split.
    + apply IH in Hrun.
      destruct (updateNodePosition_ids_colors captured live id x y)
        as (Hi & Hc & Hs).
      destruct Hrun as (H1 & H2 & H3 & _).
      rewrite H1, H2, H3, Hi, Hc, Hs. repeat split. intros [].
Qed.

Lemma chain_terminal (events : list Event) :
  forall (view : Render.t) (mounted : bool) (live : State)
         (current destination : Node) (live' : State) (st : Status),
    simulateRoutingStepIn D view mounted events live current destination
    = (live', st) ->
    match st with
    | InTransit _ => True
    | Arrived =>
        State.packet live' = None /\ State.simulationStarted live' = false
        /\ State.finalMessage live' = Some msgArrived
    | Lost =>
        State.packet live' = None /\ State.simulationStarted live' = false
        /\ State.finalMessage live' = Some msgLost
    end.
Proof.
  induction events as [| ev events IH];
    intros view mounted live current destination live' st Hrun.
  - simpl in Hrun. injection Hrun as <- <-. exact I.
  - destruct ev as [draw | captured id x y]; cbn [simulateRoutingStepIn] in Hrun.
    + destruct (getNextNode D (Render.nodes view) (Render.strategy view)
                  (Render.routeEdges view) draw current destination)
        as [next |]; [| injection Hrun as <- <-; repeat split].
      cbv zeta in Hrun.
      destruct (Z.eqb (Node.id next) (Node.id destination)).
      { injection Hrun as <- <-. repeat split. }
      destruct mounted; [eapply IH, Hrun |].
      destruct (getNextNode D (Render.nodes view) (Render.strategy view)
                  (Render.routeEdges view) 0 next destination).
      * destruct (negb (State.simulationStarted _)); [eapply IH, Hrun |].
        injection Hrun as <- <-. exact I.
      * injection Hrun as <- <-. repeat split.
    + eapply IH, Hrun.
Qed.

(** X9. A run of [simulateRoutingStep] never adds, removes, reorders or
    recolors a node and never changes the strategy; without a drag the nodes
    are untouched.  A run that ends, Arrived or Lost, leaves no packet, the
    started flag down and its own message, so that the effect does nothing
    more on the state it leaves. *)
Theorem run_end_state
    (view : Render.t) (events : list Event) (live : State)
    (current destination : Node) (live' : State) (st : Status) :
  simulateRoutingStep D view events live current destination = (live', st) ->
  State.strategy live' = State.strategy live
  /\ map Node.id (State.nodes live') = map Node.id (State.nodes live)
  /\ map Node.color (State.nodes live') = map Node.color (State.nodes live)
  /\ (noDrag events -> State.nodes live' = State.nodes live)
  /\ (st = Arrived ->
      State.packet live' = None /\ State.simulationStarted live' = false
      /\ State.finalMessage live' = Some msgArrived)
  /\ (st = Lost ->
      State.packet live' = None /\ State.simulationStarted live' = false
      /\ State.finalMessage live' = Some msgLost)
  /\ (st = Arrived \/ st = Lost ->
      forall events', packetEffect D events' live' = (live', None)).
Proof.
  intros Hrun.
  destruct (chain_frame _ _ _ _ _ _ _ _ Hrun) as (H1 & H2 & H3 & H4).
  pose proof (chain_terminal _ _ _ _ _ _ _ _ Hrun) as Ht.
  split; [exact H1 | split; [exact H2 | split; [exact H3 | split; [exact H4 |]]]].
  split; [intros ->; exact Ht | split; [intros ->; exact Ht |]].
  intros Hst events'. unfold packetEffect.
  destruct Hst as [-> | ->]; destruct Ht as (Hp & _); rewrite Hp; reflexivity.
Qed.

(** X10. In a run that no drag disturbs the route only grows at its end:
    the route after the run is the route before it followed by at most one
    edge per hop, and each appended edge has the color of the destination of
    the packet of the render and goes from a node the run was at to a node
    of the render. *)
Theorem run_route_edges
    (view : Render.t) (events : list Event) (live : State)
    (current destination : Node) (live' : State) (st : Status) :
  noDrag events ->
  simulateRoutingStep D view events live current destination = (live', st) ->
  exists added,
    State.routeEdges live' = State.routeEdges live ++ added
    /\ (length added <= countHops events)%nat
    /\ forall e,
        In e added ->
        exists a b,
          e = edgeBetween a b
                (Node.color (Packet.destination (Render.packet view)))
          /\ In b (Render.nodes view).
Proof.
  revert live current live' st.
  induction events as [| ev events IH]; intros live current live' st Hnd Hrun.
  - simpl in Hrun. injection Hrun as <- <-. exists [].
    rewrite app_nil_r. split; [reflexivity | split; [simpl; lia | intros e []]].
  - destruct ev as [draw | captured id x y];
      cbn [countHops noDrag] in Hnd |- *; [| destruct Hnd].
    rewrite simulateRoutingStep_hop in Hrun.
    destruct (getNextNode D (Render.nodes view) (Render.strategy view)
                (Render.routeEdges view) draw current destination)
      as [next |] eqn:Enext.
    + assert (Hnext : In next (Render.nodes view)).
      { unfold getNextNode in Enext.
        destruct (length (Render.nodes view) <? 3)%nat; [discriminate |].
        destruct (length (neighborIndices D (Render.nodes view) current) =? 0)%nat;
          [discriminate |].
        apply selectNextHop_In in Enext.
        unfold candidatesOf in Enext. apply lookupAll_In in Enext.
        destruct Enext as (i & _ & Hi). eapply nth_error_In, Hi. }
      set (e0 := edgeBetween current next
                   (Node.color (Packet.destination (Render.packet view)))).
      assert (He0 : exists a b,
                 e0 = edgeBetween a b
                        (Node.color (Packet.destination (Render.packet view)))
                 /\ In b (Render.nodes view)).
      { exists current, next. split; [reflexivity | exact Hnext]. }
      destruct (Z.eqb (Node.id next) (Node.id destination)).
      * injection Hrun as <- <-.
        change (State.routeEdges (arrive ?s)) with (State.routeEdges s).
        rewrite appendEdge_route. exists [e0].
        split; [reflexivity | split; [simpl; lia |]].
        intros e [<- | []]. exact He0.
      * apply (IH _ _ _ _ Hnd) in Hrun.
        change (State.routeEdges (State.setPacket ?p ?s))
          with (State.routeEdges s) in Hrun.
        rewrite appendEdge_route in Hrun.
        destruct Hrun as (added & Hr & Hl & He).
        exists (e0 :: added). rewrite Hr, <- app_assoc.
        split; [reflexivity | split; [simpl; lia |]].
        intros e [<- | Hin]; [exact He0 | apply He, Hin].
    + injection Hrun as <- <-.
      change (State.routeEdges (lose ?s)) with (State.routeEdges s).
      exists []. rewrite app_nil_r.
      split; [reflexivity | split; [simpl; lia | intros e []]].
Qed.

End RunEnds.

Lemma filter_nothing_used (current : Node) (cands : list Node) :
  filter (fun candidate => negb (edgeUsed [] current candidate)) cands = cands.
Proof.
  induction cands as [| a l IH]; [reflexivity |]. simpl. f_equal. exact IH.
Qed.

Section StartedRun.

Variable D : list (R * R) -> Z -> list nat.

(** X11. The chain of hops that a successful start request launches runs in
    the render of that request, in which the route has just been emptied,
    and every hop of the chain reads that render while the hops append their
    edges to the live route.  With the random strategy the filter on the
    edges already used therefore removes no neighbor in this chain: every
    hop goes to the neighbor drawn among all the neighbors of the node the
    packet is at, and the next hop is computed in the same render.  (A drag
    that resets the run ends the chain: the effect then starts another one,
    in a later render.) *)
Theorem started_random_run_draws_among_all
    (s s1 : State) (drawSource drawDestination : nat) :
  State.strategy s = random ->
  startRoutingSimulation s drawSource drawDestination = Some s1 ->
  State.finalMessage s1 = Some ""%string ->
  exists p,
    State.packet s1 = Some p
    /\ renderOf s1 p = Render.mk (State.nodes s) p [] random
    /\ (forall events,
          packetEffect D events s1
          = (fst (simulateRoutingStep D (renderOf s1 p)
                    events (State.setSimulationStarted true s1)
                    (Packet.currentNode p) (Packet.destination p)),
             Some (snd (simulateRoutingStep D (renderOf s1 p)
                          events (State.setSimulationStarted true s1)
                          (Packet.currentNode p) (Packet.destination p)))))
    /\ (forall draw current destination,
          getNextNode D (State.nodes s) random [] draw current destination
          = if (length (State.nodes s) <? 3)%nat then None
            else nth_error (candidatesOf D (State.nodes s) current) draw)
    /\ (forall draw events' live current destination,
          simulateRoutingStep D (renderOf s1 p) (Hop draw :: events') live
                              current destination
          = match (if (length (State.nodes s) <? 3)%nat then None
                   else nth_error (candidatesOf D (State.nodes s) current) draw)
            with
            | None => (lose live, Lost)
            | Some next =>
                if Z.eqb (Node.id next) (Node.id destination)
                then (arrive (appendEdge (renderOf s1 p) live current next
                                         destination), Arrived)
                else
                  simulateRoutingStep D (renderOf s1 p) events'
                    (State.setPacket (Some (Packet.mk next destination))
                       (appendEdge (renderOf s1 p) live current next
                                   destination))
                    next destination
            end).
Proof.
  intros Hs Hstart Hmsg. unfold startRoutingSimulation in Hstart.
  destruct (length (filter isActive (State.nodes s)) <? 2)%nat.
  { injection Hstart as <-. discriminate Hmsg. }
  destruct (nth_error (filter isActive (State.nodes s)) drawSource)
    as [source |]; [| discriminate].
  destruct (length (filter (isPartner source)
                      (filter isActive (State.nodes s))) =? 0)%nat.
  { injection Hstart as <-. discriminate Hmsg. }
  destruct (nth_error (filter (isPartner source)
                         (filter isActive (State.nodes s))) drawDestination)
    as [destination |]; [| discriminate].
  injection Hstart as <-.
  assert (Hget : forall draw current destination',
             getNextNode D (State.nodes s) random [] draw current destination'
             = if (length (State.nodes s) <? 3)%nat then None
               else nth_error (candidatesOf D (State.nodes s) current) draw).
  { intros draw current destination'. unfold getNextNode.
    destruct (length (State.nodes s) <? 3)%nat; [reflexivity |].
    unfold candidatesOf.
    destruct (neighborIndices D (State.nodes s) current) as [| i idx];
      [destruct draw; reflexivity |].
    cbn [length Nat.eqb selectNextHop].
    rewrite filter_nothing_used.
    destruct (lookupAll (State.nodes s) (i :: idx));
      [destruct draw; reflexivity | reflexivity]. }
  exists (Packet.mk source destination). split; [reflexivity |].
  assert (Hview : renderOf
                    (State.setSimulationStarted false
                       (State.setPacket (Some (Packet.mk source destination))
                          (State.setLastRouteStats None
                             (State.setRouteEdges []
                                (State.setFinalMessage (Some ""%string) s)))))
                    (Packet.mk source destination)
                  = Render.mk (State.nodes s) (Packet.mk source destination)
                              [] random).
  { unfold renderOf. rewrite <- Hs. reflexivity. }
  split; [exact Hview |]. split; [| split; [exact Hget |]].
  - intros events. unfold packetEffect.
    cbn [State.packet State.simulationStarted State.setSimulationStarted
         State.setPacket negb].
    cbv zeta.
    destruct (simulateRoutingStep D _ events _ _ _) as [s' st]. reflexivity.
  - intros draw events' live current destination'.
    rewrite simulateRoutingStep_hop, Hview.
    cbn [Render.nodes Render.strategy Render.routeEdges].
    rewrite Hget. reflexivity.
Qed.

End StartedRun.

(** ** Drags in sequence *)

Lemma moveNode_moveNode (id : Z) (x y x' y' : R) (n : Node) :
  moveNode id x' y' (moveNode id x y n) = moveNode id x' y' n.
Proof.
  unfold moveNode. destruct (Z.eqb (Node.id n) id) eqn:E; simpl; rewrite ?E;
    reflexivity.
Qed.

Lemma moveNode_comm (id1 id2 : Z) (x1 y1 x2 y2 : R) (n : Node) :
  id1 <> id2 ->
  moveNode id2 x2 y2 (moveNode id1 x1 y1 n)
  = moveNode id1 x1 y1 (moveNode id2 x2 y2 n).
Proof.
  intros Hne. unfold moveNode.
  destruct (Z.eqb_spec (Node.id n) id1) as [E1 | E1];
    destruct (Z.eqb_spec (Node.id n) id2) as [E2 | E2]; simpl.
  - congruence.
  - destruct (Z.eqb_spec (Node.id n) id2); [contradiction |].
    destruct (Z.eqb_spec (Node.id n) id1); [reflexivity | contradiction].
  - destruct (Z.eqb_spec (Node.id n) id2); [| contradiction].
    destruct (Z.eqb_spec (Node.id n) id1); [contradiction | reflexivity].
  - destruct (Z.eqb_spec (Node.id n) id2); [contradiction |].
    destruct (Z.eqb_spec (Node.id n) id1); [contradiction | reflexivity].
Qed.

(** The state after a drag, field by field. *)
Lemma updateNodePosition_fields (routeEdges : list RouteEdge) (s : State)
    (id : Z) (x y : R) :
  updateNodePosition routeEdges s id x y
  = if onRoute id routeEdges
    then State.mk (map (moveNode id (clampX x) (clampY y)) (State.nodes s))
                  None [] None (Some msgReset) (State.strategy s) false
    else State.mk (map (moveNode id (clampX x) (clampY y)) (State.nodes s))
                  (State.packet s) (State.routeEdges s)
                  (State.lastRouteStats s) (State.finalMessage s)
                  (State.strategy s) (State.simulationStarted s).
Proof.
  unfold updateNodePosition.
  destruct (onRoute id routeEdges); reflexivity.
Qed.

Lemma onRoute_app (id : Z) (r1 r2 : list RouteEdge) :
  onRoute id (r1 ++ r2) = onRoute id r1 || onRoute id r2.
Proof. apply existsb_app. Qed.

Ltac state_fields :=
  cbn [State.nodes State.packet State.routeEdges State.lastRouteStats
       State.finalMessage State.strategy State.simulationStarted].

(** X12. Drags in sequence, each reading the route that its handler has
    captured.  Of two drags of the same node the last one decides the
    position, and the run is reset when one of the two resets it: the state
    is the one that the last drag alone gives on the two captured routes
    together; within one gesture, where the captured route is the same, it
    is the state that the last drag alone gives, so a drag repeated changes
    nothing more.  Drags of two nodes with different ids give the same state
    in either order.  And once a drag has reset the route, the drags that
    follow move nodes only. *)
Theorem updateNodePosition_sequence
    (routeEdges : list RouteEdge) (s : State) (id : Z) (x y : R) :
  (forall routeEdges' x' y',
      updateNodePosition routeEdges'
        (updateNodePosition routeEdges s id x y) id x' y'
      = updateNodePosition (routeEdges ++ routeEdges') s id x' y')
  /\ (forall x' y',
         updateNodePosition routeEdges
           (updateNodePosition routeEdges s id x y) id x' y'
         = updateNodePosition routeEdges s id x' y')
  /\ (forall routeEdges2 id2 x2 y2,
         id2 <> id ->
         updateNodePosition routeEdges2
           (updateNodePosition routeEdges s id x y) id2 x2 y2
         = updateNodePosition routeEdges
             (updateNodePosition routeEdges2 s id2 x2 y2) id x y)
  /\ (onRoute id routeEdges = true ->
      forall routeEdges2 id2 x2 y2,
        updateNodePosition routeEdges2
          (updateNodePosition routeEdges s id x y) id2 x2 y2
        = State.setNodes
            (map (moveNode id2 (clampX x2) (clampY y2))
                 (State.nodes (updateNodePosition routeEdges s id x y)))
            (updateNodePosition routeEdges s id x y)).
Proof.
  assert (Hlast : forall routeEdges' x' y',
             updateNodePosition routeEdges'
               (updateNodePosition routeEdges s id x y) id x' y'
             = updateNodePosition (routeEdges ++ routeEdges') s id x' y').
  { intros routeEdges' x' y'. rewrite !updateNodePosition_fields, onRoute_app.
    destruct (onRoute id routeEdges) eqn:E;
      destruct (onRoute id routeEdges') eqn:E'; state_fields;
      cbn [orb]; rewrite map_map;
      rewrite (map_ext _ _ (moveNode_moveNode id _ _ (clampX x') (clampY y')));
      reflexivity. }
  split; [exact Hlast | split; [| split]].
  - intros x' y'. rewrite Hlast, !updateNodePosition_fields, onRoute_app.
    destruct (onRoute id routeEdges); reflexivity.
  - intros routeEdges2 id2 x2 y2 Hne.
    assert (Hmap : map (moveNode id2 (clampX x2) (clampY y2))
                       (map (moveNode id (clampX x) (clampY y)) (State.nodes s))
                   = map (moveNode id (clampX x) (clampY y))
                         (map (moveNode id2 (clampX x2) (clampY y2))
                              (State.nodes s))).
    { rewrite !map_map. apply map_ext. intros n. apply moveNode_comm.
      intros E. apply Hne. symmetry. exact E. }
    rewrite !updateNodePosition_fields.
    destruct (onRoute id routeEdges) eqn:E1;
      destruct (onRoute id2 routeEdges2) eqn:E2;
      state_fields; rewrite Hmap; reflexivity.
  - intros Hon routeEdges2 id2 x2 y2.
    rewrite !updateNodePosition_fields, Hon.
    state_fields. destruct (onRoute id2 routeEdges2); reflexivity.
Qed.

(** ** A drag that resets the run *)

Section ResetDuringHop.

Variable D : list (R * R) -> Z -> list nat.

(** X19. A drag that resets the run does not stop it.  When the node moved
    is on the route captured by the gesture, the route, the statistics and
    the packet are cleared and the reset message is set; but the hop in
    progress still ends.  If it does not arrive, and a next node exists, the
    state then has the packet at the node reached, a route made of the one
    segment of that hop, the started flag up and the reset message still
    set; and the hops that follow are computed in the render of that state,
    with the moved nodes and that one segment as history. *)
Theorem reset_restarts_run
    (view : Render.t) (live : State) (current destination next : Node)
    (captured : list RouteEdge) (id : Z) (x y : R) (draw : nat) :
  onRoute id captured = true ->
  getNextNode D (Render.nodes view) (Render.strategy view)
              (Render.routeEdges view) draw current destination
  = Some next ->
  Node.id next <> Node.id destination ->
  getNextNode D (Render.nodes view) (Render.strategy view)
              (Render.routeEdges view) 0 next destination
  <> None ->
  let added :=
    edgeBetween current next
                (Node.color (Packet.destination (Render.packet view))) in
  let after :=
    State.mk (map (moveNode id (clampX x) (clampY y)) (State.nodes live))
             (Some (Packet.mk next destination)) [added] None (Some msgReset)
             (State.strategy live) true in
  simulateRoutingStep D view [Drag captured id x y; Hop draw] live
                      current destination
  = (after, InTransit next)
  /\ forall events',
      simulateRoutingStep D view (Drag captured id x y :: Hop draw :: events')
                          live current destination
      = simulateRoutingStep D
          (Render.mk (State.nodes after) (Packet.mk next destination) [added]
                     (State.strategy live))
          events' after next destination.
Proof.
  intros Hon Hnext Hne Hsome added after.
  assert (Hstep : forall events',
             simulateRoutingStep D view
               (Drag captured id x y :: Hop draw :: events') live
               current destination
             = simulateRoutingStep D
                 (Render.mk (State.nodes after) (Packet.mk next destination)
                            [added] (State.strategy live))
                 events' after next destination).
  { intros events'. unfold simulateRoutingStep.
    cbn [simulateRoutingStepIn]. rewrite Hon. cbn [negb andb].
    rewrite Hnext.
    apply Z.eqb_neq in Hne. rewrite Hne.
    destruct (getNextNode D (Render.nodes view) (Render.strategy view)
                (Render.routeEdges view) 0 next destination) as [n' |];
      [| contradiction Hsome; reflexivity].
    rewrite updateNodePosition_fields, Hon.
    unfold appendEdge. rewrite Hne. reflexivity. }
  split; [| exact Hstep].
  rewrite Hstep. reflexivity.
Qed.

End ResetDuringHop.

(** X19 at the wide triangle, with the random strategy: the packet has gone
    from [nodeK] to [nodeL] and travels back to [nodeK] when [nodeL] is
    dragged to (300, 50), in a gesture that shows the first segment. *)
Lemma reset_restarts_run_witness :
  onRoute 52 [edgeKL] = true
  /\ getNextNode wideNeighbors wideNodes random [] 0 nodeL nodeM = Some nodeK
  /\ Node.id nodeK <> Node.id nodeM
  /\ getNextNode wideNeighbors wideNodes random [] 0 nodeK nodeM <> None
  /\ simulateRoutingStep wideNeighbors
       (Render.mk wideNodes (Packet.mk nodeK nodeM) [] random)
       [Drag [edgeKL] 52 300 50; Hop 0]
       (State.mk wideNodes (Some (Packet.mk nodeL nodeM)) [edgeKL] None
                 (Some ""%string) random true)
       nodeL nodeM
     = (State.mk [nodeK; Node.mk 52 300 50 "grey"; nodeM]
                 (Some (Packet.mk nodeK nodeM))
                 [edgeBetween nodeL nodeK "red"] None (Some msgReset)
                 random true,
        InTransit nodeK).
Proof.
  assert (Hon : onRoute 52 [edgeKL] = true) by reflexivity.
  assert (Hnext : getNextNode wideNeighbors wideNodes random [] 0 nodeL nodeM
                  = Some nodeK) by reflexivity.
  assert (Hne : Node.id nodeK <> Node.id nodeM) by discriminate.
  assert (Hsome : getNextNode wideNeighbors wideNodes random [] 0 nodeK nodeM
                  <> None) by discriminate.
  split; [exact Hon | split; [exact Hnext | split; [exact Hne |]]].
  split; [exact Hsome |].
  destruct (reset_restarts_run wideNeighbors
              (Render.mk wideNodes (Packet.mk nodeK nodeM) [] random)
              (State.mk wideNodes (Some (Packet.mk nodeL nodeM)) [edgeKL] None
                        (Some ""%string) random true)
              nodeL nodeM nodeK [edgeKL] 52%Z 300 50 0%nat
              Hon Hnext Hne Hsome) as [Hrun _].
  rewrite Hrun. cbn [State.nodes State.strategy map wideNodes].
  unfold moveNode at 1 2 3. cbn [nodeK nodeL nodeM Node.id Z.eqb Pos.eqb].
  rewrite clampX_inside, clampY_inside
    by (unfold baseRadius, svgWidth, svgHeight; lra).
  reflexivity.
Defined.

(** ** Coloring and adding nodes *)

Lemma findIndexFrom_range {A : Type} (p : A -> bool) (l : list A) (i : Z) :
  findIndexFrom p l i = (-1)%Z
  \/ (i <= findIndexFrom p l i < i + Z.of_nat (length l))%Z.
Proof.
  revert i. induction l as [| a l IH]; intros i; [left; reflexivity |].
  cbn [findIndexFrom length]. destruct (p a).
  - right. lia.
  - destruct (IH (i + 1)%Z) as [H | H]; [left; exact H | right; lia].
Qed.

Lemma findIndexFrom_none {A : Type} (p : A -> bool) (l : list A) (i : Z) :
  (forall a, In a l -> p a = false) -> findIndexFrom p l i = (-1)%Z.
Proof.
  revert i. induction l as [| a l IH]; intros i H; [reflexivity |].
  cbn [findIndexFrom]. rewrite (H a (or_introl eq_refl)).
  apply IH. intros b Hb. apply H. right. exact Hb.
Qed.

(** The index computed by [handleNodeClick] is an index of [colors]. *)
Lemma nextIndex_in_colors (color : string) :
  (0 <= nextIndex color < Z.of_nat (length colors))%Z.
Proof.
  unfold nextIndex, indexOf, findIndex.
  destruct (findIndexFrom_range (fun c => String.eqb c color) colors 0) as [H | H].
  - rewrite H. change (length colors) with 5%nat. vm_compute. split; congruence.
  - change (length colors) with 5%nat in *.
    apply Z.rem_bound_pos; lia.
Qed.

Lemma nextColor_in_colors (color : string) : In (nextColor color) colors.
Proof.
  unfold nextColor. apply nth_In.
  pose proof (nextIndex_in_colors color). lia.
Qed.

Lemma nextColor_unknown (color : string) :
  ~ In color colors -> nextColor color = inactiveColor.
Proof.
  intros Hnot. unfold nextColor, nextIndex, indexOf, findIndex.
  rewrite findIndexFrom_none; [reflexivity |].
  intros c Hc. apply String.eqb_neq. intros ->. contradiction.
Qed.

Lemma recolor_recolor (id : Z) (c c' : string) (n : Node) :
  recolor id c' (recolor id c n) = recolor id c' n.
Proof.
  unfold recolor. destruct (Z.eqb (Node.id n) id) eqn:E; simpl; rewrite ?E;
    reflexivity.
Qed.

Lemma recolor_same (id : Z) (c : string) (n : Node) :
  (Node.id n = id -> Node.color n = c) -> recolor id c n = n.
Proof.
  intros H. unfold recolor. destruct (Z.eqb_spec (Node.id n) id) as [E | E];
    [| reflexivity].
  destruct n as [i x y col]. simpl in *. rewrite (H E). reflexivity.
Qed.

(** X13. A click on a node changes colors only: every node keeps its index,
    its id and its position; the nodes that have the id of the clicked node
    take the color that follows the color of the clicked node in [colors],
    the others are unchanged; the packet, the route, the statistics, the
    message, the strategy and the started flag are untouched, so a click
    during a run does not reset it.  The new color is always one of
    [colors]: it is the inactive color exactly when the clicked node had the
    last color of the list or a color that is not in the list. *)
Theorem handleNodeClick_recolors_only (s : State) (node : Node) :
  length (State.nodes (handleNodeClick s node)) = length (State.nodes s)
  /\ (forall i n,
         nth_error (State.nodes s) i = Some n ->
         exists n',
           nth_error (State.nodes (handleNodeClick s node)) i = Some n'
           /\ Node.id n' = Node.id n
           /\ Node.x n' = Node.x n /\ Node.y n' = Node.y n
           /\ (Node.id n = Node.id node ->
               Node.color n' = nextColor (Node.color node))
           /\ (Node.id n <> Node.id node -> n' = n))
  /\ handleNodeClick s node
     = State.setNodes (State.nodes (handleNodeClick s node)) s
  /\ In (nextColor (Node.color node)) colors
  /\ (nextColor (Node.color node) = inactiveColor
      <-> Node.color node = "orange"%string
          \/ ~ In (Node.color node) colors).
Proof.
  split; [apply length_map |]. split; [| split; [reflexivity | split]].
  - intros i n Hi.
    exists (recolor (Node.id node) (nextColor (Node.color node)) n).
    split; [cbn [handleNodeClick State.setNodes State.nodes];
            rewrite nth_error_map, Hi; reflexivity |].
    unfold recolor.
    destruct (Z.eqb_spec (Node.id n) (Node.id node)) as [E | E]; simpl;
      repeat split; try reflexivity; contradiction.
  - apply nextColor_in_colors.
  - generalize (Node.color node). intros c.
    destruct (in_dec string_dec c colors) as [Hin | Hnot].
    + split.
      * intros Hnext. left.
        destruct Hin as [<- | [<- | [<- | [<- | [<- | []]]]]];
          vm_compute in Hnext; try discriminate Hnext. reflexivity.
      * intros [-> | Hnot]; [reflexivity | contradiction].
    + split; [intros _; right; exact Hnot | intros _].
      apply nextColor_unknown, Hnot.
Qed.

Lemma clickTimes_state (k : nat) :
  forall (s : State) (node : Node),
    clickTimes (S k) s node
    = State.setNodes
        (map (recolor (Node.id node) (Nat.iter (S k) nextColor (Node.color node)))
             (State.nodes s))
        s.
Proof.
  induction k as [| k IH]; intros s node; [reflexivity |].
  change (clickTimes (S (S k)) s node)
    with (clickTimes (S k) (handleNodeClick s node) (clicked node)).
  rewrite IH. unfold handleNodeClick, clicked, State.setNodes.
  cbn [State.nodes State.packet State.routeEdges State.lastRouteStats
       State.finalMessage State.strategy State.simulationStarted
       Node.id Node.color].
  rewrite map_map, (Nat.iter_succ_r (S k)).
  rewrite (map_ext _ _ (recolor_recolor (Node.id node)
                          (nextColor (Node.color node))
                          (Nat.iter (S k) nextColor
                             (nextColor (Node.color node))))).
  reflexivity.
Qed.

Lemma map_fixes {A : Type} (f : A -> A) (l : list A) (a : A) :
  map f l = l -> In a l -> f a = a.
Proof.
  induction l as [| b l IH]; intros Hm Hin; [contradiction |].
  simpl in Hm. injection Hm as Hb Hl.
  destruct Hin as [<- | Hin]; [exact Hb | apply IH; assumption].
Qed.

(** X14. The colors form a cycle of five.  When the clicked node has one of
    the colors of [colors] and is drawn from the state (every node of its id
    has its color), five clicks in a row on it give back the state exactly;
    and when the node is in the state, fewer clicks (one to four) give a
    different state. *)
Theorem handleNodeClick_cycle (s : State) (node : Node) :
  In (Node.color node) colors ->
  (forall n, In n (State.nodes s) ->
             Node.id n = Node.id node -> Node.color n = Node.color node) ->
  clickTimes (length colors) s node = s
  /\ (In node (State.nodes s) ->
      forall k, (0 < k < length colors)%nat -> clickTimes k s node <> s).
Proof.
  intros Hcol Hdrawn. split.
  - change (length colors) with 5%nat. rewrite clickTimes_state.
    assert (Hback : Nat.iter 5 nextColor (Node.color node) = Node.color node).
    { destruct Hcol as [<- | [<- | [<- | [<- | [<- | []]]]]]; reflexivity. }
    rewrite Hback.
    assert (Hmap : map (recolor (Node.id node) (Node.color node)) (State.nodes s)
                   = State.nodes s).
    { rewrite <- (map_id (State.nodes s)) at 2. apply map_ext_in.
      intros n Hn. apply recolor_same. apply Hdrawn, Hn. }
    rewrite Hmap. destruct s; reflexivity.
  - intros Hin k Hk Heq. change (length colors) with 5%nat in Hk.
    destruct k as [| k]; [lia |].
    rewrite clickTimes_state in Heq.
    apply (f_equal State.nodes) in Heq. cbn [State.setNodes State.nodes] in Heq.
    pose proof (map_fixes _ _ node Heq Hin) as Hfix.
    unfold recolor in Hfix. rewrite Z.eqb_refl in Hfix.
    apply (f_equal Node.color) in Hfix. cbn [Node.color] in Hfix.
    revert Hcol Hfix. generalize (Node.color node). intros c Hcol Hfix.
    destruct k as [| [| [| [| k]]]]; [| | | | lia];
      destruct Hcol as [<- | [<- | [<- | [<- | [<- | []]]]]];
      vm_compute in Hfix; discriminate Hfix.
Qed.

Lemma filter_snoc_out {A : Type} (p : A -> bool) (l : list A) (a : A) :
  p a = false -> filter p (l ++ [a]) = filter p l.
Proof.
  intros H. rewrite filter_app. simpl. rewrite H. apply app_nil_r.
Qed.

Lemma startRoutingSimulation_inactive_node
    (s : State) (n : Node) (drawSource drawDestination : nat) :
  isActive n = false ->
  startRoutingSimulation (State.setNodes (State.nodes s ++ [n]) s)
                         drawSource drawDestination
  = option_map (State.setNodes (State.nodes s ++ [n]))
      (startRoutingSimulation s drawSource drawDestination).
Proof.
  intros Hn. unfold startRoutingSimulation.
  change (State.nodes (State.setNodes (State.nodes s ++ [n]) s))
    with (State.nodes s ++ [n]).
  rewrite (filter_snoc_out isActive (State.nodes s) n Hn).
  destruct (length (filter isActive (State.nodes s)) <? 2)%nat;
    [reflexivity |].
  destruct (nth_error (filter isActive (State.nodes s)) drawSource)
    as [source |]; [| reflexivity].
  destruct (length (filter (isPartner source)
                      (filter isActive (State.nodes s))) =? 0)%nat;
    [reflexivity |].
  destruct (nth_error (filter (isPartner source)
                         (filter isActive (State.nodes s))) drawDestination);
    reflexivity.
Qed.

(** X15. A click on the canvas appends one node, at the position of the
    click relative to the canvas, with the time as its id and not active;
    the nodes that were there keep their index and are unchanged, and their
    ids stay without duplicate when the new id is not one of them; the
    packet, the route, the statistics and the message are untouched.  The
    new node being inactive, a start request draws the same source and the
    same destination with it as without it. *)
Theorem handleSvgClick_appends_inactive_node
    (s : State) (now : Z) (clientX clientY left top : R) :
  let newNode := Node.mk now (clientX - left) (clientY - top) inactiveColor in
  handleSvgClick s now clientX clientY left top
  = State.setNodes (State.nodes s ++ [newNode]) s
  /\ isActive newNode = false
  /\ (forall i n, nth_error (State.nodes s) i = Some n ->
                  nth_error
                    (State.nodes (handleSvgClick s now clientX clientY left top))
                    i = Some n)
  /\ (NoDup (map Node.id (State.nodes s)) ->
      ~ In now (map Node.id (State.nodes s)) ->
      NoDup (map Node.id
               (State.nodes (handleSvgClick s now clientX clientY left top))))
  /\ (forall drawSource drawDestination,
         startRoutingSimulation
           (handleSvgClick s now clientX clientY left top)
           drawSource drawDestination
         = option_map (State.setNodes (State.nodes s ++ [newNode]))
             (startRoutingSimulation s drawSource drawDestination)).
Proof.
  intros newNode. split; [reflexivity |]. split; [reflexivity |]. split; [| split].
  - intros i n Hi. cbn [handleSvgClick State.setNodes State.nodes].
    rewrite nth_error_app1; [exact Hi |].
    apply nth_error_Some. rewrite Hi. discriminate.
  - intros Hnd Hfresh. cbn [handleSvgClick State.setNodes State.nodes].
    rewrite map_app. simpl.
    apply NoDup_app; [exact Hnd | repeat constructor; intros [] |].
    intros a Ha [<- | []]. contradiction.
  - intros drawSource drawDestination.
    apply (startRoutingSimulation_inactive_node s newNode). reflexivity.
Qed.

(** ** The pairs that a start request can draw *)

(** The state that a start request leaves when it has drawn [source] and
    [destination]. *)
Lemma started_by (s : State) (source destination : Node) :
  State.setSimulationStarted false
    (State.setPacket (Some (Packet.mk source destination))
       (State.setLastRouteStats None
          (State.setRouteEdges [] (State.setFinalMessage (Some ""%string) s))))
  = State.mk (State.nodes s) (Some (Packet.mk source destination)) [] None
             (Some ""%string) (State.strategy s) false.
Proof. reflexivity. Qed.

(** X16. The packets that a start request can create are exactly the
    ordered pairs of nodes of the state in which the source is active and
    the destination has the color of the source and another id: every such
    pair is drawn by some pair of indices, whatever the rest of the state,
    and no draw gives another one. *)
Theorem startRoutingSimulation_draws_partner_pairs
    (s : State) (source destination : Node) :
  (exists drawSource drawDestination,
      startRoutingSimulation s drawSource drawDestination
      = Some (State.mk (State.nodes s) (Some (Packet.mk source destination)) []
                       None (Some ""%string) (State.strategy s) false))
  <-> In source (State.nodes s) /\ In destination (State.nodes s)
      /\ isActive source = true
      /\ Node.color destination = Node.color source
      /\ Node.id destination <> Node.id source.
Proof.
  split.
  - intros (d1 & d2 & Hstart). unfold startRoutingSimulation in Hstart.
    destruct (length (filter isActive (State.nodes s)) <? 2)%nat;
      [discriminate Hstart |].
    destruct (nth_error (filter isActive (State.nodes s)) d1)
      as [src |] eqn:Esrc; [| discriminate].
    destruct (length (filter (isPartner src)
                        (filter isActive (State.nodes s))) =? 0)%nat;
      [discriminate Hstart |].
    destruct (nth_error (filter (isPartner src)
                           (filter isActive (State.nodes s))) d2)
      as [dst |] eqn:Edst; [| discriminate].
    rewrite started_by in Hstart. injection Hstart as -> ->.
    apply nth_error_In in Esrc, Edst.
    apply filter_In in Esrc. apply filter_In in Edst.
    destruct Esrc as [Hs Ha], Edst as [Hd Hp].
    apply filter_In in Hd. apply isPartner_spec in Hp.
    tauto.
  - intros (Hs & Hd & Ha & Hc & Hi).
    assert (Hsa : In source (filter isActive (State.nodes s))).
    { apply filter_In. split; assumption. }
    assert (Hda : In destination (filter isActive (State.nodes s))).
    { apply filter_In. split; [assumption |].
      unfold isActive in *. rewrite Hc. exact Ha. }
    assert (Hdp : In destination
                     (filter (isPartner source)
                             (filter isActive (State.nodes s)))).
    { apply filter_In. split; [assumption |]. apply isPartner_spec. tauto. }
    destruct (In_nth_error _ _ Hsa) as [d1 Hd1].
    destruct (In_nth_error _ _ Hdp) as [d2 Hd2].
    exists d1, d2. unfold startRoutingSimulation.
    assert (Hge : (2 <= length (filter isActive (State.nodes s)))%nat).
    { apply (two_distinct_members _ source destination); try assumption.
      intros <-. apply Hi. reflexivity. }
    apply Nat.ltb_ge in Hge. rewrite Hge, Hd1.
    destruct (filter (isPartner source) (filter isActive (State.nodes s)))
      as [| c l] eqn:E; [contradiction |].
    cbn [length Nat.eqb]. rewrite Hd2. rewrite started_by. reflexivity.
Qed.

(** ** The added properties at the scenarios *)


(** X5 at the triangle: [nodeC] is a neighbor of [nodeA]. *)
Lemma closestToDestination_reaches_adjacent_witness :
  (3 <= length triangleNodes)%nat
  /\ In nodeC (candidatesOf triangleNeighbors triangleNodes nodeA)
  /\ exists n,
      getNextNode triangleNeighbors triangleNodes closestToDestination [] 0
                  nodeA nodeC = Some n
      /\ distance n nodeC = 0
      /\ Node.x n = Node.x nodeC /\ Node.y n = Node.y nodeC
      /\ ((forall c, In c (candidatesOf triangleNeighbors triangleNodes nodeA) ->
                     Node.x c = Node.x nodeC ->
                     Node.y c = Node.y nodeC ->
                     Node.id c = Node.id nodeC) ->
          forall view live events,
            Render.nodes view = triangleNodes ->
            Render.strategy view = closestToDestination ->
            simulateRoutingStep triangleNeighbors view (Hop 0 :: events) live
                                nodeA nodeC
            = (arrive (appendEdge view live nodeA n nodeC), Arrived)
            /\ length (State.routeEdges
                         (arrive (appendEdge view live nodeA n nodeC)))
               = S (length (State.routeEdges live))).
Proof.
  assert (H3 : (3 <= length triangleNodes)%nat) by (simpl; lia).
  assert (Hin : In nodeC (candidatesOf triangleNeighbors triangleNodes nodeA))
    by (simpl; right; left; reflexivity).
  split; [exact H3 | split; [exact Hin |]].
  exact (closestToDestination_reaches_adjacent triangleNeighbors triangleNodes
           [] 0%nat nodeA nodeC H3 Hin).
Defined.

(** X9 at the run of scenario A, which arrives in one hop. *)
Lemma run_end_state_witness :
  let live := State.setSimulationStarted true
                (startedTriangle closestToDestination) in
  let live' := State.mk triangleNodes None [edgeAC]
                 (Some (RouteStats.mk 1 5 5)) (Some msgArrived)
                 closestToDestination false in
  simulateRoutingStep triangleNeighbors (viewTriangle closestToDestination)
    [Hop 0] live nodeA nodeC = (live', Arrived)
  /\ State.strategy live' = State.strategy live
  /\ map Node.id (State.nodes live') = map Node.id (State.nodes live)
  /\ map Node.color (State.nodes live') = map Node.color (State.nodes live)
  /\ (noDrag [Hop 0] -> State.nodes live' = State.nodes live)
  /\ (Arrived = Arrived ->
      State.packet live' = None /\ State.simulationStarted live' = false
      /\ State.finalMessage live' = Some msgArrived)
  /\ (Arrived = Lost ->
      State.packet live' = None /\ State.simulationStarted live' = false
      /\ State.finalMessage live' = Some msgLost)
  /\ (Arrived = Arrived \/ Arrived = Lost ->
      forall events',
        packetEffect triangleNeighbors events' live' = (live', None)).
Proof.
  intros live live'. split; [exact scenarioA_run |].
  exact (run_end_state triangleNeighbors (viewTriangle closestToDestination)
           [Hop 0] live nodeA nodeC live' Arrived scenarioA_run).
Defined.

(** X10 at the run of scenario A: one edge is appended, to [nodeC]. *)
Lemma run_route_edges_witness :
  let live := State.setSimulationStarted true
                (startedTriangle closestToDestination) in
  let live' := State.mk triangleNodes None [edgeAC]
                 (Some (RouteStats.mk 1 5 5)) (Some msgArrived)
                 closestToDestination false in
  noDrag [Hop 0]
  /\ simulateRoutingStep triangleNeighbors (viewTriangle closestToDestination)
       [Hop 0] live nodeA nodeC = (live', Arrived)
  /\ exists added,
      State.routeEdges live' = State.routeEdges live ++ added
      /\ (length added <= countHops [Hop 0])%nat
      /\ forall e,
          In e added ->
          exists a b,
            e = edgeBetween a b
                  (Node.color
                     (Packet.destination
                        (Render.packet (viewTriangle closestToDestination))))
            /\ In b (Render.nodes (viewTriangle closestToDestination)).
Proof.
  intros live live'. split; [exact I | split; [exact scenarioA_run |]].
  exact (run_route_edges triangleNeighbors (viewTriangle closestToDestination)
           [Hop 0] live nodeA nodeC live' Arrived I scenarioA_run).
Defined.

(** X11 at the triangle: the start request of scenario A with the random
    strategy.  From [nodeA] the draw 0 is [nodeB] and the draw 1 is
    [nodeC]. *)
Lemma started_random_run_draws_among_all_witness :
  State.strategy (idleTriangle random) = random
  /\ startRoutingSimulation (idleTriangle random) 0 0
     = Some (startedTriangle random)
  /\ State.finalMessage (startedTriangle random) = Some ""%string
  /\ exists p,
      State.packet (startedTriangle random) = Some p
      /\ renderOf (startedTriangle random) p
         = Render.mk (State.nodes (idleTriangle random)) p [] random
      /\ getNextNode triangleNeighbors (State.nodes (idleTriangle random))
                     random [] 0 nodeA nodeC = Some nodeB
      /\ getNextNode triangleNeighbors (State.nodes (idleTriangle random))
                     random [] 1 nodeA nodeC = Some nodeC.
Proof.
  split; [reflexivity | split; [reflexivity | split; [reflexivity |]]].
  destruct (started_random_run_draws_among_all triangleNeighbors
              (idleTriangle random) (startedTriangle random) 0%nat 0%nat
              eq_refl eq_refl eq_refl) as (p & Hp & Hview & _ & Hget & _).
  exists p. split; [exact Hp | split; [exact Hview |]].
  rewrite !Hget. split; reflexivity.
Defined.

(** X14 at the triangle: clicks on [nodeA], which is red. *)
Lemma handleNodeClick_cycle_witness :
  In (Node.color nodeA) colors
  /\ (forall n, In n (State.nodes (idleTriangle closestToDestination)) ->
                Node.id n = Node.id nodeA -> Node.color n = Node.color nodeA)
  /\ clickTimes (length colors) (idleTriangle closestToDestination) nodeA
     = idleTriangle closestToDestination
  /\ (In nodeA (State.nodes (idleTriangle closestToDestination)) ->
      forall k, (0 < k < length colors)%nat ->
                clickTimes k (idleTriangle closestToDestination) nodeA
                <> idleTriangle closestToDestination).
Proof.
  assert (Hcol : In (Node.color nodeA) colors)
    by (simpl; right; left; reflexivity).
  assert (Hdrawn : forall n,
             In n (State.nodes (idleTriangle closestToDestination)) ->
             Node.id n = Node.id nodeA -> Node.color n = Node.color nodeA).
  { intros n [<- | [<- | [<- | []]]]; simpl; intros E;
      [reflexivity | discriminate E | discriminate E]. }
  split; [exact Hcol | split; [exact Hdrawn |]].
  exact (handleNodeClick_cycle (idleTriangle closestToDestination) nodeA
           Hcol Hdrawn).
Defined.

